(** * mountain-pine-health: forest-regeneration utility scripts

    A shallow embedding of the three Python scripts under
    [forest-regeneration/python]:

    - [random_tray_configs.py] and [random-tray-configs.py]: randomised
      placement of seed and control pots on a propagation tray
      ([generate_plate]);
    - [quantify_seeds.py]: seed counts out of bulk seed weight and the
      thousand-seed weight ([quantify_seeds]).

    Python lists are mutable objects: the tray scripts are modelled over a
    heap of list objects and an explicit random-generator state. Python floats
    are IEEE-754 binary64 numbers: the seed script is modelled over
    [spec_float] with precision 53 and maximal exponent 1024. *)

From Stdlib Require Import ZArith QArith Qround Qpower Lia Lqa.
From Stdlib Require Import Floats.SpecFloat.
From stdpp Require Import gmap strings list.

Local Open Scope Z_scope.
Local Open Scope nat_scope.
Local Open Scope string_scope.
Local Open Scope list_scope.

(** * Part I: the model *)

(** ** Exceptions and effects *)

(** The Python exceptions the modelled code can raise. *)
Inductive pyexn : Set :=
| IndexError
| ZeroDivisionError
| OverflowError
| ValueError.

(** Computations over a state [S] that may raise; the state reached when an
    exception is raised is kept, as the effects before it have happened. *)
Definition M (S A : Type) : Type := S → S * (pyexn + A).

Definition ret {S A} (a : A) : M S A := λ s, (s, inr a).

Definition raise {S A} (e : pyexn) : M S A := λ s, (s, inl e).

Definition bind {S A B} (c : M S A) (k : A → M S B) : M S B :=
  λ s, match c s with
       | (s', inr a) => k a s'
       | (s', inl e) => (s', inl e)
       end.

Definition lift {S A} (r : pyexn + A) : M S A := λ s, (s, r).

Notation "x <- c ;; k" := (bind c (λ x, k))
  (at level 100, c at next level, right associativity).
Notation "c ;;; k" := (bind c (λ _, k))
  (at level 100, right associativity).

(** ** The tray scripts *)

(** Heap locations of list objects. *)
Abbreviation loc := positive.

(** Module-level names read by [generate_plate]: [objects] is bound to a list
    object, [plate_size] and [position_L] to (immutable) tuples of
    non-negative integers. *)
Record globals : Set := {
  g_objects : loc;
  g_plate_size : nat * nat;
  g_position_L : nat * nat;
}.

(** The state a tray script runs in: its module-level bindings, the list
    objects, and the state of the [random] module. *)
Record state (rng : Type) : Type := {
  env : globals;
  heap : gmap loc (list string);
  rand : rng;
}.
Arguments env {rng} _.
Arguments heap {rng} _.
Arguments rand {rng} _.

(** The list object at a location (the empty list for a dangling one, which
    Python has none of). *)
Definition deref (h : gmap loc (list string)) (l : loc) : list string :=
  default [] (h !! l).

(** The grid of labels a plate, the list of its row objects, denotes. *)
Definition read_plate (h : gmap loc (list string)) (plate : list loc)
  : list (list string) :=
  deref h <$> plate.

(** [[(r, c) for r in range(rows) for c in range(cols) if (r, c) != position_L]] *)
Definition positions (size : nat * nat) (pos_L : nat * nat) : list (nat * nat) :=
  r ← seq 0 size.1; filter (λ p, p ≠ pos_L) (pair r <$> seq 0 size.2).

(** [x[i], x[j] = x[j], x[i]] on a local list. *)
Definition swap {A} (x : list A) (i j : nat) : pyexn + list A :=
  match x !! j, x !! i with
  | Some xj, Some xi => inr (<[j := xi]> (<[i := xj]> x))
  | _, _ => inl IndexError
  end.

Section Tray.
(** The state of the [random] module and its primitive [_randbelow(n)], which
    draws an integer in [range(n)]. *)
Context {rng : Type}.
Variable randbelow : nat → rng → nat * rng.

(** A new list object. *)
Definition alloc (v : list string) : M (state rng) loc :=
  λ s, let l := fresh (dom (heap s)) in
       ({| env := env s; heap := <[l := v]> (heap s); rand := rand s |}, inr l).

(** [l[c] = v] on the list object at [l]. *)
Definition setitem (l : loc) (c : nat) (v : string) : M (state rng) unit :=
  λ s, let row := deref (heap s) l in
       if decide (c < length row) then
         ({| env := env s; heap := <[l := <[c := v]> row]> (heap s); rand := rand s |},
          inr tt)
       else (s, inl IndexError).

(** [plate[r][c] = v]. *)
Definition setitem2 (plate : list loc) (r c : nat) (v : string) : M (state rng) unit :=
  match plate !! r with
  | Some l => setitem l c v
  | None => raise IndexError
  end.

(** [[['' for _ in range(cols)] for _ in range(rows)]]: every row is a list
    object of its own. *)
Fixpoint new_plate (rows cols : nat) : M (state rng) (list loc) :=
  match rows with
  | 0 => ret []
  | S rows' =>
      l <- alloc (replicate cols EmptyString) ;;
      ls <- new_plate rows' cols ;;
      ret (l :: ls)
  end.

(** [randbelow(n)] on the state of the [random] module. *)
Definition draw (n : nat) : M (state rng) nat :=
  λ s, let (j, g) := randbelow n (rand s) in
       ({| env := env s; heap := heap s; rand := g |}, inr j).

(** [random.shuffle(x)] as CPython has it:
    [for i in reversed(range(1, len(x))): j = randbelow(i + 1); x[i], x[j] = x[j], x[i]].
    [shuffle_from i x] runs the iterations [i, i-1, ..., 1]. *)
Fixpoint shuffle_from {A} (i : nat) (x : list A) : M (state rng) (list A) :=
  match i with
  | 0 => ret x
  | S i' =>
      j <- draw (S i) ;;
      x' <- lift (swap x i j) ;;
      shuffle_from i' x'
  end.

Definition shuffle {A} (x : list A) : M (state rng) (list A) :=
  shuffle_from (length x - 1) x.

(** [for obj, (r, c) in zip(objects, available_positions): plate[r][c] = obj].
    [zip] asks the list iterator over [objects] first (position [i] of the
    list object as it is then), the one over the positions second, and stops
    as soon as one of them is exhausted. *)
Fixpoint assign (objs : loc) (plate : list loc) (ps : list (nat * nat)) (i : nat)
  : M (state rng) unit :=
  match ps with
  | [] => ret tt
  | (r, c) :: ps' =>
      λ s, match deref (heap s) objs !! i with
           | None => (s, inr tt)
           | Some obj => (setitem2 plate r c obj ;;; assign objs plate ps' (S i)) s
           end
  end.

(** [generate_plate()]; the outer list of the plate is returned as the list
    of its row objects. *)
Definition generate_plate : M (state rng) (list loc) :=
  λ s, let g := env s in
  (plate <- new_plate (g_plate_size g).1 (g_plate_size g).2 ;;
   setitem2 plate (g_position_L g).1 (g_position_L g).2 "L" ;;;
   available_positions <- shuffle (positions (g_plate_size g) (g_position_L g)) ;;
   assign (g_objects g) plate available_positions 0 ;;;
   ret plate) s.

End Tray.

(** The state a tray script has built when it reaches its first call of
    [generate_plate]: the list [objects] is the one list object. *)
Definition script_state {rng} (objs : list string) (size pos_L : nat * nat) (g : rng)
  : state rng :=
  {| env := {| g_objects := 1%positive; g_plate_size := size; g_position_L := pos_L |};
     heap := {[ 1%positive := objs ]};
     rand := g |}.

(** *** A pinned position of any integers *)

(** The tuple [position_L] may hold any Python integers; the definitions
    above read it as a pair of non-negative ones. These read it as it is. *)

(** [x[i]] on a sequence of [len] items, for any integer [i]: a negative
    index counts from the end; [None] is [IndexError]. *)
Definition list_index (len : nat) (i : Z) : option nat :=
  if decide (0 ≤ i < Z.of_nat len)%Z then Some (Z.to_nat i)
  else if decide (- Z.of_nat len ≤ i < 0)%Z then Some (Z.to_nat (Z.of_nat len + i))
  else None.

(** [plate[r][c] = v] for any integers [r] and [c]. *)
Definition setitem2_at {rng} (plate : list loc) (r c : Z) (v : string)
  : M (state rng) unit :=
  λ s, match list_index (length plate) r ≫= (plate !!.) with
       | Some l =>
           match list_index (length (deref (heap s) l)) c with
           | Some c' => setitem l c' v s
           | None => (s, inl IndexError)
           end
       | None => (s, inl IndexError)
       end.

(** [[(r, c) for r in range(rows) for c in range(cols) if (r, c) != position_L]]
    for a [position_L] of any integers. *)
Definition positions_at (size : nat * nat) (position_L : Z * Z) : list (nat * nat) :=
  r ← seq 0 size.1;
  filter (λ p, (Z.of_nat p.1, Z.of_nat p.2) ≠ position_L) (pair r <$> seq 0 size.2).

(** [generate_plate()] in a module whose [position_L] is a pair of any
    integers. *)
Definition generate_plate_at {rng} (randbelow : nat → rng → nat * rng)
    (position_L : Z * Z) : M (state rng) (list loc) :=
  λ s, let g := env s in
  (plate <- new_plate (g_plate_size g).1 (g_plate_size g).2 ;;
   setitem2_at plate position_L.1 position_L.2 "L" ;;;
   available_positions <- shuffle randbelow (positions_at (g_plate_size g) position_L) ;;
   assign (g_objects g) plate available_positions 0 ;;;
   ret plate) s.

(** *** Display and the body of the scripts *)

(** [[generate_plate() for _ in range(num_plates)]] *)
Fixpoint generate_plates {rng} (randbelow : nat → rng → nat * rng) (n : nat)
  : M (state rng) (list (list loc)) :=
  match n with
  | 0 => ret []
  | S n' =>
      plate <- generate_plate randbelow ;;
      plates <- generate_plates randbelow n' ;;
      ret (plate :: plates)
  end.

(** The second argument of [display_plate]: a number or a text. *)
Inductive plate_number : Set :=
| PlateInt (i : nat)
| PlateStr (text : string).

(** What [display_plate] hands to a [Table] of the display library: the
    columns it adds and the rows it adds, in their order. *)
Record table : Set := {
  added_columns : nat;
  added_rows : list (list string);
}.

(** What [console.print] is called with: the line [f"Plate {plate_number}"]
    or a table. *)
Inductive printed : Set :=
| PrintTitle (n : plate_number)
| PrintTable (t : table).

(** The exceptions of a script: those of [generate_plate] and the [KeyError]
    of a label that [symbol_map] has not. *)
Inductive script_exn : Set :=
| Raised (e : pyexn)
| KeyError (key : string).

(** [[symbol_map[cell] for cell in row]] *)
Fixpoint render_row (symbol_map : gmap string string) (row : list string)
  : script_exn + list string :=
  match row with
  | [] => inr []
  | cell :: row' =>
      match symbol_map !! cell with
      | None => inl (KeyError cell)
      | Some symbol =>
          match render_row symbol_map row' with
          | inl e => inl e
          | inr symbols => inr (symbol :: symbols)
          end
      end
  end.

(** [for row in plate]: the row [[symbol_map[cell] for cell in row]] is added
    to the table. *)
Fixpoint add_rows (symbol_map : gmap string string) (h : gmap loc (list string))
    (plate : list loc) (t : table) : script_exn + table :=
  match plate with
  | [] => inr t
  | row :: plate' =>
      match render_row symbol_map (deref h row) with
      | inl e => inl e
      | inr symbols =>
          add_rows symbol_map h plate'
            {| added_columns := added_columns t; added_rows := added_rows t ++ [symbols] |}
      end
  end.

(** [display_plate(plate, plate_number)]: the table gets [plate_size[1]]
    columns and a row per row of the plate; title and table are printed once
    the table is complete. The state is what has been printed. *)
Definition display_plate {rng} (symbol_map : gmap string string) (s : state rng)
    (plate : list loc) (n : plate_number) (out : list printed)
  : list printed * (script_exn + unit) :=
  match add_rows symbol_map (heap s) plate
          {| added_columns := (g_plate_size (env s)).2; added_rows := [] |} with
  | inl e => (out, inl e)
  | inr t => (out ++ [PrintTitle n; PrintTable t], inr tt)
  end.

(** [for i, plate in enumerate(plates, start=i): display_plate(plate, i)] *)
Fixpoint display_plates {rng} (symbol_map : gmap string string) (s : state rng)
    (plates : list (list loc)) (i : nat) (out : list printed)
  : list printed * (script_exn + unit) :=
  match plates with
  | [] => (out, inr tt)
  | plate :: plates' =>
      match display_plate symbol_map s plate (PlateInt i) out with
      | (out', inl e) => (out', inl e)
      | (out', inr _) => display_plates symbol_map s plates' (S i) out'
      end
  end.

(** The body of a script after its definitions:
    [if TEST: test_plate = generate_plate(); display_plate(test_plate, title)]
    and [if not TEST: plates = [...]; for i, plate in enumerate(plates, start=1): ...]. *)
Definition main {rng} (randbelow : nat → rng → nat * rng) (TEST : bool)
    (title : string) (num_plates : nat) (symbol_map : gmap string string)
    (s : state rng) (out : list printed)
  : state rng * list printed * (script_exn + unit) :=
  if TEST then
    match generate_plate randbelow s with
    | (s', inl e) => (s', out, inl (Raised e))
    | (s', inr test_plate) =>
        (s', (display_plate symbol_map s' test_plate (PlateStr title) out).1,
         (display_plate symbol_map s' test_plate (PlateStr title) out).2)
    end
  else
    match generate_plates randbelow num_plates s with
    | (s', inl e) => (s', out, inl (Raised e))
    | (s', inr plates) =>
        (s', (display_plates symbol_map s' plates 1 out).1,
         (display_plates symbol_map s' plates 1 out).2)
    end.

(** [random_tray_configs.py] *)
Module random_tray_configs.

Definition objects : list string :=
  replicate 3 "C" ++ replicate 5 "P. abies" ++ replicate 5 "P. cembra"
  ++ replicate 5 "A. pseudoplatanus" ++ replicate 5 "S. aucuparia".

Definition plate_size : nat * nat := (4, 6).

Definition position_L : nat * nat := (2, 2).

Definition init {rng} (g : rng) : state rng :=
  script_state objects plate_size position_L g.

Definition TEST : bool := true.

Definition num_plates : nat := 72.

Definition symbol_map : gmap string string :=
  list_to_map
    [ ("C", "[black]control[/black]");
      ("L", "[black]logger[/black]");
      ("P. abies", "[bright_blue]Piab[/bright_blue]");
      ("P. cembra", "[green4]Pice[/green4]");
      ("A. pseudoplatanus", "[bright_red]Acps[/bright_red]");
      ("S. aucuparia", "[gold3]Soau[/gold3]") ].

End random_tray_configs.

(** [random-tray-configs.py] *)
Module random_tray_configs_dash.

Definition objects : list string :=
  replicate 3 "E" ++ replicate 5 "P. abies" ++ replicate 5 "P. cembra"
  ++ replicate 5 "A. pseudoplatanus" ++ replicate 5 "S. aucuparia".

Definition plate_size : nat * nat := (4, 6).

Definition position_L : nat * nat := (2, 2).

Definition init {rng} (g : rng) : state rng :=
  script_state objects plate_size position_L g.

Definition TEST : bool := false.

Definition num_plates : nat := 72.

Definition symbol_map : gmap string string :=
  list_to_map
    [ ("E", "[black]leer[/black]");
      ("L", "[black]logger[/black]");
      ("P. abies", "[bright_blue]P. abi[/bright_blue]");
      ("P. cembra", "[green4]P. cem[/green4]");
      ("A. pseudoplatanus", "[bright_red]A. pse[/bright_red]");
      ("S. aucuparia", "[gold3]S. auc[/gold3]") ].

End random_tray_configs_dash.

(** [random.seed(k)]: the generator state becomes the one of seed [k], whatever
    it was. *)
Definition reseed {rng} (seed : Z → rng) (k : Z) : M (state rng) unit :=
  λ s, ({| env := env s; heap := heap s; rand := seed k |}, inr tt).

(** [random.seed(k)] followed by a call of [generate_plate()]. *)
Definition seeded_generate_plate {rng} (randbelow : nat → rng → nat * rng)
    (seed : Z → rng) (k : Z) : M (state rng) (list loc) :=
  reseed seed k ;;; generate_plate randbelow.

(** The renaming of labels between the two scripts: the empty pot ['E'] of
    [random-tray-configs.py] is the control pot ['C'] of [random_tray_configs.py]. *)
Definition rename_E_to_C (label : string) : string :=
  if decide (label = "E") then "C" else label.

(** A small linear congruential generator, to run the model on. *)
Definition lcg_randbelow (n : nat) (g : N) : nat * N :=
  (N.to_nat (g / 65536 mod N.of_nat n), (g * 1103515245 + 12345) mod 2147483648)%N.

(** ** The seed script *)

(** Python floats: binary64. *)
Definition prec : Z := 53.

Definition emax : Z := 1024.

(** The numbers of the table: Python integers and floats. *)
Inductive pynum : Set :=
| PyInt (z : Z)
| PyFloat (f : spec_float).

(** An integer as a mantissa of any size at exponent 0, for the division of
    two integers. *)
Definition SFofZ (z : Z) : spec_float :=
  match z with
  | Z0 => S754_zero false
  | Zpos p => S754_finite false p 0
  | Zneg p => S754_finite true p 0
  end.

(** [float(x)]: a float is returned as it is, an integer is rounded to the
    nearest float ([OverflowError] when that is beyond the largest one). *)
Definition py_float (x : pynum) : pyexn + spec_float :=
  match x with
  | PyFloat f => inr f
  | PyInt z =>
      match binary_normalize prec emax z 0 false with
      | S754_infinity _ => inl OverflowError
      | f => inr f
      end
  end.

(** The float [1000.0], which the integer [1000] becomes in [available_weight * 1000]. *)
Definition f1000 : spec_float :=
  Eval vm_compute in binary_normalize prec emax 1000 0 false.

(** [x * y] on floats. *)
Definition py_mul (x y : spec_float) : spec_float := SFmul prec emax x y.

(** [x / y] on floats: division by a zero of either sign raises. *)
Definition py_div (x y : spec_float) : pyexn + spec_float :=
  match y with
  | S754_zero _ => inl ZeroDivisionError
  | _ => inr (SFdiv prec emax x y)
  end.

(** [a / b] on integers: the float nearest to the exact quotient, ties to
    even; [OverflowError] when that is beyond the largest float. *)
Definition py_truediv (a b : Z) : pyexn + spec_float :=
  match b with
  | Z0 => inl ZeroDivisionError
  | _ =>
      match SFdiv prec emax (SFofZ a) (SFofZ b) with
      | S754_infinity _ => inl OverflowError
      | f => inr f
      end
  end.

(** [math.floor(x)]: an integer of any size. *)
Definition py_floor (x : spec_float) : pyexn + Z :=
  match x with
  | S754_nan => inl ValueError
  | S754_infinity _ => inl OverflowError
  | S754_zero _ => inr 0%Z
  | S754_finite s m e => inr (Z.shiftl (cond_Zopp s (Zpos m)) e)
  end.

(** Sequencing of operations that may raise. *)
Definition ebind {A B} (r : pyexn + A) (k : A → pyexn + B) : pyexn + B :=
  match r with
  | inl e => inl e
  | inr a => k a
  end.

(** A row of the table: [[name, min TKG, max TKG, available weight]]. *)
Record item : Set := {
  item0 : string;
  item1 : pynum;
  item2 : pynum;
  item3 : pynum;
}.

(** What one [print] call of [quantify_seeds] writes: the name and the three
    counts of the formatted text. *)
Record report : Set := {
  tree_name : string;
  min_seed_count : Z;
  max_seed_count : Z;
  mean_seed_count : Z;
}.

(** The body of the loop of [quantify_seeds] up to the [print] call. *)
Definition seed_counts (it : item) : pyexn + report :=
  ebind (py_float (item1 it)) (λ min_weight,
  ebind (py_float (item2 it)) (λ max_weight,
  ebind (py_float (item3 it)) (λ available_weight,
  ebind (ebind (py_div (py_mul available_weight f1000) min_weight) py_floor) (λ max_count,
  ebind (ebind (py_div (py_mul available_weight f1000) max_weight) py_floor) (λ min_count,
  ebind (ebind (py_truediv (min_count + max_count) 2) py_floor) (λ mean_count,
  inr {| tree_name := item0 it;
         min_seed_count := min_count;
         max_seed_count := max_count;
         mean_seed_count := mean_count |})))))).

(** [print(...)]: the state of the seed script is what it has written. *)
Definition print (r : report) : M (list report) unit :=
  λ out, (out ++ [r], inr tt).

(** [quantify_seeds(tree_dict)] *)
Fixpoint quantify_seeds (tree_dict : list item) : M (list report) unit :=
  match tree_dict with
  | [] => ret tt
  | it :: rest =>
      r <- lift (seed_counts it) ;;
      print r ;;;
      quantify_seeds rest
  end.

(** The float [3.5]. *)
Definition f3_5 : spec_float :=
  Eval vm_compute in binary_normalize prec emax 7 (-1) false.

Definition tree_dictionary : list item :=
  [ {| item0 := "Picea abies"; item1 := PyInt 4; item2 := PyInt 8; item3 := PyInt 100 |};
    {| item0 := "Pinus cembra"; item1 := PyInt 150; item2 := PyInt 300; item3 := PyInt 2000 |};
    {| item0 := "Acer pseudoplatanus"; item1 := PyInt 100; item2 := PyInt 250; item3 := PyInt 3000 |};
    {| item0 := "Sorbus aucuparia"; item1 := PyFloat f3_5; item2 := PyInt 5; item3 := PyInt 200 |} ].

(** *** The estimate in the words of the specification *)



(** [floor(availableWeight * 1000 / weight)] *)
Definition count_for (availableWeight weight : spec_float) : pyexn + Z :=
  ebind (py_div (py_mul availableWeight f1000) weight) py_floor.




(** *** The value of a float, and rounding, for the proofs *)

(** [2 ^ e] *)
Definition bpow (e : Z) : Q := (2 ^ e)%Q.
Arguments bpow : simpl never.

(** The value of a finite float; zero for the others. *)
Definition SF2Q (x : spec_float) : Q :=
  match x with
  | S754_finite s m e => (inject_Z (cond_Zopp s (Zpos m)) * bpow e)%Q
  | _ => 0%Q
  end.

(** The scaled exact value [y] lies over the integer [m] as the location [l]
    says. *)
Definition loc_inv (m : Z) (l : location) (y : Q) : Prop :=
  match l with
  | loc_Exact => (y == inject_Z m)%Q
  | loc_Inexact Lt => (inject_Z m < y ∧ y < inject_Z m + (1 # 2))%Q
  | loc_Inexact Eq => (y == inject_Z m + (1 # 2))%Q
  | loc_Inexact Gt => (inject_Z m + (1 # 2) < y ∧ y < inject_Z m + 1)%Q
  end.

(** The exact value [x], at most [2 ^ (e + prec)], cut at the exponent [e] of
    its binade: the mantissa [m] and where [x] lies above it. *)
Definition CT (x : Q) (m e : Z) (l : location) : Prop :=
  loc_inv m l (x * bpow (- e))
  ∧ (0 <= m)%Z
  ∧ (emin prec emax <= e)%Z
  ∧ (x < bpow (e + prec))%Q
  ∧ (e = emin prec emax ∨ (bpow (e + prec - 1) <= x)%Q).

(** The mantissa and exponent of a float of the format, or of zero. *)
Definition canon_float (m e : Z) : Prop :=
  (0 <= m < 2 ^ prec)%Z
  ∧ (emin prec emax <= e)%Z
  ∧ (e = emin prec emax ∨ (2 ^ (prec - 1) <= m)%Z).

(** [v] is [x] rounded to the nearest number of the format of unbounded
    exponent, ties to even. *)
Definition rounds_to (x v : Q) : Prop :=
  ∃ m e l, CT x m e l ∧ (v == inject_Z (round_nearest_even m l) * bpow e)%Q.

(** The float [f] is what the rounded value [v] becomes under the sign [s]:
    a zero, the finite float of that value, or the infinity when [v] is
    [2 ^ emax] or more. *)
Definition round_result (s : bool) (f : spec_float) (v : Q) : Prop :=
  match f with
  | S754_zero s' => s' = s ∧ (v == 0)%Q
  | S754_finite s' m e =>
      s' = s ∧ (v == inject_Z (Zpos m) * bpow e)%Q
      ∧ canon_float (Zpos m) e ∧ (e <= emax - prec)%Z
  | S754_infinity s' => s' = s ∧ (bpow emax <= v)%Q
  | S754_nan => False
  end.

(** The integers that are floats of the format of unbounded exponent. *)
Definition representable (n : Z) : Prop :=
  ∃ m e, canon_float m e ∧ (inject_Z m * bpow e == inject_Z n)%Q.

(** The zeros and the finite floats. *)
Definition is_finite (x : spec_float) : bool :=
  match x with
  | S754_zero _ | S754_finite _ _ _ => true
  | _ => false
  end.

(** The floats that are finite and not negative: the zeros and the positive
    finite floats. *)
Definition nonneg_finite (x : spec_float) : bool :=
  match x with
  | S754_zero _ | S754_finite false _ _ => true
  | _ => false
  end.

(** ** Pure counterparts, for the proofs *)

(** The grid with label [f (r, c)] in row [r] and column [c]. *)
Definition tabulate (size : nat * nat) (f : nat * nat → string) : list (list string) :=
  (λ r, (λ c, f (r, c)) <$> seq 0 size.2) <$> seq 0 size.1.

(** One cell changed. *)
Definition upd (f : nat * nat → string) (p : nat * nat) (v : string) : nat * nat → string :=
  λ q, if decide (q = p) then v else f q.

(** The labels [objs] written at the positions [ps], pairwise, up to the end
    of the shorter list. *)
Fixpoint assign_fn (objs : list string) (ps : list (nat * nat)) (f : nat * nat → string)
  : nat * nat → string :=
  match ps, objs with
  | p :: ps', o :: objs' => assign_fn objs' ps' (upd f p o)
  | _, _ => f
  end.

(** [shuffle_from] on the generator state alone. *)
Fixpoint shuffle_run {rng A} (randbelow : nat → rng → nat * rng)
    (i : nat) (x : list A) (g : rng) : rng * (pyexn + list A) :=
  match i with
  | 0 => (g, inr x)
  | S i' =>
      let (j, g') := randbelow (S i) g in
      match swap x i j with
      | inr x' => shuffle_run randbelow i' x' g'
      | inl e => (g', inl e)
      end
  end.

(** The labels of a grid. *)
Definition final_labels (objs : list string) (size pos_L : nat * nat)
    (shuffled : list (nat * nat)) : nat * nat → string :=
  assign_fn objs shuffled (upd (λ _, EmptyString) pos_L "L").

(** All the positions of a plate, row by row. *)
Definition all_positions (size : nat * nat) : list (nat * nat) :=
  r ← seq 0 size.1; pair r <$> seq 0 size.2.

(** The label of a cell of a grid, if the grid has the cell. *)
Definition cell (grid : list (list string)) (p : nat * nat) : option string :=
  grid !! p.1 ≫= (.!! p.2).

(** The labels of a grid of [size.2] columns, row by row, without the one at
    position [p]. *)
Definition others (grid : list (list string)) (size p : nat * nat) : list string :=
  delete (p.1 * size.2 + p.2) (mjoin grid).

(** The first label, in the order of the list, that [symbol_map] has not. *)
Fixpoint first_missing (symbol_map : gmap string string) (labels : list string)
  : option string :=
  match labels with
  | [] => None
  | label :: labels' =>
      match symbol_map !! label with
      | None => Some label
      | Some _ => first_missing symbol_map labels'
      end
  end.

(** A plate of the given size as [generate_plate] leaves it: ['L'] at the
    pinned position and, in the other cells taken together, the labels of
    [objs] as far as there are cells and the empty string where the labels
    run out. *)
Definition filled_plate (h : gmap loc (list string)) (size pos_L : nat * nat)
    (objs : list string) (plate : list loc) : Prop :=
  length (read_plate h plate) = size.1
  ∧ Forall (λ row, length row = size.2) (read_plate h plate)
  ∧ cell (read_plate h plate) pos_L = Some "L"
  ∧ others (read_plate h plate) size pos_L
    ≡ₚ take (size.1 * size.2 - 1) objs
       ++ replicate (size.1 * size.2 - 1 - length objs) EmptyString.

(** * Part II: properties *)

Section GridFacts.

Lemma tabulate_replicate (size : nat * nat) (v : string) :
  replicate size.1 (replicate size.2 v) = tabulate size (λ _, v).
Proof.
  unfold tabulate. apply list_eq. intros r.
  rewrite list_lookup_fmap.
  destruct (decide (r < size.1)) as [Hr|Hr].
  - rewrite lookup_replicate_2, lookup_seq_lt by done. simpl. f_equal.
    apply list_eq. intros c. rewrite list_lookup_fmap.
    destruct (decide (c < size.2)) as [Hc|Hc].
    + by rewrite lookup_replicate_2, lookup_seq_lt by done.
    + rewrite lookup_seq_ge by lia. simpl. apply lookup_replicate_None. lia.
  - rewrite lookup_seq_ge by lia. simpl. apply lookup_replicate_None. lia.
Qed.

Lemma tabulate_lookup (size : nat * nat) (f : nat * nat → string) (r : nat) :
  r < size.1 → tabulate size f !! r = Some ((λ c, f (r, c)) <$> seq 0 size.2).
Proof. intros Hr. unfold tabulate. by rewrite list_lookup_fmap, lookup_seq_lt. Qed.

Lemma tabulate_length (size : nat * nat) (f : nat * nat → string) :
  length (tabulate size f) = size.1.
Proof. unfold tabulate. by rewrite length_fmap, length_seq. Qed.

Lemma positions_spec (size pos_L p : nat * nat) :
  p ∈ positions size pos_L ↔ p.1 < size.1 ∧ p.2 < size.2 ∧ p ≠ pos_L.
Proof.
  unfold positions. rewrite list_elem_of_bind. split.
  - intros (r & Hp & Hr). apply list_elem_of_filter in Hp as [Hne Hp].
    apply list_elem_of_fmap in Hp as (c & -> & Hc).
    apply elem_of_seq in Hr, Hc. simpl. repeat split; [lia|lia|done].
  - intros (Hr & Hc & Hne). exists p.1. split; [|apply elem_of_seq; lia].
    apply list_elem_of_filter. split; [done|].
    apply list_elem_of_fmap. exists p.2. split; [by destruct p|apply elem_of_seq; lia].
Qed.

Lemma positions_NoDup (size pos_L : nat * nat) : NoDup (positions size pos_L).
Proof.
  unfold positions. apply NoDup_bind.
  - intros r1 r2 p _ _ [_ Hp1]%list_elem_of_filter [_ Hp2]%list_elem_of_filter.
    apply list_elem_of_fmap in Hp1 as (c1 & -> & _).
    apply list_elem_of_fmap in Hp2 as (c2 & [= ] & _). done.
  - intros r _. apply NoDup_filter, NoDup_fmap_2; [|apply NoDup_seq].
    by intros c1 c2 [= ].
  - apply NoDup_seq.
Qed.

Lemma assign_fn_other (objs : list string) (ps : list (nat * nat))
    (f : nat * nat → string) (q : nat * nat) :
  q ∉ ps → assign_fn objs ps f q = f q.
Proof.
  revert objs f. induction ps as [|p ps IH]; intros [|o objs] f Hq; try done.
  apply not_elem_of_cons in Hq as [Hne Hq]. simpl. rewrite IH by done.
  unfold upd. by rewrite decide_False.
Qed.

Lemma assign_fn_fill (objs : list string) (ps : list (nat * nat))
    (f : nat * nat → string) :
  NoDup ps →
  assign_fn objs ps f <$> ps = take (length ps) objs ++ (f <$> drop (length objs) ps).
Proof.
  revert objs f. induction ps as [|p ps IH]; intros [|o objs] f Hnd; try done.
  apply NoDup_cons in Hnd as [Hp Hnd]. cbn [assign_fn length take drop fmap list_fmap].
  rewrite assign_fn_other by done. rewrite IH by done.
  unfold upd at 1. rewrite decide_True by done. simpl. do 2 f_equal.
  apply list_fmap_ext. intros ? q Hq%list_elem_of_lookup_2. unfold upd.
  rewrite decide_False; [done|]. intros ->.
  apply Hp. by eapply subseteq_drop.
Qed.

Lemma join_tabulate (size : nat * nat) (f : nat * nat → string) :
  mjoin (tabulate size f) = f <$> all_positions size.
Proof.
  unfold tabulate, all_positions. generalize (seq 0 size.1). intros rs.
  induction rs as [|r rs IH]; [done|]. csimpl. rewrite IH, fmap_app. f_equal.
  by rewrite <- list_fmap_compose.
Qed.

Lemma all_positions_spec (size p : nat * nat) :
  p ∈ all_positions size ↔ p.1 < size.1 ∧ p.2 < size.2.
Proof.
  unfold all_positions. rewrite list_elem_of_bind. split.
  - intros (r & Hp & Hr). apply list_elem_of_fmap in Hp as (c & -> & Hc).
    apply elem_of_seq in Hr, Hc. simpl. lia.
  - intros [Hr Hc]. exists p.1. split; [|apply elem_of_seq; lia].
    apply list_elem_of_fmap. exists p.2. split; [by destruct p|apply elem_of_seq; lia].
Qed.

Lemma all_positions_NoDup (size : nat * nat) : NoDup (all_positions size).
Proof.
  unfold all_positions. apply NoDup_bind.
  - intros r1 r2 p _ _ (c1 & -> & _)%list_elem_of_fmap (c2 & [= ] & _)%list_elem_of_fmap.
    done.
  - intros r _. apply NoDup_fmap_2; [|apply NoDup_seq]. by intros c1 c2 [= ].
  - apply NoDup_seq.
Qed.

Lemma all_positions_length (size : nat * nat) :
  length (all_positions size) = size.1 * size.2.
Proof.
  unfold all_positions.
  assert (H : ∀ rs : list nat,
             length (rs ≫= λ r, pair r <$> seq 0 size.2) = length rs * size.2).
  { induction rs as [|r rs IH]; [done|]. csimpl.
    by rewrite length_app, IH, length_fmap, length_seq. }
  by rewrite H, length_seq.
Qed.

Lemma all_positions_perm (size pos_L : nat * nat) :
  pos_L.1 < size.1 → pos_L.2 < size.2 →
  all_positions size ≡ₚ pos_L :: positions size pos_L.
Proof.
  intros Hr Hc. apply NoDup_Permutation.
  - apply all_positions_NoDup.
  - apply NoDup_cons. split; [|apply positions_NoDup].
    rewrite positions_spec. tauto.
  - intros p. rewrite elem_of_cons, all_positions_spec, positions_spec.
    destruct (decide (p = pos_L)) as [->|]; tauto.
Qed.

Lemma positions_length (size pos_L : nat * nat) :
  pos_L.1 < size.1 → pos_L.2 < size.2 →
  length (positions size pos_L) = size.1 * size.2 - 1.
Proof.
  intros Hr Hc. pose proof (Permutation_length (all_positions_perm size pos_L Hr Hc)) as H.
  rewrite all_positions_length in H. simpl in H. lia.
Qed.

Lemma tabulate_shape (size : nat * nat) (f : nat * nat → string) :
  Forall (λ row, length row = size.2) (tabulate size f).
Proof.
  unfold tabulate. apply Forall_fmap, Forall_forall. intros r _. simpl.
  by rewrite length_fmap, length_seq.
Qed.

Lemma tabulate_cell (size : nat * nat) (f : nat * nat → string) (p : nat * nat) (x : string) :
  cell (tabulate size f) p = Some x ↔ p.1 < size.1 ∧ p.2 < size.2 ∧ x = f p.
Proof.
  unfold cell. destruct p as [r c]. simpl.
  destruct (decide (r < size.1)) as [Hr|Hr].
  - rewrite tabulate_lookup by done. simpl. rewrite list_lookup_fmap.
    destruct (decide (c < size.2)) as [Hc|Hc].
    + rewrite lookup_seq_lt by done. simpl. split; [by intros [= <-]|by intros (_ & _ & ->)].
    + rewrite lookup_seq_ge by lia. simpl. split; [done|lia].
  - rewrite lookup_ge_None_2 by (rewrite tabulate_length; lia). simpl. split; [done|lia].
Qed.

Lemma join_tabulate_lookup (size : nat * nat) (f : nat * nat → string) (p : nat * nat) :
  p.1 < size.1 → p.2 < size.2 →
  mjoin (tabulate size f) !! (p.1 * size.2 + p.2) = Some (f p).
Proof.
  intros Hr Hc. apply join_lookup_Some_same_length'; [apply tabulate_shape|done|].
  exists ((λ c, f (p.1, c)) <$> seq 0 size.2). split; [by apply tabulate_lookup|].
  rewrite list_lookup_fmap, lookup_seq_lt by done. by destruct p.
Qed.

Lemma final_labels_pinned (objs : list string) (size pos_L : nat * nat)
    (shuffled : list (nat * nat)) :
  shuffled ≡ₚ positions size pos_L →
  final_labels objs size pos_L shuffled pos_L = "L".
Proof.
  intros Hperm. unfold final_labels. rewrite assign_fn_other.
  - unfold upd. by rewrite decide_True.
  - rewrite Hperm, positions_spec. tauto.
Qed.

(** The labels at the shuffled positions, in their order: those of [objs], as
    far as there are positions, and the empty string where [objs] runs out. *)
Lemma final_labels_fill (objs : list string) (size pos_L : nat * nat)
    (shuffled : list (nat * nat)) :
  pos_L.1 < size.1 → pos_L.2 < size.2 →
  shuffled ≡ₚ positions size pos_L →
  final_labels objs size pos_L shuffled <$> shuffled
  = take (size.1 * size.2 - 1) objs
    ++ replicate (size.1 * size.2 - 1 - length objs) EmptyString.
Proof.
  intros Hr Hc Hperm.
  assert (Hnd : NoDup shuffled) by (rewrite Hperm; apply positions_NoDup).
  assert (Hnin : pos_L ∉ shuffled).
  { rewrite Hperm, positions_spec. tauto. }
  assert (Hlen : length shuffled = size.1 * size.2 - 1).
  { rewrite Hperm. by apply positions_length. }
  unfold final_labels. rewrite assign_fn_fill, Hlen by done. f_equal.
  rewrite <- Hlen, <- (length_drop shuffled (length objs)).
  assert (Hsub : ∀ q, q ∈ drop (length objs) shuffled → q ≠ pos_L).
  { intros q Hq%subseteq_drop ->. done. }
  revert Hsub. generalize (drop (length objs) shuffled). intros l.
  induction l as [|q l IH]; intros Hsub; [done|].
  rewrite fmap_cons, IH by (intros; apply Hsub; by right). simpl.
  unfold upd at 1. rewrite decide_False; [done|]. apply Hsub. by left.
Qed.

Lemma final_labels_elem (objs : list string) (size pos_L p : nat * nat)
    (shuffled : list (nat * nat)) :
  pos_L.1 < size.1 → pos_L.2 < size.2 →
  shuffled ≡ₚ positions size pos_L →
  p.1 < size.1 → p.2 < size.2 → p ≠ pos_L →
  final_labels objs size pos_L shuffled p
  ∈ take (size.1 * size.2 - 1) objs
    ++ replicate (size.1 * size.2 - 1 - length objs) EmptyString.
Proof.
  intros Hr Hc Hperm Hpr Hpc Hne.
  rewrite <- (final_labels_fill objs size pos_L shuffled) by done.
  apply list_elem_of_fmap_2. rewrite Hperm, positions_spec. tauto.
Qed.

(** The cells other than the pinned one hold these labels. *)
Lemma final_labels_others (objs : list string) (size pos_L : nat * nat)
    (shuffled : list (nat * nat)) :
  pos_L.1 < size.1 → pos_L.2 < size.2 →
  shuffled ≡ₚ positions size pos_L →
  others (tabulate size (final_labels objs size pos_L shuffled)) size pos_L
  ≡ₚ take (size.1 * size.2 - 1) objs
     ++ replicate (size.1 * size.2 - 1 - length objs) EmptyString.
Proof.
  intros Hr Hc Hperm. set (F := final_labels objs size pos_L shuffled).
  assert (HL : F pos_L = "L") by (by apply final_labels_pinned).
  unfold others. apply (Permutation.Permutation_cons_inv (a := "L")).
  rewrite <- HL at 1. rewrite <- delete_Permutation by (by apply join_tabulate_lookup).
  rewrite join_tabulate, (all_positions_perm size pos_L) by done. simpl.
  rewrite HL. f_equiv. rewrite <- (final_labels_fill objs size pos_L shuffled) by done.
  fold F. symmetry. by apply fmap_Permutation.
Qed.

Lemma tabulate_fmap (size : nat * nat) (h : string → string) (f : nat * nat → string) :
  (λ row : list string, h <$> row) <$> tabulate size f = tabulate size (h ∘ f).
Proof.
  unfold tabulate. rewrite <- list_fmap_compose. apply list_fmap_ext.
  intros ? r _. simpl. by rewrite <- list_fmap_compose.
Qed.

Lemma tabulate_ext (size : nat * nat) (f f' : nat * nat → string) :
  (∀ p, f p = f' p) → tabulate size f = tabulate size f'.
Proof.
  intros Hf. unfold tabulate. apply list_fmap_ext. intros ? r _.
  apply list_fmap_ext. intros ? c _. apply Hf.
Qed.

Lemma assign_fn_fmap (h : string → string) (objs : list string) (ps : list (nat * nat)) :
  ∀ (f f' : nat * nat → string) (p : nat * nat),
  (∀ q, h (f q) = f' q) →
  h (assign_fn objs ps f p) = assign_fn (h <$> objs) ps f' p.
Proof.
  revert objs. induction ps as [|q ps IH]; intros [|o objs] f f' p Hf; try apply Hf.
  cbn [assign_fn fmap list_fmap]. apply IH. intros q'. unfold upd.
  case_decide; [done|apply Hf].
Qed.

Lemma final_labels_fmap (h : string → string) (objs : list string)
    (size pos_L p : nat * nat) (shuffled : list (nat * nat)) :
  h EmptyString = EmptyString → h "L" = "L" →
  h (final_labels objs size pos_L shuffled p)
  = final_labels (h <$> objs) size pos_L shuffled p.
Proof.
  intros He HL. unfold final_labels. apply assign_fn_fmap.
  intros q. unfold upd. by case_decide.
Qed.

End GridFacts.

Section TrayFacts.
Context {rng : Type}.
Variable randbelow : nat → rng → nat * rng.

Lemma swap_cons_perm {A} (l : list A) (j : nat) (a b : A) :
  l !! j = Some b → b :: <[j := a]> l ≡ₚ a :: l.
Proof.
  revert j. induction l as [|x l IH]; intros [|j] Hj; simplify_eq/=.
  - apply perm_swap.
  - etrans; [apply perm_swap|]. etrans; [|apply perm_swap]. f_equiv. by apply IH.
Qed.

Lemma swap_perm {A} (x x' : list A) (i j : nat) :
  swap x i j = inr x' → x' ≡ₚ x.
Proof.
  unfold swap. destruct (x !! j) as [xj|] eqn:Hj; [|done].
  destruct (x !! i) as [xi|] eqn:Hi; [|done].
  intros [= <-]. revert i j Hi Hj.
  induction x as [|a x IH]; intros [|i] [|j] Hi Hj; simplify_eq/=; try done.
  - by apply swap_cons_perm.
  - by apply swap_cons_perm.
  - f_equiv. by apply IH.
Qed.

Lemma swap_ok {A} (x : list A) (i j : nat) :
  i < length x → j < length x → ∃ x', swap x i j = inr x' ∧ length x' = length x.
Proof.
  intros Hi Hj. unfold swap.
  destruct (lookup_lt_is_Some_2 x j Hj) as [xj ->].
  destruct (lookup_lt_is_Some_2 x i Hi) as [xi ->].
  eexists; split; [done|]. by rewrite !length_insert.
Qed.

Lemma shuffle_from_run {A} (i : nat) (x : list A) (s : state rng) :
  shuffle_from randbelow i x s =
  ({| env := env s; heap := heap s; rand := (shuffle_run randbelow i x (rand s)).1 |},
   (shuffle_run randbelow i x (rand s)).2).
Proof.
  revert x s. induction i as [|i IH]; intros x s.
  - by destruct s.
  - cbn [shuffle_from shuffle_run]. destruct s as [e h g]. unfold bind, draw, lift.
    simpl. destruct (randbelow (S (S i)) g) as [j g'].
    destruct (swap x (S i) j) as [e'|x']; [done|].
    by rewrite IH.
Qed.

Lemma new_plate_spec (rows cols : nat) (s : state rng) :
  ∃ plate h',
    new_plate rows cols s = ({| env := env s; heap := h'; rand := rand s |}, inr plate)
    ∧ length plate = rows
    ∧ NoDup plate
    ∧ (∀ l, l ∈ plate → heap s !! l = None)
    ∧ (∀ l, l ∉ plate → h' !! l = heap s !! l)
    ∧ read_plate h' plate = replicate rows (replicate cols EmptyString).
Proof.
  revert s. induction rows as [|rows IH]; intros s.
  - exists [], (heap s). destruct s. repeat split; try done; [constructor|].
    by intros l ?%elem_of_nil.
  - cbn [new_plate]. unfold bind at 1. unfold alloc at 1.
    set (l := fresh (dom (heap s))).
    set (s1 := {| env := env s; heap := <[l := replicate cols EmptyString]> (heap s);
                  rand := rand s |}).
    destruct (IH s1) as (plate & h' & Hrun & Hlen & Hnd & Hfresh & Hframe & Hread).
    assert (Hl : heap s !! l = None) by (apply not_elem_of_dom, is_fresh).
    assert (Hlp : l ∉ plate).
    { intros Hin. apply Hfresh in Hin. simpl in Hin. by rewrite lookup_insert_eq in Hin. }
    exists (l :: plate), h'. unfold bind. rewrite Hrun. simpl.
    split; [done|]. split; [by rewrite Hlen|]. split; [by constructor|].
    split; [|split].
    + intros l' [->|Hin]%elem_of_cons; [done|].
      apply Hfresh in Hin. simpl in Hin. by apply lookup_insert_None in Hin as [? _].
    + intros l' Hnin. apply not_elem_of_cons in Hnin as [Hne Hnin].
      rewrite Hframe by done. simpl. by rewrite lookup_insert_ne.
    + unfold read_plate in *. simpl. rewrite Hread. f_equal.
      unfold deref. rewrite Hframe by done. simpl. by rewrite lookup_insert_eq.
Qed.

Lemma setitem2_spec (plate : list loc) (size : nat * nat) (f : nat * nat → string)
    (r c : nat) (v : string) (s : state rng) :
  NoDup plate →
  read_plate (heap s) plate = tabulate size f →
  r < size.1 → c < size.2 →
  ∃ h',
    setitem2 plate r c v s = ({| env := env s; heap := h'; rand := rand s |}, inr tt)
    ∧ read_plate h' plate = tabulate size (upd f (r, c) v)
    ∧ (∀ l, l ∉ plate → h' !! l = heap s !! l).
Proof.
  intros Hnd Hread Hr Hc.
  assert (Hlen : length plate = size.1).
  { rewrite <- (tabulate_length size f), <- Hread. unfold read_plate.
    by rewrite length_fmap. }
  destruct (lookup_lt_is_Some_2 plate r) as [l Hl]; [lia|].
  assert (Hrow : deref (heap s) l = (λ c, f (r, c)) <$> seq 0 size.2).
  { pose proof (f_equal (.!! r) Hread) as Hr'. simpl in Hr'.
    unfold read_plate in Hr'. rewrite list_lookup_fmap, Hl, tabulate_lookup in Hr' by done.
    by injection Hr'. }
  unfold setitem2. rewrite Hl. unfold setitem.
  rewrite decide_True by (rewrite Hrow, length_fmap, length_seq; done).
  eexists. split; [done|]. split.
  - apply list_eq. intros r'. unfold read_plate. rewrite list_lookup_fmap.
    destruct (decide (r' < size.1)) as [Hr'|Hr'].
    + rewrite tabulate_lookup by done.
      destruct (lookup_lt_is_Some_2 plate r') as [l' Hl']; [lia|].
      rewrite Hl'. simpl. f_equal. unfold deref at 1.
      destruct (decide (l' = l)) as [->|Hne].
      * assert (r' = r) as -> by (by eapply NoDup_lookup).
        rewrite lookup_insert_eq. simpl. rewrite Hrow.
        apply list_eq. intros c'. rewrite list_lookup_fmap.
        destruct (decide (c' = c)) as [->|Hcne].
        -- rewrite list_lookup_insert_eq by (by rewrite length_fmap, length_seq).
           rewrite lookup_seq_lt by done. simpl. unfold upd. by rewrite decide_True.
        -- rewrite list_lookup_insert_ne by done. rewrite list_lookup_fmap.
           destruct (seq 0 size.2 !! c') as [c''|] eqn:Hc'; [|done].
           simpl. apply lookup_seq in Hc' as [-> _]. unfold upd.
           rewrite decide_False; [done|]. intros [= ?]. done.
      * rewrite lookup_insert_ne by done.
        pose proof (f_equal (.!! r') Hread) as Hr''. simpl in Hr''.
        unfold read_plate in Hr''.
        rewrite list_lookup_fmap, Hl', tabulate_lookup in Hr'' by done.
        injection Hr'' as Hr''. unfold deref in Hr''. rewrite Hr''.
        apply list_fmap_ext. intros ? c' _. unfold upd.
        rewrite decide_False; [done|]. intros [= -> ->].
        apply Hne. rewrite Hl in Hl'. by injection Hl'.
    + rewrite (lookup_ge_None_2 plate) by lia.
      rewrite (lookup_ge_None_2 (tabulate _ _)); [done|]. rewrite tabulate_length. lia.
  - intros l' Hnin. simpl. rewrite lookup_insert_ne; [done|].
    intros ->. apply Hnin. by eapply list_elem_of_lookup_2.
Qed.

Lemma assign_spec (objs : loc) (plate : list loc) (size : nat * nat)
    (ps : list (nat * nat)) :
  ∀ (i : nat) (f : nat * nat → string) (s : state rng),
  NoDup plate →
  objs ∉ plate →
  read_plate (heap s) plate = tabulate size f →
  Forall (λ p, p.1 < size.1 ∧ p.2 < size.2) ps →
  ∃ h',
    assign objs plate ps i s
    = ({| env := env s; heap := h'; rand := rand s |}, inr tt)
    ∧ read_plate h' plate
      = tabulate size (assign_fn (drop i (deref (heap s) objs)) ps f)
    ∧ (∀ l, l ∉ plate → h' !! l = heap s !! l).
Proof.
  induction ps as [|[r c] ps IH]; intros i f s Hnd Hobjs Hread Hps.
  - exists (heap s). destruct s. simpl. split; [done|]. split; [|done].
    simpl in Hread. rewrite Hread. by destruct (drop i _).
  - apply Forall_cons in Hps as [[Hr Hc] Hps]. simpl in Hr, Hc.
    cbn [assign].
    destruct (deref (heap s) objs !! i) as [obj|] eqn:Hi.
    + destruct (setitem2_spec plate size f r c obj s) as (h1 & Hset & Hread1 & Hframe1);
        [done..|].
      unfold bind. rewrite Hset.
      set (s1 := {| env := env s; heap := h1; rand := rand s |}).
      destruct (IH (S i) (upd f (r, c) obj) s1) as (h2 & Hrun & Hread2 & Hframe2);
        [done..|].
      assert (Hsame : deref h1 objs = deref (heap s) objs).
      { unfold deref. by rewrite Hframe1. }
      exists h2. split; [done|]. split.
      * rewrite Hread2. simpl. rewrite Hsame.
        by rewrite (drop_S _ _ _ Hi).
      * intros l Hl. rewrite Hframe2 by done. simpl. by apply Hframe1.
    + exists (heap s). destruct s. simpl. split; [done|]. split; [|done].
      simpl in *. rewrite Hread. apply lookup_ge_None_1 in Hi.
      by rewrite drop_ge.
Qed.




Section Bounded.
Hypothesis randbelow_lt : ∀ n g, 0 < n → (randbelow n g).1 < n.

Lemma shuffle_run_perm {A} (i : nat) (x : list A) (g : rng) :
  i < length x ∨ i = 0 →
  ∃ x', (shuffle_run randbelow i x g).2 = inr x' ∧ x' ≡ₚ x.
Proof.
  revert x g. induction i as [|i IH]; intros x g Hi.
  - by exists x.
  - cbn [shuffle_run]. pose proof (randbelow_lt (S (S i)) g ltac:(lia)) as Hj.
    destruct (randbelow (S (S i)) g) as [j g']. simpl in Hj.
    destruct (swap_ok x (S i) j) as (x' & Hsw & Hlen); [lia..|].
    rewrite Hsw. destruct (IH x' g') as (x'' & Hrun & Hperm); [lia|].
    exists x''. split; [done|]. rewrite Hperm. by eapply swap_perm.
Qed.


(** [generate_plate] on a state in which [objects] is a list object: it
    returns, draws from the generator what the shuffle draws, allocates the
    rows of the plate and touches no other object, and the plate holds the
    labels [final_labels]. *)
Lemma generate_plate_spec (s : state rng) (objs : list string) :
  let size := g_plate_size (env s) in
  let pos_L := g_position_L (env s) in
  let ps := positions size pos_L in
  heap s !! g_objects (env s) = Some objs →
  pos_L.1 < size.1 → pos_L.2 < size.2 →
  ∃ plate h' shuffled,
    generate_plate randbelow s
    = ({| env := env s; heap := h';
          rand := (shuffle_run randbelow (length ps - 1) ps (rand s)).1 |}, inr plate)
    ∧ (shuffle_run randbelow (length ps - 1) ps (rand s)).2 = inr shuffled
    ∧ shuffled ≡ₚ ps
    ∧ length plate = size.1
    ∧ NoDup plate
    ∧ (∀ l, l ∈ plate → heap s !! l = None)
    ∧ (∀ l, l ∉ plate → h' !! l = heap s !! l)
    ∧ read_plate h' plate = tabulate size (final_labels objs size pos_L shuffled).
Proof.
  intros size pos_L ps Hobjs Hr Hc. unfold generate_plate.
  destruct (new_plate_spec size.1 size.2 s)
    as (plate & h1 & Hnew & Hlen & Hnd & Hfresh & Hframe1 & Hread1).
  fold size pos_L. unfold bind at 1. rewrite Hnew.
  rewrite tabulate_replicate in Hread1.
  set (s1 := {| env := env s; heap := h1; rand := rand s |}).
  destruct (setitem2_spec plate size (λ _, EmptyString) pos_L.1 pos_L.2 "L" s1)
    as (h2 & Hset & Hread2 & Hframe2); [done..|].
  unfold bind at 1. rewrite Hset.
  set (s2 := {| env := env s1; heap := h2; rand := rand s1 |}).
  unfold bind at 1, shuffle. rewrite shuffle_from_run. fold ps.
  destruct (shuffle_run_perm (length ps - 1) ps (rand s2)) as (shuffled & Hsh & Hperm).
  { destruct ps; simpl; lia. }
  simpl in Hsh. simpl. rewrite Hsh.
  set (s3 := {| env := env s; heap := h2;
                rand := (shuffle_run randbelow (length ps - 1) ps (rand s)).1 |}).
  assert (Hobjs_nin : g_objects (env s) ∉ plate).
  { intros Hin. apply Hfresh in Hin. by rewrite Hobjs in Hin. }
  destruct (assign_spec (g_objects (env s)) plate size shuffled 0
              (upd (λ _, EmptyString) pos_L "L") s3)
    as (h3 & Hasg & Hread3 & Hframe3); [done|done|by destruct pos_L| |].
  { rewrite Forall_forall. intros p Hp. rewrite Hperm in Hp.
    apply positions_spec in Hp. tauto. }
  unfold bind. rewrite Hasg. simpl.
  exists plate, h3, shuffled. split; [done|]. split; [done|]. split; [done|].
  split; [done|]. split; [done|]. split; [done|]. split.
  - intros l Hl. rewrite Hframe3, Hframe2, Hframe1 by done. done.
  - rewrite Hread3. simpl. unfold final_labels. do 2 f_equal.
    unfold deref. rewrite Hframe2, Hframe1 by done. by rewrite Hobjs.
Qed.

(** [generate_plate] returns for a list [objects] of any length: it pairs the
    labels with the shuffled positions as far as both go. *)
Lemma generate_plate_others (s : state rng) (objs : list string) :
  let size := g_plate_size (env s) in
  let pos_L := g_position_L (env s) in
  heap s !! g_objects (env s) = Some objs →
  pos_L.1 < size.1 → pos_L.2 < size.2 →
  ∃ plate s' F,
    generate_plate randbelow s = (s', inr plate)
    ∧ read_plate (heap s') plate = tabulate size F
    ∧ F pos_L = "L"
    ∧ (∀ p, p.1 < size.1 → p.2 < size.2 → p ≠ pos_L →
            F p ∈ take (size.1 * size.2 - 1) objs
                  ++ replicate (size.1 * size.2 - 1 - length objs) EmptyString)
    ∧ others (tabulate size F) size pos_L
      ≡ₚ take (size.1 * size.2 - 1) objs
         ++ replicate (size.1 * size.2 - 1 - length objs) EmptyString.
Proof.
  intros size pos_L Hobjs Hr Hc.
  destruct (generate_plate_spec s objs Hobjs Hr Hc)
    as (plate & h' & shuffled & Hrun & _ & Hperm & _ & _ & _ & _ & Hread).
  fold size pos_L in Hrun, Hperm, Hread.
  eexists plate, _, (final_labels objs size pos_L shuffled).
  split; [exact Hrun|]. split; [done|].
  split; [by apply final_labels_pinned|].
  split; [by intros; apply final_labels_elem|by apply final_labels_others].
Qed.

End Bounded.
End TrayFacts.

(** ** The properties of the tray scripts *)

Lemma lcg_randbelow_lt (n : nat) (g : N) : 0 < n → (lcg_randbelow n g).1 < n.
Proof.
  intros Hn. unfold lcg_randbelow. simpl.
  assert (g / 65536 mod N.of_nat n < N.of_nat n)%N by (apply N.mod_lt; lia).
  lia.
Qed.

(** C1. On a plate of any size with the pinned position inside it, as many
    labels in [objects] as there are other cells, and none of them the label
    ['L'] of the logger, [generate_plate] returns a grid of that size; the
    label ['L'] is at the pinned position and nowhere else; the other cells,
    taken together, hold exactly the labels of [objects], each as often as
    [objects] has it, so that a cell holds the empty string of the
    initial plate only if that is one of the labels. *)
Theorem generate_plate_fills_tray {rng : Type} (randbelow : nat → rng → nat * rng)
    (s : state rng) (objs : list string) :
  (∀ n g, 0 < n → (randbelow n g).1 < n) →
  heap s !! g_objects (env s) = Some objs →
  (g_position_L (env s)).1 < (g_plate_size (env s)).1 →
  (g_position_L (env s)).2 < (g_plate_size (env s)).2 →
  length objs = (g_plate_size (env s)).1 * (g_plate_size (env s)).2 - 1 →
  "L" ∉ objs →
  ∃ plate s',
    generate_plate randbelow s = (s', inr plate)
    ∧ length (read_plate (heap s') plate) = (g_plate_size (env s)).1
    ∧ Forall (λ row, length row = (g_plate_size (env s)).2) (read_plate (heap s') plate)
    ∧ (∀ p, cell (read_plate (heap s') plate) p = Some "L" ↔ p = g_position_L (env s))
    ∧ others (read_plate (heap s') plate) (g_plate_size (env s)) (g_position_L (env s))
      ≡ₚ objs
    ∧ (EmptyString ∈ mjoin (read_plate (heap s') plate) → EmptyString ∈ objs).
Proof.
  intros Hlt Hobjs Hr Hc Hlen HL.
  destruct (generate_plate_others randbelow Hlt s objs Hobjs Hr Hc)
    as (plate & s' & F & Hrun & Hread & HFL & HF & Hoth).
  rewrite <- Hlen, Nat.sub_diag, firstn_all in HF, Hoth. simpl in HF, Hoth.
  rewrite app_nil_r in Hoth. setoid_rewrite app_nil_r in HF.
  exists plate, s'. rewrite Hread. split; [done|].
  split; [apply tabulate_length|]. split; [apply tabulate_shape|].
  split; [|split; [done|]].
  - intros p. rewrite tabulate_cell. split.
    + intros (Hpr & Hpc & HLp).
      destruct (decide (p = g_position_L (env s))) as [|Hne]; [done|].
      destruct HL. rewrite HLp. by apply HF.
    + intros ->. by rewrite HFL.
  - rewrite join_tabulate. intros (p & HFp & Hp)%list_elem_of_fmap.
    apply all_positions_spec in Hp as [Hpr Hpc].
    destruct (decide (p = g_position_L (env s))) as [->|Hne].
    + by rewrite HFL in HFp.
    + rewrite HFp. by apply HF.
Qed.

(** C1 on the plate of [random_tray_configs.py]: 4 rows of 6 cells, the logger
    at (2, 2), the 23 labels of [objects]. *)
Lemma generate_plate_fills_tray_witness :
  ∃ plate s',
    generate_plate lcg_randbelow (random_tray_configs.init 69%N) = (s', inr plate)
    ∧ length (read_plate (heap s') plate) = 4
    ∧ Forall (λ row, length row = 6) (read_plate (heap s') plate)
    ∧ (∀ p, cell (read_plate (heap s') plate) p = Some "L" ↔ p = (2, 2))
    ∧ others (read_plate (heap s') plate) (4, 6) (2, 2) ≡ₚ random_tray_configs.objects
    ∧ (EmptyString ∈ mjoin (read_plate (heap s') plate)
       → EmptyString ∈ random_tray_configs.objects).
Proof.
  apply (generate_plate_fills_tray lcg_randbelow (random_tray_configs.init 69%N)
           random_tray_configs.objects).
  - exact lcg_randbelow_lt.
  - reflexivity.
  - simpl; lia.
  - simpl; lia.
  - reflexivity.
  - apply (bool_decide_unpack _). vm_compute. exact I.
Defined.

(** C5, as the code has it: [generate_plate] checks no length. On a list
    [objects] of any length it returns a grid: the labels go to the shuffled
    positions pairwise, as far as both go, so that the cells other than the
    pinned one hold the first [rows * cols - 1] labels and, where the labels
    run out, the empty string of the initial plate. *)
Theorem generate_plate_any_length {rng : Type} (randbelow : nat → rng → nat * rng)
    (s : state rng) (objs : list string) :
  (∀ n g, 0 < n → (randbelow n g).1 < n) →
  heap s !! g_objects (env s) = Some objs →
  (g_position_L (env s)).1 < (g_plate_size (env s)).1 →
  (g_position_L (env s)).2 < (g_plate_size (env s)).2 →
  ∃ plate s',
    generate_plate randbelow s = (s', inr plate)
    ∧ cell (read_plate (heap s') plate) (g_position_L (env s)) = Some "L"
    ∧ others (read_plate (heap s') plate) (g_plate_size (env s)) (g_position_L (env s))
      ≡ₚ take ((g_plate_size (env s)).1 * (g_plate_size (env s)).2 - 1) objs
         ++ replicate ((g_plate_size (env s)).1 * (g_plate_size (env s)).2 - 1
                       - length objs) EmptyString.
Proof.
  intros Hlt Hobjs Hr Hc.
  destruct (generate_plate_others randbelow Hlt s objs Hobjs Hr Hc)
    as (plate & s' & F & Hrun & Hread & HFL & HF & Hoth).
  exists plate, s'. rewrite Hread. split; [done|]. split; [|done].
  apply tabulate_cell. by rewrite HFL.
Qed.

(** C5 with 22 labels on the plate of 4 rows of 6 cells. *)
Lemma generate_plate_any_length_witness :
  ∃ plate s',
    generate_plate lcg_randbelow
      (script_state (drop 1 random_tray_configs.objects) (4, 6) (2, 2) 69%N) = (s', inr plate)
    ∧ cell (read_plate (heap s') plate) (2, 2) = Some "L"
    ∧ others (read_plate (heap s') plate) (4, 6) (2, 2)
      ≡ₚ drop 1 random_tray_configs.objects ++ [EmptyString].
Proof.
  apply (generate_plate_any_length lcg_randbelow
           (script_state (drop 1 random_tray_configs.objects) (4, 6) (2, 2) 69%N)
           (drop 1 random_tray_configs.objects)).
  - exact lcg_randbelow_lt.
  - reflexivity.
  - simpl; lia.
  - simpl; lia.
Defined.

(** C5 as stated fails: with 22 labels for the 23 free cells of the plate the
    call raises nothing; it returns a plate, one cell of which is left with the
    empty string. *)
Lemma generate_plate_short_objects_returns :
  ∃ plate s',
    generate_plate lcg_randbelow
      (script_state (drop 1 random_tray_configs.objects) (4, 6) (2, 2) 69%N) = (s', inr plate)
    ∧ EmptyString ∈ mjoin (read_plate (heap s') plate).
Proof.
  eexists _, _. split; [vm_compute; reflexivity|].
  apply (bool_decide_unpack _). vm_compute. exact I.
Qed.

(** C8. From the same generator state the two scripts return the same grid up
    to the renaming of ['E'] to ['C'], and leave the generator in the same
    state. *)
Theorem generate_plate_variants_agree {rng : Type} (randbelow : nat → rng → nat * rng)
    (g : rng) :
  (∀ n g, 0 < n → (randbelow n g).1 < n) →
  ∃ plate_E s_E plate_C s_C,
    generate_plate randbelow (random_tray_configs_dash.init g) = (s_E, inr plate_E)
    ∧ generate_plate randbelow (random_tray_configs.init g) = (s_C, inr plate_C)
    ∧ (λ row : list string, rename_E_to_C <$> row) <$> read_plate (heap s_E) plate_E
      = read_plate (heap s_C) plate_C
    ∧ rand s_E = rand s_C.
Proof.
  intros Hlt.
  destruct (generate_plate_spec randbelow Hlt (random_tray_configs_dash.init g)
              random_tray_configs_dash.objects)
    as (pE & hE & shE & HrunE & HshE & _ & _ & _ & _ & _ & HreadE);
    [reflexivity|simpl; lia|simpl; lia|].
  destruct (generate_plate_spec randbelow Hlt (random_tray_configs.init g)
              random_tray_configs.objects)
    as (pC & hC & shC & HrunC & HshC & _ & _ & _ & _ & _ & HreadC);
    [reflexivity|simpl; lia|simpl; lia|].
  assert (Hsh : inr shE = inr shC :> pyexn + list (nat * nat)).
  { rewrite <- HshE, <- HshC. reflexivity. }
  injection Hsh as <-.
  eexists pE, _, pC, _. split; [exact HrunE|]. split; [exact HrunC|].
  split; [|reflexivity]. cbn [heap]. rewrite HreadE, HreadC, tabulate_fmap.
  apply tabulate_ext. intros p. cbn [compose].
  by rewrite final_labels_fmap.
Qed.

Lemma generate_plate_variants_agree_witness :
  ∃ plate_E s_E plate_C s_C,
    generate_plate lcg_randbelow (random_tray_configs_dash.init 69%N) = (s_E, inr plate_E)
    ∧ generate_plate lcg_randbelow (random_tray_configs.init 69%N) = (s_C, inr plate_C)
    ∧ (λ row : list string, rename_E_to_C <$> row) <$> read_plate (heap s_E) plate_E
      = read_plate (heap s_C) plate_C
    ∧ rand s_E = rand s_C.
Proof.
  apply (generate_plate_variants_agree lcg_randbelow 69%N). exact lcg_randbelow_lt.
Defined.

(** C4. Two runs of [random.seed(k)] and [generate_plate()], from states that
    agree on the module-level names and on the labels of [objects], in this
    order, and differ in anything else (the earlier history of the generator,
    the other objects), return the same grid and leave the generator in the
    same state. *)
Theorem seeded_generate_plate_deterministic {rng : Type}
    (randbelow : nat → rng → nat * rng) (seed : Z → rng) (k : Z)
    (s1 s2 : state rng) (objs : list string) :
  (∀ n g, 0 < n → (randbelow n g).1 < n) →
  env s1 = env s2 →
  heap s1 !! g_objects (env s1) = Some objs →
  heap s2 !! g_objects (env s2) = Some objs →
  (g_position_L (env s1)).1 < (g_plate_size (env s1)).1 →
  (g_position_L (env s1)).2 < (g_plate_size (env s1)).2 →
  ∃ plate1 s1' plate2 s2',
    seeded_generate_plate randbelow seed k s1 = (s1', inr plate1)
    ∧ seeded_generate_plate randbelow seed k s2 = (s2', inr plate2)
    ∧ read_plate (heap s1') plate1 = read_plate (heap s2') plate2
    ∧ rand s1' = rand s2'.
Proof.
  intros Hlt Henv Hobjs1 Hobjs2 Hr Hc.
  unfold seeded_generate_plate, bind, reseed.
  set (t1 := {| env := env s1; heap := heap s1; rand := seed k |}).
  set (t2 := {| env := env s2; heap := heap s2; rand := seed k |}).
  destruct (generate_plate_spec randbelow Hlt t1 objs)
    as (p1 & h1 & sh1 & Hrun1 & Hsh1 & _ & _ & _ & _ & _ & Hread1); [done..|].
  destruct (generate_plate_spec randbelow Hlt t2 objs)
    as (p2 & h2 & sh2 & Hrun2 & Hsh2 & _ & _ & _ & _ & _ & Hread2);
    [done|simpl; by rewrite <- Henv..|].
  simpl in *. rewrite <- Henv in *. rewrite Hsh1 in Hsh2. injection Hsh2 as <-.
  eexists p1, _, p2, _. split; [exact Hrun1|]. split; [exact Hrun2|].
  split; [|done]. simpl. by rewrite Hread1, Hread2.
Qed.

(** C4 on the plate of [random_tray_configs.py], from a fresh state and from a
    state in which another list object exists and the generator has been used. *)
Lemma seeded_generate_plate_deterministic_witness :
  ∃ plate1 s1' plate2 s2',
    seeded_generate_plate lcg_randbelow Z.to_N 69 (random_tray_configs.init 0%N)
    = (s1', inr plate1)
    ∧ seeded_generate_plate lcg_randbelow Z.to_N 69
        {| env := env (random_tray_configs.init 0%N);
           heap := <[5%positive := ["x"]]> (heap (random_tray_configs.init 0%N));
           rand := 12345%N |}
      = (s2', inr plate2)
    ∧ read_plate (heap s1') plate1 = read_plate (heap s2') plate2
    ∧ rand s1' = rand s2'.
Proof.
  apply (seeded_generate_plate_deterministic lcg_randbelow Z.to_N 69
           (random_tray_configs.init 0%N) _ random_tray_configs.objects).
  - exact lcg_randbelow_lt.
  - reflexivity.
  - reflexivity.
  - reflexivity.
  - simpl; lia.
  - simpl; lia.
Defined.



(** ** Binary64 rounding *)

Section FloatFacts.
Local Open Scope Z_scope.
Local Open Scope Q_scope.

Lemma bpow_pos (e : Z) : 0 < bpow e.
Proof. apply Qpower_0_lt. reflexivity. Qed.

Lemma bpow_add (a b : Z) : bpow (a + b) == bpow a * bpow b.
Proof. apply Qpower_plus. discriminate. Qed.

Lemma bpow_succ (e : Z) : bpow (e + 1) == 2 * bpow e.
Proof. rewrite bpow_add. unfold bpow at 2. simpl. lra. Qed.

Lemma bpow_le (a b : Z) : (a <= b)%Z → bpow a <= bpow b.
Proof. intros H. apply Qpower_le_compat_l; [done|]. discriminate. Qed.

Lemma bpow_lt (a b : Z) : (a < b)%Z → bpow a < bpow b.
Proof. intros H. apply Qpower_lt_compat_l; [done|]. reflexivity. Qed.

Lemma bpow_lt_inv (a b : Z) : bpow a < bpow b → (a < b)%Z.
Proof.
  intros H. destruct (Z_lt_le_dec a b) as [|Hle]; [done|].
  apply bpow_le in Hle. lra.
Qed.

Lemma bpow_Z (e : Z) : (0 <= e)%Z → bpow e == inject_Z (2 ^ e).
Proof. intros H. unfold bpow. by rewrite Zpower_Qpower. Qed.

Lemma bpow_opp (e : Z) : bpow e * bpow (- e) == 1.
Proof. rewrite <- bpow_add, Z.add_opp_diag_r. reflexivity. Qed.

Lemma digits2_pos_spec (m : positive) :
  (2 ^ (Zpos (digits2_pos m) - 1) <= Zpos m < 2 ^ Zpos (digits2_pos m))%Z.
Proof.
  induction m as [m IH|m IH|]; cbn [digits2_pos]; [| |simpl; lia].
  - rewrite Pos2Z.inj_succ.
    replace (Z.succ (Zpos (digits2_pos m)) - 1)%Z
      with (Z.succ (Zpos (digits2_pos m) - 1)) by lia.
    rewrite !Z.pow_succ_r by lia. lia.
  - rewrite Pos2Z.inj_succ.
    replace (Z.succ (Zpos (digits2_pos m)) - 1)%Z
      with (Z.succ (Zpos (digits2_pos m) - 1)) by lia.
    rewrite !Z.pow_succ_r by lia. lia.
Qed.

Lemma shr_1_eq (m : Z) (r s : bool) :
  (0 <= m)%Z →
  shr_1 {| shr_m := m; shr_r := r; shr_s := s |}
  = {| shr_m := m / 2; shr_r := Z.odd m; shr_s := r || s |}.
Proof.
  intros Hm. destruct m as [|[p|p|]|]; try lia; cbn [shr_1]; f_equal.
  - apply Z.div_unique with (r := 1%Z); lia.
  - apply Z.div_unique with (r := 0%Z); lia.
Qed.

Lemma inject_Z_half (m : Z) :
  inject_Z m == 2 * inject_Z (m / 2) + (if Z.odd m then 1 else 0).
Proof.
  rewrite (Z.div_mod m 2) at 1 by lia. rewrite Zmod_odd.
  rewrite inject_Z_plus, inject_Z_mult. by destruct (Z.odd m).
Qed.

Lemma shr_1_inv (mrs : shr_record) (y : Q) :
  (0 <= shr_m mrs)%Z →
  loc_inv (shr_m mrs) (loc_of_shr_record mrs) y →
  loc_inv (shr_m (shr_1 mrs)) (loc_of_shr_record (shr_1 mrs)) (y * (1 # 2))
  ∧ shr_m (shr_1 mrs) = (shr_m mrs / 2)%Z.
Proof.
  destruct mrs as [m r s]. cbn [shr_m]. intros Hm Hinv.
  rewrite shr_1_eq by done. cbn [shr_m]. split; [|done].
  pose proof (inject_Z_half m) as Hhalf.
  destruct (Z.odd m), r, s; cbn [loc_of_shr_record orb loc_inv] in *; lra.
Qed.

Lemma iter_pos_shr_1 (p : positive) :
  ∀ (mrs : shr_record) (y : Q),
  (0 <= shr_m mrs)%Z →
  loc_inv (shr_m mrs) (loc_of_shr_record mrs) y →
  loc_inv (shr_m (SpecFloat.iter_pos shr_1 p mrs)) (loc_of_shr_record (SpecFloat.iter_pos shr_1 p mrs))
    (y * bpow (- Zpos p))
  ∧ (0 <= shr_m (SpecFloat.iter_pos shr_1 p mrs))%Z.
Proof.
  assert (Hstep : ∀ mrs y, (0 <= shr_m mrs)%Z →
            loc_inv (shr_m mrs) (loc_of_shr_record mrs) y →
            loc_inv (shr_m (shr_1 mrs)) (loc_of_shr_record (shr_1 mrs)) (y * bpow (-1))
            ∧ (0 <= shr_m (shr_1 mrs))%Z).
  { intros mrs y Hm Hinv. destruct (shr_1_inv mrs y Hm Hinv) as [H1 H2].
    split; [exact H1|]. rewrite H2. by apply Z.div_pos. }
  assert (Hcomp : ∀ m l y y', y == y' → loc_inv m l y → loc_inv m l y').
  { intros m l y y' Hy. destruct l as [|[]]; simpl; rewrite Hy; done. }
  induction p as [p IH|p IH|]; intros mrs y Hm Hinv; cbn [SpecFloat.iter_pos].
  - destruct (Hstep mrs y Hm Hinv) as [H1 H1'].
    destruct (IH _ _ H1' H1) as [H2 H2'].
    destruct (IH _ _ H2' H2) as [H3 H3'].
    split; [|done]. eapply Hcomp; [|exact H3].
    replace (- Z.pos p~1)%Z with (-1 + - Z.pos p + - Z.pos p)%Z by lia.
    rewrite !bpow_add. ring.
  - destruct (IH _ _ Hm Hinv) as [H2 H2'].
    destruct (IH _ _ H2' H2) as [H3 H3'].
    split; [|done]. eapply Hcomp; [|exact H3].
    replace (- Z.pos p~0)%Z with (- Z.pos p + - Z.pos p)%Z by lia.
    rewrite !bpow_add. ring.
  - by apply Hstep.
Qed.

Lemma loc_inv_bounds (m : Z) (l : location) (y : Q) :
  loc_inv m l y → inject_Z m <= y ∧ y < inject_Z m + 1.
Proof. destruct l as [|[]]; simpl; lra. Qed.

Lemma loc_inv_comp (m : Z) (l : location) (y y' : Q) :
  y == y' → loc_inv m l y → loc_inv m l y'.
Proof. intros Hy. destruct l as [|[]]; simpl; rewrite Hy; done. Qed.

Lemma loc_of_shr_record_of_loc (m : Z) (l : location) :
  loc_of_shr_record (shr_record_of_loc m l) = l
  ∧ shr_m (shr_record_of_loc m l) = m.
Proof. by destruct l as [|[]]. Qed.

Lemma scale_le (a b : Q) (e : Z) : a <= b → a * bpow e <= b * bpow e.
Proof. intros H. apply Qmult_le_compat_r; [done|]. apply Qlt_le_weak, bpow_pos. Qed.

Lemma scale_lt (a b : Q) (e : Z) : a < b → a * bpow e < b * bpow e.
Proof. intros H. apply Qmult_lt_compat_r; [apply bpow_pos|done]. Qed.

Lemma unscale (x : Q) (e : Z) : x * bpow (- e) * bpow e == x.
Proof. rewrite <- Qmult_assoc, (Qmult_comm (bpow (- e))), bpow_opp. ring. Qed.

Lemma shr_inv (x : Q) (mrs : shr_record) (e n : Z) :
  (0 <= shr_m mrs)%Z →
  loc_inv (shr_m mrs) (loc_of_shr_record mrs) (x * bpow (- e)) →
  loc_inv (shr_m (shr mrs e n).1) (loc_of_shr_record (shr mrs e n).1)
    (x * bpow (- (shr mrs e n).2))
  ∧ (0 <= shr_m (shr mrs e n).1)%Z
  ∧ (shr mrs e n).2 = Z.max e (e + n).
Proof.
  intros Hm Hinv. destruct n as [|p|p]; cbn [shr fst snd].
  - split; [done|]. split; [done|lia].
  - destruct (iter_pos_shr_1 p mrs _ Hm Hinv) as [H1 H2].
    split; [|split; [done|lia]].
    eapply loc_inv_comp; [|exact H1].
    replace (- (e + Z.pos p))%Z with (- e + - Z.pos p)%Z by lia.
    rewrite bpow_add. ring.
  - split; [done|]. split; [done|lia].
Qed.

Lemma emin_eq : emin prec emax = (-1074)%Z.
Proof. reflexivity. Qed.

Lemma fexp_eq (e : Z) : fexp prec emax e = Z.max (e - 53) (-1074).
Proof. reflexivity. Qed.

Lemma Zdigits2_spec (m : Z) :
  (0 < m)%Z → (2 ^ (Zdigits2 m - 1) <= m < 2 ^ Zdigits2 m)%Z ∧ (0 < Zdigits2 m)%Z.
Proof.
  destruct m as [|p|p]; try lia. intros _. split; [apply digits2_pos_spec|].
  simpl. lia.
Qed.

(** The value of a mantissa of [d] digits at exponent [e] lies in the binade
    below [2 ^ (d + e)]. *)
Lemma binade_of_digits (x : Q) (m e : Z) (l : location) :
  (0 < m)%Z →
  loc_inv m l (x * bpow (- e)) →
  bpow (Zdigits2 m - 1 + e) <= x ∧ x < bpow (Zdigits2 m + e).
Proof.
  intros Hm Hinv. destruct (Zdigits2_spec m Hm) as [[Hlo Hhi] Hd].
  apply loc_inv_bounds in Hinv as [Hylo Hyhi].
  assert (Hlo' : bpow (Zdigits2 m - 1) <= inject_Z m).
  { rewrite bpow_Z by lia. by rewrite <- Zle_Qle. }
  assert (Hhi' : inject_Z m + 1 <= bpow (Zdigits2 m)).
  { rewrite bpow_Z by lia. change 1 with (inject_Z 1).
    rewrite <- inject_Z_plus, <- Zle_Qle. lia. }
  rewrite !bpow_add. pose proof (unscale x e) as Hx. split.
  - apply Qle_trans with (x * bpow (- e) * bpow e); [apply scale_le; lra|lra].
  - apply Qle_lt_trans with (x * bpow (- e) * bpow e); [lra|apply scale_lt; lra].
Qed.

Lemma shr_fexp_CT (x : Q) (mz ez : Z) (lz : location) :
  (0 <= mz)%Z →
  loc_inv mz lz (x * bpow (- ez)) →
  ((ez <= emin prec emax)%Z ∨ bpow (ez + prec - 1) <= x) →
  CT x (shr_m (shr_fexp prec emax mz ez lz).1) (shr_fexp prec emax mz ez lz).2
    (loc_of_shr_record (shr_fexp prec emax mz ez lz).1).
Proof.
  intros Hmz Hinv Hez. unfold shr_fexp.
  destruct (loc_of_shr_record_of_loc mz lz) as [Hl Hm].
  destruct (shr_inv x (shr_record_of_loc mz lz) ez
              (fexp prec emax (Zdigits2 mz + ez) - ez)) as (H1 & H2 & H3).
  { rewrite Hm. done. }
  { by rewrite Hl, Hm. }
  unfold CT. rewrite H3. split; [by rewrite H3 in H1|]. split; [done|].
  rewrite fexp_eq, emin_eq in *. unfold prec in *.
  destruct (Z_lt_le_dec 0 mz) as [Hpos|Hzero].
  - destruct (binade_of_digits x mz ez lz Hpos Hinv) as [Hlo Hhi].
    destruct (Zdigits2_spec mz Hpos) as [_ Hd].
    split; [lia|]. split.
    + eapply Qlt_le_trans; [exact Hhi|]. apply bpow_le. lia.
    + destruct (Z_le_gt_dec (Zdigits2 mz + ez - 53) (-1074)) as [Hsub|Hnorm].
      * destruct Hez as [Hez|Hez]; [left; lia|].
        destruct (Z_le_gt_dec ez (-1074)); [left; lia|]. right.
        replace (Z.max _ _) with ez by lia. done.
      * destruct Hez as [Hez|Hez].
        -- right. eapply Qle_trans; [|exact Hlo]. apply bpow_le. lia.
        -- destruct (Z_le_gt_dec (Zdigits2 mz + ez - 53) ez).
           ++ right. replace (Z.max _ _) with ez by lia. done.
           ++ right. eapply Qle_trans; [|exact Hlo]. apply bpow_le. lia.
  - assert (mz = 0%Z) as -> by lia. simpl Zdigits2 in *.
    apply loc_inv_bounds in Hinv as [Hylo Hyhi].
    assert (Hx : x < bpow ez).
    { pose proof (unscale x ez) as Hx'.
      apply Qle_lt_trans with (x * bpow (- ez) * bpow ez); [lra|].
      apply Qlt_le_trans with (1 * bpow ez); [|lra].
      apply scale_lt. change (inject_Z 0) with 0 in Hyhi. lra. }
    assert (Hsub : (ez <= -1074)%Z).
    { destruct Hez as [Hez|Hez]; [done|].
      assert (bpow (ez + 53 - 1) < bpow ez) by lra.
      apply bpow_lt_inv in H. lia. }
    split; [lia|]. split.
    + eapply Qlt_le_trans; [exact Hx|]. apply bpow_le. lia.
    + left. lia.
Qed.

Lemma rne_cases (m : Z) (l : location) :
  round_nearest_even m l = m ∨ round_nearest_even m l = (m + 1)%Z.
Proof. destruct l as [|[]]; simpl; auto. destruct (Z.even m); auto. Qed.

Lemma inject_Z_succ_le (a b : Z) : (a < b)%Z → inject_Z a + 1 <= inject_Z b.
Proof.
  intros H. change 1 with (inject_Z 1). rewrite <- inject_Z_plus, <- Zle_Qle. lia.
Qed.

Lemma rne_mono (m m' : Z) (l l' : location) (y y' : Q) :
  loc_inv m l y → loc_inv m' l' y' → y <= y' →
  (round_nearest_even m l <= round_nearest_even m' l')%Z.
Proof.
  intros Hy Hy' Hle.
  destruct (Z.lt_total m m') as [Hlt|[->|Hgt]].
  - destruct (rne_cases m l), (rne_cases m' l'); lia.
  - destruct l as [|[]], l' as [|[]]; simpl in *;
      try destruct (Z.even m'); try lia; lra.
  - apply inject_Z_succ_le in Hgt.
    apply loc_inv_bounds in Hy, Hy'. lra.
Qed.

Lemma bpow_prec : bpow prec == inject_Z (2 ^ prec).
Proof. by apply bpow_Z. Qed.

Lemma bpow_prec_pred : bpow (prec - 1) == inject_Z (2 ^ (prec - 1)).
Proof. by apply bpow_Z. Qed.

Lemma CT_scaled (x : Q) (m e : Z) (l : location) :
  CT x m e l →
  x * bpow (- e) < bpow prec
  ∧ (e ≠ emin prec emax → bpow (prec - 1) <= x * bpow (- e)).
Proof.
  intros (Hinv & Hm & He & Hhi & Hlo). split.
  - apply Qlt_le_trans with (bpow (e + prec) * bpow (- e)); [by apply scale_lt|].
    rewrite <- bpow_add. apply bpow_le. lia.
  - intros Hne. destruct Hlo as [|Hlo]; [done|].
    apply Qle_trans with (bpow (e + prec - 1) * bpow (- e)); [|by apply scale_le].
    rewrite <- bpow_add. apply bpow_le. lia.
Qed.

Lemma CT_mantissa (x : Q) (m e : Z) (l : location) :
  CT x m e l →
  (0 <= m < 2 ^ prec)%Z ∧ (e ≠ emin prec emax → (2 ^ (prec - 1) <= m)%Z).
Proof.
  intros HCT. destruct (CT_scaled x m e l HCT) as [Hhi Hlo].
  destruct HCT as (Hinv & Hm & _). apply loc_inv_bounds in Hinv as [Hylo Hyhi].
  split; [split; [done|]|].
  - rewrite bpow_prec in Hhi. rewrite Zlt_Qlt. lra.
  - intros Hne. specialize (Hlo Hne). rewrite bpow_prec_pred in Hlo.
    assert (inject_Z (2 ^ (prec - 1)) < inject_Z (m + 1)).
    { rewrite inject_Z_plus. change (inject_Z 1) with 1. lra. }
    rewrite <- Zlt_Qlt in H. lia.
Qed.

(** Rounding to nearest, ties to even, is monotone. *)
Lemma CT_mono (x x' : Q) (m m' e e' : Z) (l l' : location) :
  CT x m e l → CT x' m' e' l' → x <= x' →
  inject_Z (round_nearest_even m l) * bpow e
  <= inject_Z (round_nearest_even m' l') * bpow e'.
Proof.
  intros HCT HCT' Hle.
  destruct (CT_mantissa x m e l HCT) as [[_ Hmhi] _].
  destruct (CT_mantissa x' m' e' l' HCT') as [_ Hmlo'].
  pose proof HCT as (Hinv & Hm & He & Hhi & Hlo).
  pose proof HCT' as (Hinv' & Hm' & He' & Hhi' & Hlo').
  destruct (Z.lt_total e e') as [Hlt|[<-|Hgt]].
  - apply Qle_trans with (bpow prec * bpow e).
    + apply scale_le. rewrite bpow_prec. rewrite <- Zle_Qle.
      destruct (rne_cases m l); lia.
    + apply Qle_trans with (bpow (prec - 1) * bpow e').
      * rewrite <- !bpow_add. apply bpow_le. lia.
      * apply scale_le. rewrite bpow_prec_pred. rewrite <- Zle_Qle.
        specialize (Hmlo' ltac:(lia)). destruct (rne_cases m' l'); lia.
  - apply scale_le. rewrite <- Zle_Qle.
    apply (rne_mono m m' l l' _ _ Hinv Hinv'). by apply scale_le.
  - destruct Hlo as [|Hlo]; [lia|].
    assert (bpow (e + prec - 1) < bpow (e' + prec)) by lra.
    apply bpow_lt_inv in H. lia.
Qed.

Lemma rounds_to_mono (x x' v v' : Q) :
  rounds_to x v → rounds_to x' v' → x <= x' → v <= v'.
Proof.
  intros (m & e & l & HCT & ->) (m' & e' & l' & HCT' & ->) Hle.
  by eapply CT_mono.
Qed.

Lemma rounds_to_nonneg (x v : Q) : rounds_to x v → 0 <= v.
Proof.
  intros (m & e & l & HCT & ->). destruct HCT as (_ & Hm & _).
  apply Qmult_le_0_compat; [|apply Qlt_le_weak, bpow_pos].
  change 0 with (inject_Z 0). rewrite <- Zle_Qle.
  destruct (rne_cases m l); lia.
Qed.

Lemma canon_float_CT (m e : Z) :
  canon_float m e → CT (inject_Z m * bpow e) m e loc_Exact.
Proof.
  intros ([Hm Hhi] & He & Hlo). unfold CT.
  pose proof (bpow_opp e) as Hopp.
  split; [simpl; rewrite <- Qmult_assoc, Hopp; ring|].
  split; [done|]. split; [done|]. split.
  - rewrite Z.add_comm, bpow_add. apply scale_lt. rewrite bpow_prec.
    by rewrite <- Zlt_Qlt.
  - destruct Hlo as [|Hlo]; [by left|right].
    replace (e + prec - 1)%Z with (prec - 1 + e)%Z by lia.
    rewrite bpow_add. apply scale_le. rewrite bpow_prec_pred. by rewrite <- Zle_Qle.
Qed.

Lemma rounds_to_exact (m e : Z) :
  canon_float m e → rounds_to (inject_Z m * bpow e) (inject_Z m * bpow e).
Proof. intros H. exists m, e, loc_Exact. split; [by apply canon_float_CT|done]. Qed.

(** The second normalisation of [binary_round_aux]: a mantissa that has
    reached [2 ^ prec] is halved. *)
Lemma second_shr (m e : Z) :
  (0 <= m <= 2 ^ prec)%Z →
  (emin prec emax <= e)%Z →
  (e = emin prec emax ∨ (2 ^ (prec - 1) <= m)%Z) →
  canon_float (shr_m (shr_fexp prec emax m e loc_Exact).1)
    (shr_fexp prec emax m e loc_Exact).2
  ∧ inject_Z (shr_m (shr_fexp prec emax m e loc_Exact).1)
    * bpow (shr_fexp prec emax m e loc_Exact).2
    == inject_Z m * bpow e.
Proof.
  intros [Hm Hhi] He Hlo. unfold shr_fexp. rewrite fexp_eq. rewrite emin_eq in *.
  destruct (Z_lt_le_dec m (2 ^ prec)) as [Hlt|Hge].
  - assert (Hn : (Z.max (Zdigits2 m + e - 53) (-1074) - e <= 0)%Z).
    { destruct (Z_lt_le_dec 0 m) as [Hpos|Hzero].
      - destruct (Zdigits2_spec m Hpos) as [[Hdlo _] Hd].
        assert (2 ^ (Zdigits2 m - 1) < 2 ^ prec)%Z by lia.
        apply Z.pow_lt_mono_r_iff in H; unfold prec in *; lia.
      - assert (m = 0%Z) as -> by lia. simpl. lia. }
    assert (Hshr : shr (shr_record_of_loc m loc_Exact) e
                     (Z.max (Zdigits2 m + e - 53) (-1074) - e)
                   = (shr_record_of_loc m loc_Exact, e)).
    { by destruct (Z.max (Zdigits2 m + e - 53) (-1074) - e)%Z. }
    rewrite Hshr. simpl. split; [|done]. unfold canon_float. rewrite emin_eq. lia.
  - assert (m = 2 ^ prec)%Z as -> by lia.
    change (Zdigits2 (2 ^ prec)) with 54%Z.
    replace (Z.max (54 + e - 53) (-1074) - e)%Z with 1%Z by lia.
    change (2 ^ prec)%Z with 9007199254740992%Z. cbn. split.
    + unfold canon_float. rewrite emin_eq.
      change (2 ^ prec)%Z with 9007199254740992%Z.
      change (2 ^ (prec - 1))%Z with 4503599627370496%Z. lia.
    + rewrite bpow_succ.
      change (inject_Z 9007199254740992) with (2 * inject_Z 4503599627370496).
      ring.
Qed.

(** What [binary_round_aux] returns on a mantissa and location that cut the
    exact value [x] finely enough: the float of value [x] rounded, or the
    infinity when that is [2 ^ emax] or more. *)
Lemma binary_round_aux_spec (s : bool) (x : Q) (mz ez : Z) (lz : location) :
  (0 <= mz)%Z →
  loc_inv mz lz (x * bpow (- ez)) →
  ((ez <= emin prec emax)%Z ∨ bpow (ez + prec - 1) <= x) →
  ∃ v, rounds_to x v ∧ round_result s (binary_round_aux prec emax s mz ez lz) v.
Proof.
  intros Hmz Hinv Hez. pose proof (shr_fexp_CT x mz ez lz Hmz Hinv Hez) as HCT.
  unfold round_result, binary_round_aux.
  destruct (shr_fexp prec emax mz ez lz) as [mrs' e']. cbn [fst snd] in HCT.
  set (mr := round_nearest_even (shr_m mrs') (loc_of_shr_record mrs')).
  exists (inject_Z mr * bpow e'). split; [by eexists _, _, _|].
  destruct (CT_mantissa _ _ _ _ HCT) as [[Hm0 Hmhi] Hmlo].
  destruct HCT as (_ & _ & He' & _).
  assert (Hmr : (shr_m mrs' <= mr <= shr_m mrs' + 1)%Z).
  { unfold mr. destruct (rne_cases (shr_m mrs') (loc_of_shr_record mrs')); lia. }
  destruct (second_shr mr e') as [(Hc1 & Hc2 & Hc3) Hval]; [lia|done| |].
  { destruct (Z.eq_dec e' (emin prec emax)); [by left|right].
    specialize (Hmlo ltac:(done)). lia. }
  destruct (shr_fexp prec emax mr e' loc_Exact) as [mrs'' e'']. cbn [fst snd] in *.
  destruct (shr_m mrs'') as [|p|p] eqn:Hm''; [| |lia].
  - split; [done|]. rewrite <- Hval. change (inject_Z 0) with 0. ring.
  - destruct (Z.leb_spec e'' (emax - prec)) as [Hfin|Hinf].
    + split; [done|]. split; [by rewrite Hval|]. done.
    + split; [done|]. rewrite <- Hval.
      destruct Hc3 as [->|Hc3]; [rewrite emin_eq in Hinf; unfold emax, prec in Hinf; lia|].
      apply Qle_trans with (bpow (prec - 1) * bpow e'').
      * rewrite <- bpow_add. apply bpow_le. lia.
      * apply scale_le. rewrite bpow_prec_pred. by rewrite <- Zle_Qle.
Qed.

Lemma bpow_inv (e : Z) : bpow (- e) == / bpow e.
Proof.
  pose proof (bpow_opp e) as H. pose proof (bpow_pos e) as Hpos.
  apply (Qmult_inj_l _ _ (bpow e)); [lra|]. rewrite Qmult_inv_r by lra. done.
Qed.

Lemma new_location_spec (d r q : Z) (y : Q) :
  (0 <= r < d)%Z →
  y * inject_Z d == inject_Z (q * d + r) →
  loc_inv q (new_location d r) y.
Proof.
  intros Hr Hy. rewrite inject_Z_plus, inject_Z_mult in Hy.
  assert (HD : 0 < inject_Z d).
  { change 0 with (inject_Z 0). rewrite <- Zlt_Qlt. lia. }
  assert (HR : 0 <= inject_Z r).
  { change 0 with (inject_Z 0). rewrite <- Zle_Qle. lia. }
  unfold new_location, new_location_even, new_location_odd.
  destruct (Z.eqb_spec r 0) as [->|Hne].
  { change (inject_Z 0) with 0 in Hy.
    assert (Hloc : loc_inv q loc_Exact y) by (simpl; nra).
    by destruct (Z.even d). }
  pose proof (proj2 (Z.eqb_neq r 0) Hne) as Hneb.
  assert (HR' : 0 < inject_Z r).
  { change 0 with (inject_Z 0). rewrite <- Zlt_Qlt. lia. }
  assert (H2 : inject_Z (2 * r) == 2 * inject_Z r) by (by rewrite inject_Z_mult).
  assert (Hlow : inject_Z q < y) by nra.
  assert (Hup : y < inject_Z q + 1).
  { assert (inject_Z r < inject_Z d) by (rewrite <- Zlt_Qlt; lia). nra. }
  destruct (Z.even d) eqn:Heven.
  - destruct (Z.compare_spec (2 * r) d) as [Heq|Hlt|Hgt]; rewrite Hneb; simpl.
    + assert (inject_Z (2 * r) == inject_Z d) by (by rewrite Heq). nra.
    + assert (inject_Z (2 * r) < inject_Z d) by (by rewrite <- Zlt_Qlt). split; nra.
    + assert (inject_Z d < inject_Z (2 * r)) by (by rewrite <- Zlt_Qlt). split; nra.
  - assert (Hodd : (2 * r ≠ d)%Z).
    { intros <-. rewrite Z.even_mul in Heven. done. }
    destruct (Z.compare_spec (2 * r + 1) d) as [Heq|Hlt|Hgt]; rewrite Hneb; simpl.
    + assert (inject_Z (2 * r) < inject_Z d) by (rewrite <- Zlt_Qlt; lia). split; nra.
    + assert (inject_Z (2 * r) < inject_Z d) by (rewrite <- Zlt_Qlt; lia). split; nra.
    + assert (inject_Z d < inject_Z (2 * r)) by (rewrite <- Zlt_Qlt; lia). split; nra.
Qed.

(** The integer division of [SFdiv] cuts the exact quotient finely enough
    for the rounding. *)
Lemma SFdiv_core_binary_spec (m1 m2 : positive) (e1 e2 : Z) :
  let x := inject_Z (Zpos m1) * bpow e1 / (inject_Z (Zpos m2) * bpow e2) in
  let c := SFdiv_core_binary prec emax (Zpos m1) e1 (Zpos m2) e2 in
  (0 <= c.1.1)%Z
  ∧ loc_inv c.1.1 c.2 (x * bpow (- c.1.2))
  ∧ ((c.1.2 <= emin prec emax)%Z ∨ bpow (c.1.2 + prec - 1) <= x).
Proof.
  intros x c. unfold c, SFdiv_core_binary.
  set (d1 := Zdigits2 (Zpos m1)). set (d2 := Zdigits2 (Zpos m2)).
  rewrite fexp_eq.
  set (e' := Z.min (Z.max (d1 + e1 - (d2 + e2) - 53) (-1074)) (e1 - e2)).
  set (s := (e1 - e2 - e')%Z).
  assert (Hs : (0 <= s)%Z) by (unfold s, e'; lia).
  set (m' := match s with
             | Zpos _ => Z.shiftl (Zpos m1) s
             | Z0 => Zpos m1
             | Zneg _ => 0%Z
             end).
  assert (Hm' : m' = (Zpos m1 * 2 ^ s)%Z).
  { unfold m'. destruct s as [|p|p]; [simpl; lia| |lia].
    by rewrite Z.shiftl_mul_pow2. }
  pose proof (Z_div_mod m' (Zpos m2) ltac:(lia)) as Hdiv.
  destruct (Z.div_eucl m' (Zpos m2)) as [q r]. destruct Hdiv as [Hqr Hr].
  cbn [fst snd].
  pose proof (bpow_pos e1) as Hp1. pose proof (bpow_pos e2) as Hp2.
  assert (HM1 : 0 < inject_Z (Zpos m1)) by (by change 0 with (inject_Z 0); rewrite <- Zlt_Qlt).
  assert (HM2 : 0 < inject_Z (Zpos m2)) by (by change 0 with (inject_Z 0); rewrite <- Zlt_Qlt).
  assert (Hq : (0 <= q)%Z).
  { assert (0 <= m')%Z by (rewrite Hm'; apply Z.mul_nonneg_nonneg; [lia|apply Z.pow_nonneg; lia]).
    nia. }
  split; [done|]. split.
  - apply new_location_spec; [done|].
    replace (q * Zpos m2 + r)%Z with m' by lia. rewrite Hm', inject_Z_mult.
    rewrite <- (bpow_Z s) by done. unfold s.
    replace (e1 - e2 - e')%Z with (e1 + (- e2 + - e'))%Z by lia.
    rewrite !bpow_add, (bpow_inv e2). unfold x. field. lra.
  - destruct (Z_le_gt_dec (d1 + e1 - (d2 + e2) - 53) (-1074)) as [Hsub|Hnorm].
    { left. rewrite emin_eq. unfold e'. lia. }
    right. apply Qle_trans with (bpow (d1 + e1 - (d2 + e2) - 1)).
    { apply bpow_le. unfold e', prec. lia. }
    destruct (Zdigits2_spec (Zpos m1) ltac:(lia)) as [[Hd1 _] Hd1'].
    destruct (Zdigits2_spec (Zpos m2) ltac:(lia)) as [[_ Hd2] Hd2'].
    fold d1 in Hd1, Hd1'. fold d2 in Hd2, Hd2'.
    unfold x. apply Qle_shift_div_l; [nra|].
    apply Qle_trans with (bpow (d1 + e1 - (d2 + e2) - 1) * (bpow d2 * bpow e2)).
    { apply Qmult_le_l; [apply bpow_pos|]. apply Qmult_le_compat_r; [|lra].
      rewrite bpow_Z by lia. rewrite <- Zle_Qle. lia. }
    rewrite <- !bpow_add.
    replace (d1 + e1 - (d2 + e2) - 1 + (d2 + e2))%Z with (d1 - 1 + e1)%Z by lia.
    rewrite bpow_add. apply Qmult_le_compat_r; [|lra].
    rewrite bpow_Z by lia. by rewrite <- Zle_Qle.
Qed.

Lemma shiftl_floor (z e : Z) : Z.shiftl z e = Qfloor (inject_Z z * bpow e).
Proof.
  destruct (Z_le_gt_dec 0 e) as [He|He].
  - rewrite Z.shiftl_mul_pow2 by done.
    rewrite bpow_Z, <- inject_Z_mult by done. by rewrite Qfloor_Z.
  - rewrite <- (Z.opp_involutive e) at 1. rewrite Z.shiftl_opp_r.
    rewrite Z.shiftr_div_pow2 by lia. rewrite Zdiv_Qdiv.
    apply Qfloor_comp. unfold Qdiv. rewrite <- (bpow_Z (- e)) by lia.
    rewrite <- bpow_inv. by rewrite Z.opp_involutive.
Qed.

Lemma SFdiv_finite_spec (sx sy : bool) (mx my : positive) (ex ey : Z) :
  ∃ v, rounds_to (inject_Z (Zpos mx) * bpow ex / (inject_Z (Zpos my) * bpow ey)) v
    ∧ round_result (xorb sx sy)
        (SFdiv prec emax (S754_finite sx mx ex) (S754_finite sy my ey)) v.
Proof.
  cbn [SFdiv].
  pose proof (SFdiv_core_binary_spec mx my ex ey) as (H1 & H2 & H3).
  destruct (SFdiv_core_binary prec emax (Zpos mx) ex (Zpos my) ey) as [[mz ez] lz].
  cbn [fst snd] in *. by apply binary_round_aux_spec.
Qed.

Lemma canon_float_lt_emax (m e : Z) :
  canon_float m e → (e <= emax - prec)%Z → inject_Z m * bpow e < bpow emax.
Proof.
  intros ([_ Hm] & _) He.
  apply Qlt_le_trans with (bpow prec * bpow e).
  - apply scale_lt. rewrite bpow_prec. by rewrite <- Zlt_Qlt.
  - rewrite <- bpow_add. apply bpow_le. lia.
Qed.

Lemma round_result_finite (f : spec_float) (v : Q) :
  round_result false f v →
  (is_finite f = true ↔ v < bpow emax)
  ∧ (is_finite f = true → SF2Q f == v).
Proof.
  pose proof (bpow_pos emax) as Hpos.
  destruct f as [s|s| |s m e]; simpl; [| |done|].
  - intros [-> Hv]. split; [split; [lra|done]|by intros _].
  - intros [-> Hv]. split; [split; [done|lra]|done].
  - intros (-> & Hv & Hc & He). pose proof (canon_float_lt_emax _ _ Hc He).
    split; [split; [lra|done]|]. intros _. by rewrite Hv.
Qed.

Lemma py_floor_finite (f : spec_float) :
  is_finite f = true → py_floor f = inr (Qfloor (SF2Q f)).
Proof.
  destruct f as [s|s| |s m e]; try done. intros _. simpl. by rewrite shiftl_floor.
Qed.

Lemma CT_comp (x x' : Q) (m e : Z) (l : location) : x == x' → CT x m e l → CT x' m e l.
Proof.
  intros Hx (H1 & H2 & H3 & H4 & H5). unfold CT.
  split; [eapply loc_inv_comp; [|exact H1]; by rewrite Hx|].
  split; [done|]. split; [done|]. split; [by rewrite <- Hx|].
  destruct H5 as [H5|H5]; [by left|right; by rewrite <- Hx].
Qed.

Lemma rounds_to_comp (x x' v v' : Q) :
  x == x' → v == v' → rounds_to x v → rounds_to x' v'.
Proof.
  intros Hx Hv (m & e & l & HCT & Hval). exists m, e, l.
  split; [by eapply CT_comp|]. by rewrite <- Hv.
Qed.

Lemma representable_rounds_to (n : Z) :
  representable n → rounds_to (inject_Z n) (inject_Z n).
Proof.
  intros (m & e & Hc & Hval). eapply rounds_to_comp; [exact Hval..|].
  by apply rounds_to_exact.
Qed.

Lemma int_representable (n : Z) : (0 <= n < 2 ^ prec)%Z → representable n.
Proof.
  intros [Hn Hhi]. destruct (Z_lt_le_dec 0 n) as [Hpos|Hzero].
  - destruct (Zdigits2_spec n Hpos) as [[Hdlo Hdhi] Hd].
    assert (Hdp : (Zdigits2 n <= prec)%Z).
    { assert (2 ^ (Zdigits2 n - 1) < 2 ^ prec)%Z by lia.
      apply Z.pow_lt_mono_r_iff in H; unfold prec in *; lia. }
    exists (n * 2 ^ (prec - Zdigits2 n))%Z, (Zdigits2 n - prec)%Z. split.
    + unfold canon_float. rewrite emin_eq.
      assert (Hp : (2 ^ prec = 2 ^ Zdigits2 n * 2 ^ (prec - Zdigits2 n))%Z).
      { rewrite <- Z.pow_add_r by lia. f_equal. lia. }
      assert (Hp' : (2 ^ (prec - 1)
                     = 2 ^ (Zdigits2 n - 1) * 2 ^ (prec - Zdigits2 n))%Z).
      { rewrite <- Z.pow_add_r by lia. f_equal. lia. }
      assert (0 < 2 ^ (prec - Zdigits2 n))%Z by (apply Z.pow_pos_nonneg; lia).
      split; [nia|]. split; [unfold prec in *; lia|]. right. nia.
    + rewrite inject_Z_mult, <- bpow_Z by lia. rewrite <- Qmult_assoc, <- bpow_add.
      replace (prec - Zdigits2 n + (Zdigits2 n - prec))%Z with 0%Z by lia.
      unfold bpow. simpl. ring.
  - assert (n = 0%Z) as -> by lia. exists 0%Z, (emin prec emax).
    split; [|by rewrite Qmult_0_l].
    unfold canon_float. split; [done|]. split; [done|by left].
Qed.

Lemma floor_representable (f : spec_float) (v : Q) :
  round_result false f v → is_finite f = true → representable (Qfloor v).
Proof.
  destruct f as [s|s| |s m e]; simpl; try done.
  - intros [_ Hv] _. rewrite (Qfloor_comp _ _ Hv). by apply int_representable.
  - intros (_ & Hv & Hc & He) _.
    destruct (Z_le_gt_dec 0 e) as [Hpos|Hneg].
    + assert (Hv' : v == inject_Z (Zpos m * 2 ^ e)).
      { by rewrite Hv, inject_Z_mult, <- bpow_Z. }
      rewrite (Qfloor_comp _ _ Hv'), Qfloor_Z. exists (Zpos m), e.
      split; [done|]. by rewrite inject_Z_mult, <- bpow_Z.
    + rewrite (Qfloor_comp _ _ Hv), <- shiftl_floor.
      rewrite <- (Z.opp_involutive e) at 1. rewrite Z.shiftl_opp_r.
      rewrite Z.shiftr_div_pow2 by lia. apply int_representable.
      destruct Hc as ([_ Hm] & _).
      assert (0 < 2 ^ (- e))%Z by (apply Z.pow_pos_nonneg; lia).
      split; [apply Z.div_pos; lia|].
      apply Z.le_lt_trans with (Zpos m); [|done].
      apply Z.div_le_upper_bound; [done|]. nia.
Qed.

Lemma Qfloor_inject_Z_le (n : Z) (v : Q) : inject_Z n <= v → (n <= Qfloor v)%Z.
Proof. intros H. rewrite <- (Qfloor_Z n). by apply Qfloor_resp_le. Qed.

Lemma Qfloor_le_inject_Z (n : Z) (v : Q) : v <= inject_Z n → (Qfloor v <= n)%Z.
Proof. intros H. rewrite <- (Qfloor_Z n). by apply Qfloor_resp_le. Qed.

(** The mean count: the quotient of the sum by two, rounded to a float and
    rounded down, lies between the two counts. *)
Lemma mean_count_between (lo hi : Z) :
  (0 <= lo <= hi)%Z → representable lo → representable hi →
  inject_Z hi < bpow emax →
  ∃ k, ebind (py_truediv (lo + hi) 2) py_floor = inr k ∧ (lo <= k <= hi)%Z.
Proof.
  intros Hlh Hlo Hhi Hmax. unfold py_truediv.
  destruct (lo + hi)%Z as [|p|p] eqn:Hsum; [| |lia].
  { exists 0%Z. split; [done|lia]. }
  cbn [SFofZ].
  destruct (SFdiv_finite_spec false false p 2 0 0) as (v & Hv & Hres).
  cbn [xorb] in Hres.
  assert (HX : inject_Z (Zpos p) * bpow 0 / (inject_Z 2 * bpow 0)
               == (inject_Z lo + inject_Z hi) / 2).
  { rewrite <- Hsum, inject_Z_plus. change (bpow 0) with 1. field. }
  apply (rounds_to_comp _ _ v v HX) in Hv; [|done].
  assert (Hle : inject_Z lo <= inject_Z hi) by (rewrite <- Zle_Qle; lia).
  assert (Hlo' : inject_Z lo <= v).
  { apply (rounds_to_mono (inject_Z lo) ((inject_Z lo + inject_Z hi) / 2));
      [by apply representable_rounds_to|done|].
    apply Qle_shift_div_l; lra. }
  assert (Hhi' : v <= inject_Z hi).
  { apply (rounds_to_mono ((inject_Z lo + inject_Z hi) / 2) (inject_Z hi));
      [done|by apply representable_rounds_to|].
    apply Qle_shift_div_r; lra. }
  destruct (round_result_finite _ _ Hres) as [Hfin Hval].
  assert (Hf : is_finite (SFdiv prec emax (S754_finite false p 0) (S754_finite false 2 0))
               = true) by (apply Hfin; lra).
  specialize (Hval Hf).
  exists (Qfloor (SF2Q (SFdiv prec emax (S754_finite false p 0) (S754_finite false 2 0)))).
  split.
  - destruct (SFdiv prec emax (S754_finite false p 0) (S754_finite false 2 0))
      as [s|s| |s m e] eqn:Hq; try done.
    cbn [ebind]. by rewrite py_floor_finite.
  - split; [apply Qfloor_inject_Z_le|apply Qfloor_le_inject_Z]; by rewrite Hval.
Qed.

Lemma py_mul_f1000_spec (s3 : bool) (m3 : positive) (e3 : Z) :
  ∃ v, round_result (xorb s3 false) (py_mul (S754_finite s3 m3 e3) f1000) v.
Proof.
  unfold py_mul, f1000. cbn [SFmul].
  destruct (binary_round_aux_spec (xorb s3 false)
              (inject_Z (Zpos (m3 * 8796093022208000)) * bpow (e3 + -43))
              (Zpos (m3 * 8796093022208000)) (e3 + -43) loc_Exact)
    as (v & _ & Hres); [done| | |by exists v].
  - simpl. rewrite <- Qmult_assoc, bpow_opp. ring.
  - right. replace (e3 + -43 + prec - 1)%Z with (prec - 1 + (e3 + -43))%Z by lia.
    rewrite bpow_add. apply scale_le. rewrite bpow_prec_pred, <- Zle_Qle.
    change (2 ^ (prec - 1))%Z with 4503599627370496%Z. lia.
Qed.

Lemma quotient_antitone (a p q : Q) : 0 < a → 0 < p → p <= q → a / q <= a / p.
Proof.
  intros Ha Hp Hpq. apply Qle_shift_div_l; [done|].
  unfold Qdiv. rewrite <- Qmult_assoc, (Qmult_comm (/ q)).
  rewrite Qmult_assoc. apply Qle_shift_div_r; [lra|]. nra.
Qed.

(** The two quotients [available_weight * 1000 / weight] of positive
    weights: both are roundings of non-negative values, ordered against the
    weights. *)
Lemma quotients_spec (m1 m2 m3 : positive) (e1 e2 e3 : Z) :
  let a := py_mul (S754_finite false m3 e3) f1000 in
  ∃ v1 v2,
    round_result false (SFdiv prec emax a (S754_finite false m1 e1)) v1
    ∧ round_result false (SFdiv prec emax a (S754_finite false m2 e2)) v2
    ∧ 0 <= v1 ∧ 0 <= v2
    ∧ (SF2Q (S754_finite false m1 e1) <= SF2Q (S754_finite false m2 e2) → v2 <= v1)
    ∧ (SF2Q (S754_finite false m2 e2) <= SF2Q (S754_finite false m1 e1) → v1 <= v2).
Proof.
  intros a. destruct (py_mul_f1000_spec false m3 e3) as (va & Ha). fold a in Ha.
  cbn [xorb] in Ha.
  pose proof (bpow_pos emax) as Hpos.
  destruct a as [s|s| |s ma ea]; cbn [round_result] in Ha; [| |done|].
  - destruct Ha as [-> _]. exists 0, 0. cbn. repeat split; try done; lra.
  - destruct Ha as [-> _]. exists (bpow emax), (bpow emax). cbn.
    repeat split; try done; lra.
  - destruct Ha as (-> & _).
    destruct (SFdiv_finite_spec false false ma m1 ea e1) as (v1 & Hr1 & Hres1).
    destruct (SFdiv_finite_spec false false ma m2 ea e2) as (v2 & Hr2 & Hres2).
    exists v1, v2. split; [done|]. split; [done|].
    split; [by eapply rounds_to_nonneg|]. split; [by eapply rounds_to_nonneg|].
    pose proof (bpow_pos ea). pose proof (bpow_pos e1). pose proof (bpow_pos e2).
    assert (0 < inject_Z (Zpos ma)) by (by change 0 with (inject_Z 0); rewrite <- Zlt_Qlt).
    assert (0 < inject_Z (Zpos m1)) by (by change 0 with (inject_Z 0); rewrite <- Zlt_Qlt).
    assert (0 < inject_Z (Zpos m2)) by (by change 0 with (inject_Z 0); rewrite <- Zlt_Qlt).
    cbn [SF2Q cond_Zopp]. split; intros Hle.
    + eapply rounds_to_mono; [exact Hr2|exact Hr1|].
      apply quotient_antitone; [nra|nra|done].
    + eapply rounds_to_mono; [exact Hr1|exact Hr2|].
      apply quotient_antitone; [nra|nra|done].
Qed.

Lemma smaller_quotient_finite (m1 m2 m3 : positive) (e1 e2 e3 : Z) :
  let a := py_mul (S754_finite false m3 e3) f1000 in
  SF2Q (S754_finite false m1 e1) <= SF2Q (S754_finite false m2 e2) →
  is_finite (SFdiv prec emax a (S754_finite false m1 e1)) = true →
  is_finite (SFdiv prec emax a (S754_finite false m2 e2)) = true.
Proof.
  intros a Hle Hfin.
  destruct (quotients_spec m1 m2 m3 e1 e2 e3) as (v1 & v2 & H1 & H2 & _ & _ & Hord & _).
  fold a in H1, H2. specialize (Hord Hle).
  destruct (round_result_finite _ _ H1) as [Hf1 _].
  destruct (round_result_finite _ _ H2) as [Hf2 _].
  apply Hf2. apply Hf1 in Hfin. lra.
Qed.

(** The counts of a row of positive weights whose two quotients are finite. *)
Lemma seed_counts_positive (it : item) (m1 m2 m3 : positive) (e1 e2 e3 : Z) :
  let a := py_mul (S754_finite false m3 e3) f1000 in
  let q1 := SFdiv prec emax a (S754_finite false m1 e1) in
  let q2 := SFdiv prec emax a (S754_finite false m2 e2) in
  py_float (item1 it) = inr (S754_finite false m1 e1) →
  py_float (item2 it) = inr (S754_finite false m2 e2) →
  py_float (item3 it) = inr (S754_finite false m3 e3) →
  is_finite q1 = true → is_finite q2 = true →
  ∃ r, seed_counts it = inr r
    ∧ (0 <= min_seed_count r)%Z ∧ (0 <= max_seed_count r)%Z
    ∧ (Z.min (min_seed_count r) (max_seed_count r) <= mean_seed_count r
       <= Z.max (min_seed_count r) (max_seed_count r))%Z
    ∧ (SF2Q (S754_finite false m1 e1) <= SF2Q (S754_finite false m2 e2) →
       (min_seed_count r <= max_seed_count r)%Z)
    ∧ (SF2Q (S754_finite false m2 e2) <= SF2Q (S754_finite false m1 e1) →
       (max_seed_count r <= min_seed_count r)%Z).
Proof.
  intros a q1 q2 Hc1 Hc2 Hc3 Hfin1 Hfin2.
  destruct (quotients_spec m1 m2 m3 e1 e2 e3)
    as (v1 & v2 & H1 & H2 & Hv1 & Hv2 & Hord & Hord').
  fold a in H1, H2. fold q1 in H1. fold q2 in H2.
  destruct (round_result_finite _ _ H1) as [Hf1 Hval1].
  destruct (round_result_finite _ _ H2) as [Hf2 Hval2].
  specialize (Hval1 Hfin1). specialize (Hval2 Hfin2).
  pose proof (floor_representable _ _ H1 Hfin1) as Hrep1.
  pose proof (floor_representable _ _ H2 Hfin2) as Hrep2.
  rewrite <- (Qfloor_comp _ _ Hval1) in Hrep1. rewrite <- (Qfloor_comp _ _ Hval2) in Hrep2.
  set (M := Qfloor (SF2Q q1)) in *. set (m := Qfloor (SF2Q q2)) in *.
  assert (HM0 : (0 <= M)%Z) by (apply (Qfloor_inject_Z_le 0); by rewrite Hval1).
  assert (Hm0 : (0 <= m)%Z) by (apply (Qfloor_inject_Z_le 0); by rewrite Hval2).
  assert (HMmax : inject_Z M < bpow emax).
  { apply Qle_lt_trans with (SF2Q q1); [apply Qfloor_le|]. rewrite Hval1. by apply Hf1. }
  assert (Hmmax : inject_Z m < bpow emax).
  { apply Qle_lt_trans with (SF2Q q2); [apply Qfloor_le|]. rewrite Hval2. by apply Hf2. }
  assert (Hmean : ∃ k, ebind (py_truediv (m + M) 2) py_floor = inr k
                       ∧ (Z.min m M <= k <= Z.max m M)%Z).
  { destruct (Z_le_gt_dec m M) as [Hle|Hgt].
    - destruct (mean_count_between m M) as (k & Hk & Hkb); [lia|done..|].
      exists k. split; [done|lia].
    - destruct (mean_count_between M m) as (k & Hk & Hkb); [lia|done..|].
      exists k. rewrite Z.add_comm. split; [done|lia]. }
  destruct Hmean as (k & Hk & Hkb).
  exists {| tree_name := item0 it; min_seed_count := m; max_seed_count := M;
            mean_seed_count := k |}.
  split.
  - unfold seed_counts. rewrite Hc1, Hc2, Hc3. cbn [ebind py_div].
    fold a. fold q1. fold q2. rewrite !py_floor_finite by done. cbn [ebind].
    fold M. fold m. by rewrite Hk.
  - cbn. split; [done|]. split; [done|]. split; [done|]. split; intros Hle.
    + specialize (Hord Hle). apply Qfloor_resp_le. by rewrite Hval1, Hval2.
    + specialize (Hord' Hle). apply Qfloor_resp_le. by rewrite Hval1, Hval2.
Qed.

Lemma round_result_is_finite (s : bool) (f : spec_float) (v : Q) :
  round_result s f v → (is_finite f = true ↔ v < bpow emax).
Proof.
  pose proof (bpow_pos emax) as Hpos.
  destruct f as [s'|s'| |s' m e]; simpl; [| |done|].
  - intros [_ Hv]. split; [lra|done].
  - intros [_ Hv]. split; [done|lra].
  - intros (_ & Hv & Hc & He). pose proof (canon_float_lt_emax _ _ Hc He).
    split; [lra|done].
Qed.

(** The quotient [available_weight * 1000 / weight] of floats of any sign is
    a rounding. *)
Lemma product_quotient_spec (av : spec_float) (s : bool) (m : positive) (e : Z) :
  is_finite av = true →
  ∃ s' v, round_result s' (SFdiv prec emax (py_mul av f1000) (S754_finite s m e)) v.
Proof.
  intros Hav. destruct av as [s3|s3| |s3 m3 e3]; try done.
  - exists (xorb (xorb s3 false) s), 0. by cbn.
  - destruct (py_mul_f1000_spec s3 m3 e3) as (va & Ha).
    destruct (py_mul (S754_finite s3 m3 e3) f1000) as [sa|sa| |sa ma ea]; [| |done|].
    + exists (xorb sa s), 0. by cbn.
    + exists (xorb sa s), (bpow emax). cbn. split; [done|lra].
    + destruct (SFdiv_finite_spec sa s ma m ea e) as (v & _ & Hres). by exists (xorb sa s), v.
Qed.

(** The floor of a finite float is bounded by an integer of the format. *)
Lemma floor_bound (s : bool) (f : spec_float) (v : Q) :
  round_result s f v → is_finite f = true →
  ∃ B, representable B ∧ (- B <= Qfloor (SF2Q f) <= B)%Z ∧ inject_Z B < bpow emax.
Proof.
  pose proof (bpow_pos emax) as Hpos.
  destruct f as [s'|s'| |s' m e]; try done; cbn [round_result SF2Q].
  - intros _ _. exists 0%Z. split; [by apply int_representable|]. split; [done|].
    by change (inject_Z 0) with 0.
  - intros (_ & Hv & Hc & He) _.
    assert (HM : 0 < inject_Z (Zpos m)) by (by change 0 with (inject_Z 0); rewrite <- Zlt_Qlt).
    destruct (Z_le_gt_dec 0 e) as [Hpos'|Hneg].
    + exists (Zpos m * 2 ^ e)%Z.
      assert (Hval : inject_Z (Zpos m * 2 ^ e) == inject_Z (Zpos m) * bpow e).
      { by rewrite inject_Z_mult, <- bpow_Z. }
      split; [by exists (Zpos m), e|]. split.
      * assert (Hf : inject_Z (cond_Zopp s' (Zpos m)) * bpow e
                     == inject_Z (cond_Zopp s' (Zpos m) * 2 ^ e)).
        { by rewrite inject_Z_mult, <- bpow_Z. }
        rewrite (Qfloor_comp _ _ Hf), Qfloor_Z.
        assert (0 < 2 ^ e)%Z by (apply Z.pow_pos_nonneg; lia).
        destruct s'; cbn [cond_Zopp]; nia.
      * rewrite Hval. by apply canon_float_lt_emax.
    + exists (Zpos m). destruct Hc as ([_ Hm] & _).
      split; [apply int_representable; lia|]. split.
      * assert (Hb : bpow e <= 1).
        { change 1 with (bpow 0). apply bpow_le. lia. }
        pose proof (bpow_pos e) as Hbp.
        destruct s'; cbn [cond_Zopp]; split.
        -- apply Qfloor_inject_Z_le. rewrite !inject_Z_opp. nra.
        -- apply Qfloor_le_inject_Z. rewrite !inject_Z_opp. nra.
        -- apply Qfloor_inject_Z_le. rewrite !inject_Z_opp. nra.
        -- apply Qfloor_le_inject_Z. nra.
      * apply Qlt_le_trans with (bpow prec).
        -- rewrite bpow_prec. by rewrite <- Zlt_Qlt.
        -- apply bpow_le. unfold prec, emax. lia.
Qed.

Lemma representable_max (a b : Z) :
  representable a → representable b → representable (Z.max a b).
Proof. intros Ha Hb. by destruct (Z.max_spec a b) as [[_ ->]|[_ ->]]. Qed.

(** The mean count of two bounded counts is computed. *)
Lemma mean_count_total (m M B1 B2 : Z) :
  representable B1 → representable B2 →
  (- B1 <= M <= B1)%Z → (- B2 <= m <= B2)%Z →
  inject_Z B1 < bpow emax → inject_Z B2 < bpow emax →
  ∃ k, ebind (py_truediv (m + M) 2) py_floor = inr k.
Proof.
  intros HB1 HB2 HM Hm Hmax1 Hmax2.
  pose proof (representable_max _ _ HB1 HB2) as HB.
  assert (HBmax : inject_Z (Z.max B1 B2) < bpow emax).
  { by destruct (Z.max_spec B1 B2) as [[_ ->]|[_ ->]]. }
  assert (Hsum : (Z.abs (m + M) <= 2 * Z.max B1 B2)%Z) by lia.
  revert Hsum HB HBmax. generalize (Z.max B1 B2). intros B Hsum HB HBmax.
  unfold py_truediv.
  assert (Hgen : ∀ (s : bool) (p : positive), (Zpos p <= 2 * B)%Z →
            ∃ k, ebind match SFdiv prec emax (S754_finite s p 0) (SFofZ 2) with
                       | S754_infinity _ => inl OverflowError
                       | f => inr f
                       end py_floor = inr k).
  { intros s p Hp. cbn [SFofZ].
    destruct (SFdiv_finite_spec s false p 2 0 0) as (v & Hv & Hres).
    assert (Hle : v <= inject_Z B).
    { apply (rounds_to_mono _ (inject_Z B) _ _ Hv); [by apply representable_rounds_to|].
      change (bpow 0) with 1. apply Qle_shift_div_r; [reflexivity|].
      assert (inject_Z (Zpos p) <= inject_Z (2 * B)) by (by rewrite <- Zle_Qle).
      rewrite inject_Z_mult in H. change (inject_Z 2) with 2 in *. lra. }
    assert (Hf : is_finite (SFdiv prec emax (S754_finite s p 0) (S754_finite false 2 0))
                 = true).
    { apply (round_result_is_finite _ _ _ Hres). lra. }
    destruct (SFdiv prec emax (S754_finite s p 0) (S754_finite false 2 0))
      as [s'|s'| |s' m' e'] eqn:Hq; try done; cbn [ebind]; eauto using py_floor_finite. }
  destruct (m + M)%Z as [|p|p]; cbn [SFofZ].
  - by exists 0%Z.
  - apply (Hgen false p). lia.
  - apply (Hgen true p). lia.
Qed.

(** The counts of a row are computed whenever its weights are finite floats,
    the two TKG not zero, and the two quotients finite. *)
Lemma seed_counts_total (it : item) (av : spec_float) (s1 s2 : bool)
    (m1 m2 : positive) (e1 e2 : Z) :
  py_float (item1 it) = inr (S754_finite s1 m1 e1) →
  py_float (item2 it) = inr (S754_finite s2 m2 e2) →
  py_float (item3 it) = inr av →
  is_finite av = true →
  is_finite (SFdiv prec emax (py_mul av f1000) (S754_finite s1 m1 e1)) = true →
  is_finite (SFdiv prec emax (py_mul av f1000) (S754_finite s2 m2 e2)) = true →
  ∃ r, seed_counts it = inr r.
Proof.
  intros Hc1 Hc2 Hc3 Hav Hfin1 Hfin2.
  destruct (product_quotient_spec av s1 m1 e1 Hav) as (s1' & v1 & H1).
  destruct (product_quotient_spec av s2 m2 e2 Hav) as (s2' & v2 & H2).
  destruct (floor_bound _ _ _ H1 Hfin1) as (B1 & HB1 & HM & Hmax1).
  destruct (floor_bound _ _ _ H2 Hfin2) as (B2 & HB2 & Hm & Hmax2).
  destruct (mean_count_total _ _ _ _ HB1 HB2 HM Hm Hmax1 Hmax2) as (k & Hk).
  eexists. unfold seed_counts. rewrite Hc1, Hc2, Hc3. cbn [ebind py_div].
  rewrite !py_floor_finite by done. cbn [ebind]. rewrite Hk. cbn [ebind]. done.
Qed.

End FloatFacts.

(** ** The properties of the seed script *)



(** C7. On the row of Picea abies, [["Picea abies", 4, 8, 100]], the first of
    [tree_dictionary], [quantify_seeds] computes and writes the counts 12500
    to 25000 and the mean count 18750. *)
Theorem picea_abies_counts :
  tree_dictionary !! 0
  = Some {| item0 := "Picea abies"; item1 := PyInt 4; item2 := PyInt 8; item3 := PyInt 100 |}
  ∧ seed_counts
      {| item0 := "Picea abies"; item1 := PyInt 4; item2 := PyInt 8; item3 := PyInt 100 |}
    = inr {| tree_name := "Picea abies"; min_seed_count := 12500;
             max_seed_count := 25000; mean_seed_count := 18750 |}
  ∧ (quantify_seeds tree_dictionary []).1 !! 0
    = Some {| tree_name := "Picea abies"; min_seed_count := 12500;
              max_seed_count := 25000; mean_seed_count := 18750 |}
  ∧ (quantify_seeds tree_dictionary []).2 = inr tt.
Proof. repeat split; vm_compute; reflexivity. Qed.

(** C6 as stated fails: a row with a negative weight is not rejected; its
    counts are computed and written. *)
Lemma negative_weight_not_rejected :
  quantify_seeds
    [ {| item0 := "x"; item1 := PyInt (-4); item2 := PyInt 8; item3 := PyInt 100 |} ] []
  = ([ {| tree_name := "x"; min_seed_count := 12500; max_seed_count := -25000;
          mean_seed_count := -6250 |} ], inr tt).
Proof. vm_compute. reflexivity. Qed.

Lemma quantify_seeds_raises (before : list item) (it : item) (rest : list item)
    (reports : list report) (e : pyexn) (out : list report) :
  Forall2 (λ it r, seed_counts it = inr r) before reports →
  seed_counts it = inl e →
  quantify_seeds (before ++ it :: rest) out = (out ++ reports, inl e).
Proof.
  intros Hbefore Hit. revert out.
  induction Hbefore as [|it' r before reports Hr _ IH]; intros out.
  - cbn [app quantify_seeds]. unfold bind, lift. rewrite Hit. by rewrite app_nil_r.
  - cbn [app quantify_seeds]. unfold bind, lift, print. rewrite Hr.
    rewrite IH. by rewrite <- app_assoc.
Qed.

(** C3, as the code has it. For a row whose three weights are positive finite
    floats, the smaller TKG first, and whose quotient
    [available_weight * 1000 / min_weight] is a finite float, [quantify_seeds]
    computes counts with 0 <= minimum <= mean <= maximum. *)
Theorem seed_counts_ordered (it : item) (m1 m2 m3 : positive) (e1 e2 e3 : Z) :
  py_float (item1 it) = inr (S754_finite false m1 e1) →
  py_float (item2 it) = inr (S754_finite false m2 e2) →
  py_float (item3 it) = inr (S754_finite false m3 e3) →
  (SF2Q (S754_finite false m1 e1) <= SF2Q (S754_finite false m2 e2))%Q →
  is_finite (SFdiv prec emax (py_mul (S754_finite false m3 e3) f1000)
               (S754_finite false m1 e1)) = true →
  ∃ r, seed_counts it = inr r
    ∧ (0 <= min_seed_count r)%Z
    ∧ (min_seed_count r <= mean_seed_count r)%Z
    ∧ (mean_seed_count r <= max_seed_count r)%Z.
Proof.
  intros Hc1 Hc2 Hc3 Hle Hfin1.
  pose proof (smaller_quotient_finite m1 m2 m3 e1 e2 e3 Hle Hfin1) as Hfin2.
  destruct (seed_counts_positive it m1 m2 m3 e1 e2 e3 Hc1 Hc2 Hc3 Hfin1 Hfin2)
    as (r & Hr & Hmin & Hmax & Hmean & Hord & _).
  specialize (Hord Hle). exists r. split; [done|]. lia.
Qed.

(** C3 on the row of Sorbus aucuparia, [["Sorbus aucuparia", 3.5, 5, 200]]. *)
Lemma seed_counts_ordered_witness :
  ∃ r, seed_counts {| item0 := "Sorbus aucuparia"; item1 := PyFloat f3_5;
                      item2 := PyInt 5; item3 := PyInt 200 |} = inr r
    ∧ (0 <= min_seed_count r)%Z
    ∧ (min_seed_count r <= mean_seed_count r)%Z
    ∧ (mean_seed_count r <= max_seed_count r)%Z.
Proof.
  eapply (seed_counts_ordered
            {| item0 := "Sorbus aucuparia"; item1 := PyFloat f3_5;
               item2 := PyInt 5; item3 := PyInt 200 |}).
  - vm_compute. reflexivity.
  - vm_compute. reflexivity.
  - vm_compute. reflexivity.
  - vm_compute. discriminate.
  - vm_compute. reflexivity.
Defined.

(** C3 as stated fails: the weights 1, 1 and the largest float (about
    1.8e308 g) are positive, the smaller TKG first, and no estimate is
    produced: the product with 1000 is infinite and [math.floor] raises
    [OverflowError]. *)
Lemma largest_weight_has_no_estimate :
  let it := {| item0 := "x"; item1 := PyInt 1; item2 := PyInt 1;
               item3 := PyFloat (S754_finite false 9007199254740991 971) |} in
  py_float (item1 it) = inr (S754_finite false 4503599627370496 (-52))
  ∧ py_float (item2 it) = inr (S754_finite false 4503599627370496 (-52))
  ∧ valid_binary prec emax (S754_finite false 9007199254740991 971) = true
  ∧ seed_counts it = inl OverflowError
  ∧ quantify_seeds [it] [] = ([], inl OverflowError).
Proof. repeat split; vm_compute; reflexivity. Qed.

Lemma py_floor_raises (x : spec_float) (e : pyexn) :
  py_floor x = inl e → e = OverflowError ∨ e = ValueError.
Proof. destruct x; cbn; intros H; inversion H; auto. Qed.

Lemma py_floor_returns (x : spec_float) (n : Z) :
  py_floor x = inr n → is_finite x = true.
Proof. by destruct x. Qed.

Lemma mean_count_raises (sum : Z) (e : pyexn) :
  ebind (py_truediv sum 2) py_floor = inl e → e = OverflowError ∨ e = ValueError.
Proof.
  unfold py_truediv.
  destruct (SFdiv prec emax (SFofZ sum) (SFofZ 2)); cbn; intros H; inversion H; auto.
Qed.

(** A quotient [available_weight * 1000 / weight] by a finite weight other
    than zero is finite only if the available weight is. *)
Lemma finite_quotient_finite_weight (av : spec_float) (s : bool) (m : positive) (e : Z) :
  is_finite (SFdiv prec emax (py_mul av f1000) (S754_finite s m e)) = true →
  is_finite av = true.
Proof. by destruct av. Qed.

(** C10, as the code has it. A division raises exactly on a divisor that is
    a zero, and then [ZeroDivisionError]; there is no other check. So for
    every row whose two TKG are positive finite floats, whatever the available
    weight, the two divisions raise nothing and the row never raises
    [ZeroDivisionError]: if it raises, it is [OverflowError] or [ValueError]
    of a [math.floor], which raises [OverflowError] on an infinite quotient.
    The computation of such a row returns exactly when the
    two quotients are finite floats, which needs the available weight to be
    finite; so it returns whenever the available weight and the two quotients
    are finite. *)
Theorem seed_counts_total_for_positive_weights (it : item) (av : spec_float)
    (m1 m2 : positive) (e1 e2 : Z) :
  py_float (item1 it) = inr (S754_finite false m1 e1) →
  py_float (item2 it) = inr (S754_finite false m2 e2) →
  py_float (item3 it) = inr av →
  py_div (py_mul av f1000) (S754_finite false m1 e1)
  = inr (SFdiv prec emax (py_mul av f1000) (S754_finite false m1 e1))
  ∧ py_div (py_mul av f1000) (S754_finite false m2 e2)
    = inr (SFdiv prec emax (py_mul av f1000) (S754_finite false m2 e2))
  ∧ (∀ (x y : spec_float) (e : pyexn),
       py_div x y = inl e ↔ (∃ s, y = S754_zero s) ∧ e = ZeroDivisionError)
  ∧ (∀ e : pyexn, seed_counts it = inl e → e = OverflowError ∨ e = ValueError)
  ∧ (∀ s : bool, py_floor (S754_infinity s) = inl OverflowError)
  ∧ ((∃ r, seed_counts it = inr r)
     ↔ is_finite (SFdiv prec emax (py_mul av f1000) (S754_finite false m1 e1)) = true
       ∧ is_finite (SFdiv prec emax (py_mul av f1000) (S754_finite false m2 e2)) = true)
  ∧ (is_finite av = true →
     is_finite (SFdiv prec emax (py_mul av f1000) (S754_finite false m1 e1)) = true →
     is_finite (SFdiv prec emax (py_mul av f1000) (S754_finite false m2 e2)) = true →
     ∃ r, seed_counts it = inr r).
Proof.
  intros Hc1 Hc2 Hc3. split; [done|]. split; [done|].
  split; [|split; [|split; [done|split]]].
  - intros x y e. split.
    + destruct y; cbn; intros H; inversion H; eauto.
    + intros [[s ->] ->]. done.
  - intros e. unfold seed_counts. rewrite Hc1, Hc2, Hc3. cbn [ebind py_div].
    destruct (py_floor (SFdiv prec emax (py_mul av f1000) (S754_finite false m1 e1)))
      as [e'|max_count] eqn:HM; cbn [ebind].
    { intros [= <-]. by eapply py_floor_raises. }
    destruct (py_floor (SFdiv prec emax (py_mul av f1000) (S754_finite false m2 e2)))
      as [e'|min_count] eqn:Hm; cbn [ebind].
    { intros [= <-]. by eapply py_floor_raises. }
    destruct (ebind (py_truediv (min_count + max_count) 2) py_floor)
      as [e'|mean_count] eqn:Hk; cbn [ebind]; [|done].
    intros [= <-]. by eapply mean_count_raises.
  - split.
    + intros [r Hr]. revert Hr. unfold seed_counts. rewrite Hc1, Hc2, Hc3.
      cbn [ebind py_div].
      destruct (py_floor (SFdiv prec emax (py_mul av f1000) (S754_finite false m1 e1)))
        as [e'|max_count] eqn:HM; cbn [ebind]; [done|].
      destruct (py_floor (SFdiv prec emax (py_mul av f1000) (S754_finite false m2 e2)))
        as [e'|min_count] eqn:Hm; cbn [ebind]; [done|].
      intros _. split; by eapply py_floor_returns.
    + intros [Hfin1 Hfin2]. eapply seed_counts_total; try done.
      by eapply finite_quotient_finite_weight.
  - intros Hav Hfin1 Hfin2. by eapply seed_counts_total.
Qed.

(** C10 on the row of Picea abies: the divisions raise nothing and the
    counts are computed. *)
Lemma seed_counts_total_for_positive_weights_witness :
  py_div (py_mul (S754_finite false 7036874417766400 (-46)) f1000)
         (S754_finite false 4503599627370496 (-50))
  = inr (SFdiv prec emax (py_mul (S754_finite false 7036874417766400 (-46)) f1000)
           (S754_finite false 4503599627370496 (-50)))
  ∧ ∃ r, seed_counts {| item0 := "Picea abies"; item1 := PyInt 4; item2 := PyInt 8;
                        item3 := PyInt 100 |} = inr r.
Proof.
  destruct (seed_counts_total_for_positive_weights
              {| item0 := "Picea abies"; item1 := PyInt 4; item2 := PyInt 8;
                 item3 := PyInt 100 |}
              (S754_finite false 7036874417766400 (-46))
              4503599627370496 4503599627370496 (-50) (-49))
    as (Hdiv & _ & _ & _ & _ & Hiff & _).
  - vm_compute. reflexivity.
  - vm_compute. reflexivity.
  - vm_compute. reflexivity.
  - split; [exact Hdiv|]. apply Hiff. split; vm_compute; reflexivity.
Defined.

(** C10 as stated fails: with the positive TKG 4 and 8 and the available
    weight 2 ^ 1023 g the computation does not return; the quotient is
    infinite and [math.floor] raises [OverflowError]. *)
Lemma positive_weights_not_total :
  valid_binary prec emax (S754_finite false 4503599627370496 971) = true
  ∧ seed_counts {| item0 := "x"; item1 := PyInt 4; item2 := PyInt 8;
                   item3 := PyFloat (S754_finite false 4503599627370496 971) |}
    = inl OverflowError.
Proof. split; vm_compute; reflexivity. Qed.

(** C6, as the code has it: [quantify_seeds] checks no weight. A row whose
    minimal TKG is a zero raises [ZeroDivisionError], and so does one whose
    maximal TKG is a zero once the larger count is computed; an exception
    raised at a row leaves written the reports of the rows before it; and
    every row whose weights are finite floats, the two TKG not zero, of any
    sign and in any order, and whose two quotients are finite, has its counts
    computed. *)
Theorem quantify_seeds_checks_no_weight :
  (∀ (it : item) (s : bool) (mx av : spec_float),
     py_float (item1 it) = inr (S754_zero s) →
     py_float (item2 it) = inr mx →
     py_float (item3 it) = inr av →
     seed_counts it = inl ZeroDivisionError)
  ∧ (∀ (it : item) (s : bool) (mn av : spec_float) (max_count : Z),
       py_float (item1 it) = inr mn →
       py_float (item2 it) = inr (S754_zero s) →
       py_float (item3 it) = inr av →
       count_for av mn = inr max_count →
       seed_counts it = inl ZeroDivisionError)
  ∧ (∀ (before : list item) (it : item) (rest : list item) (reports : list report)
       (e : pyexn) (out : list report),
       Forall2 (λ it r, seed_counts it = inr r) before reports →
       seed_counts it = inl e →
       quantify_seeds (before ++ it :: rest) out = (out ++ reports, inl e))
  ∧ (∀ (it : item) (av : spec_float) (s1 s2 : bool) (m1 m2 : positive) (e1 e2 : Z),
       py_float (item1 it) = inr (S754_finite s1 m1 e1) →
       py_float (item2 it) = inr (S754_finite s2 m2 e2) →
       py_float (item3 it) = inr av →
       is_finite av = true →
       is_finite (SFdiv prec emax (py_mul av f1000) (S754_finite s1 m1 e1)) = true →
       is_finite (SFdiv prec emax (py_mul av f1000) (S754_finite s2 m2 e2)) = true →
       ∃ r, seed_counts it = inr r).
Proof.
  split; [|split; [|split]].
  - intros it s mx av Hc1 Hc2 Hc3. unfold seed_counts. by rewrite Hc1, Hc2, Hc3.
  - intros it s mn av M Hc1 Hc2 Hc3 HM. unfold seed_counts, count_for in *.
    rewrite Hc1, Hc2, Hc3. cbn [ebind]. by rewrite HM.
  - exact quantify_seeds_raises.
  - exact seed_counts_total.
Qed.

(** A zero TKG in the second row: the first row is written, then the division
    raises. *)
Example zero_weight_raises_after_first_row :
  quantify_seeds
    [ {| item0 := "Picea abies"; item1 := PyInt 4; item2 := PyInt 8; item3 := PyInt 100 |};
      {| item0 := "x"; item1 := PyInt 0; item2 := PyInt 8; item3 := PyInt 100 |} ] []
  = ([ {| tree_name := "Picea abies"; min_seed_count := 12500; max_seed_count := 25000;
          mean_seed_count := 18750 |} ], inl ZeroDivisionError).
Proof. vm_compute. reflexivity. Qed.

(** The TKG in the wrong order: the counts come out in the wrong order. *)
Example reversed_weights_not_rejected :
  quantify_seeds
    [ {| item0 := "x"; item1 := PyInt 8; item2 := PyInt 4; item3 := PyInt 100 |} ] []
  = ([ {| tree_name := "x"; min_seed_count := 25000; max_seed_count := 12500;
          mean_seed_count := 18750 |} ], inr tt).
Proof. vm_compute. reflexivity. Qed.


(** * Part III: further properties of the scripts *)

(** ** The free positions and the pinned position *)

(** X1. [available_positions], before the shuffle, lists every cell of the
    plate other than the pinned one, each once; there are [rows * cols - 1] of
    them when the pinned position is a cell of the plate and [rows * cols]
    when it is not. *)
Theorem positions_lists_free_cells (size pos_L : nat * nat) :
  NoDup (positions size pos_L)
  ∧ (∀ p, p ∈ positions size pos_L ↔ p.1 < size.1 ∧ p.2 < size.2 ∧ p ≠ pos_L)
  ∧ length (positions size pos_L)
    = size.1 * size.2
      - (if decide (pos_L.1 < size.1 ∧ pos_L.2 < size.2) then 1 else 0).
Proof.
  split; [apply positions_NoDup|]. split; [apply positions_spec|].
  case_decide as Hin.
  - apply positions_length; tauto.
  - rewrite Nat.sub_0_r, <- all_positions_length. apply Permutation_length.
    apply NoDup_Permutation; [apply positions_NoDup|apply all_positions_NoDup|].
    intros p. rewrite positions_spec, all_positions_spec.
    split; [tauto|]. intros [Hr Hc]. split; [done|]. split; [done|].
    intros ->. tauto.
Qed.

Section AnyPosition.
Context {rng : Type}.
Variable randbelow : nat → rng → nat * rng.

Lemma list_index_nat (len r : nat) :
  list_index len (Z.of_nat r) = if decide (r < len) then Some r else None.
Proof.
  unfold list_index. repeat case_decide; try lia; [|done]. by rewrite Nat2Z.id.
Qed.

Lemma list_index_None (len : nat) (i : Z) :
  list_index len i = None ↔ ¬ (- Z.of_nat len ≤ i < Z.of_nat len)%Z.
Proof. unfold list_index. repeat case_decide; split; try done; lia. Qed.

Lemma list_index_lt (len : nat) (i : Z) (i' : nat) :
  list_index len i = Some i' → i' < len.
Proof. unfold list_index. repeat case_decide; intros [= <-]; lia. Qed.

Lemma list_index_negative (len : nat) (i : Z) (i' : nat) :
  list_index len i = Some i' → (i < 0)%Z → Z.of_nat i' = (Z.of_nat len + i)%Z.
Proof. unfold list_index. repeat case_decide; intros [= <-]; lia. Qed.

Lemma new_rows_length (h : gmap loc (list string)) (plate : list loc) (rows cols : nat)
    (l : loc) :
  read_plate h plate = replicate rows (replicate cols EmptyString) →
  l ∈ plate → length (deref h l) = cols.
Proof.
  intros Hread [i Hi]%list_elem_of_lookup.
  pose proof (f_equal (.!! i) Hread) as H. unfold read_plate in H.
  rewrite list_lookup_fmap, Hi in H. simpl in H. symmetry in H.
  apply lookup_replicate in H as [H _]. by rewrite H, length_replicate.
Qed.

Lemma setitem2_at_wrap (plate : list loc) (r c : Z) (r' c' cols : nat) (v : string)
    (s : state rng) :
  list_index (length plate) r = Some r' →
  (∀ l, l ∈ plate → length (deref (heap s) l) = cols) →
  list_index cols c = Some c' →
  setitem2_at plate r c v s = setitem2 plate r' c' v s.
Proof.
  intros Hr Hrows Hc. unfold setitem2_at, setitem2. rewrite Hr. simpl.
  destruct (plate !! r') as [l|] eqn:Hl; [|reflexivity].
  rewrite (Hrows l), Hc; [done|]. by eapply list_elem_of_lookup_2.
Qed.

Lemma setitem2_at_nat (plate : list loc) (r c : nat) (v : string) (s : state rng) :
  setitem2_at plate (Z.of_nat r) (Z.of_nat c) v s = setitem2 plate r c v s.
Proof.
  unfold setitem2_at, setitem2. rewrite list_index_nat. case_decide as Hr; simpl.
  - destruct (plate !! r) as [l|] eqn:Hl; [|reflexivity].
    rewrite list_index_nat. unfold setitem.
    repeat (case_decide; simpl); try done; lia.
  - by rewrite lookup_ge_None_2 by lia.
Qed.

Lemma positions_at_nat (size pos_L : nat * nat) :
  positions_at size (Z.of_nat pos_L.1, Z.of_nat pos_L.2) = positions size pos_L.
Proof.
  unfold positions_at, positions.
  apply list_bind_ext; [|done]. intros r. apply list_filter_iff. intros [r' c'].
  destruct pos_L as [r0 c0]. simpl. split; intros H [= ]; apply H; f_equal; lia.
Qed.

(** For a [position_L] of non-negative integers, [generate_plate_at] is
    [generate_plate]. *)
Lemma generate_plate_at_nat (s : state rng) :
  generate_plate_at randbelow
    (Z.of_nat (g_position_L (env s)).1, Z.of_nat (g_position_L (env s)).2) s
  = generate_plate randbelow s.
Proof.
  unfold generate_plate_at, generate_plate, bind. cbn [fst snd].
  destruct (new_plate _ _ s) as [s1 [e|plate]]; [done|].
  by rewrite setitem2_at_nat, positions_at_nat.
Qed.

Lemma positions_at_negative (size : nat * nat) (position_L : Z * Z) :
  (position_L.1 < 0 ∨ position_L.2 < 0)%Z →
  positions_at size position_L = all_positions size.
Proof.
  intros Hneg. unfold positions_at, all_positions.
  apply list_bind_ext; [|done]. intros r.
  induction (seq 0 size.2) as [|c cs IH]; [done|].
  rewrite fmap_cons, filter_cons_True; [by rewrite IH|].
  simpl. intros <-. simpl in Hneg. lia.
Qed.

Lemma generate_plate_at_outside (position_L : Z * Z) (s : state rng) :
  ¬ ((- Z.of_nat (g_plate_size (env s)).1 ≤ position_L.1 < Z.of_nat (g_plate_size (env s)).1)
     ∧ (- Z.of_nat (g_plate_size (env s)).2 ≤ position_L.2
        < Z.of_nat (g_plate_size (env s)).2))%Z →
  ∃ h', generate_plate_at randbelow position_L s
        = ({| env := env s; heap := h'; rand := rand s |}, inl IndexError)
        ∧ ∀ l, is_Some (heap s !! l) → h' !! l = heap s !! l.
Proof.
  intros Hout. unfold generate_plate_at.
  destruct (new_plate_spec (g_plate_size (env s)).1 (g_plate_size (env s)).2 s)
    as (plate & h1 & Hnew & Hlen & _ & Hfresh & Hframe & Hread).
  exists h1. split.
  - unfold bind at 1. rewrite Hnew. unfold bind at 1, setitem2_at. rewrite Hlen.
    destruct (list_index (g_plate_size (env s)).1 position_L.1) as [r'|] eqn:Hr; [|done].
    simpl. apply list_index_lt in Hr as Hlt.
    destruct (lookup_lt_is_Some_2 plate r') as [l Hl]; [lia|]. rewrite Hl. cbn [heap].
    rewrite (new_rows_length h1 plate _ _ l Hread) by (by eapply list_elem_of_lookup_2).
    assert (Hc : list_index (g_plate_size (env s)).2 position_L.2 = None).
    { apply list_index_None. intros Hc. apply Hout. split; [|done].
      destruct (list_index_None (g_plate_size (env s)).1 position_L.1) as [_ H].
      destruct (decide (- Z.of_nat (g_plate_size (env s)).1 ≤ position_L.1
                        < Z.of_nat (g_plate_size (env s)).1)%Z) as [|Hn]; [done|].
      rewrite (H Hn) in Hr. done. }
    by rewrite Hc.
  - intros l [v Hl]. apply Hframe. intros Hin. apply Hfresh in Hin. congruence.
Qed.

Section Bounded.
Hypothesis randbelow_lt : ∀ n g, 0 < n → (randbelow n g).1 < n.

Lemma generate_plate_at_negative (position_L : Z * Z) (s : state rng)
    (objs : list string) :
  let size := g_plate_size (env s) in
  heap s !! g_objects (env s) = Some objs →
  (- Z.of_nat size.1 ≤ position_L.1 < Z.of_nat size.1)%Z →
  (- Z.of_nat size.2 ≤ position_L.2 < Z.of_nat size.2)%Z →
  (position_L.1 < 0 ∨ position_L.2 < 0)%Z →
  ∃ plate s' shuffled r' c',
    generate_plate_at randbelow position_L s = (s', inr plate)
    ∧ list_index size.1 position_L.1 = Some r'
    ∧ list_index size.2 position_L.2 = Some c'
    ∧ shuffled ≡ₚ all_positions size
    ∧ read_plate (heap s') plate
      = tabulate size (assign_fn objs shuffled (upd (λ _, EmptyString) (r', c') "L")).
Proof.
  intros size Hobjs Hr Hc Hneg. unfold generate_plate_at.
  destruct (new_plate_spec size.1 size.2 s)
    as (plate & h1 & Hnew & Hlen & Hnd & Hfresh & Hframe1 & Hread1).
  fold size. unfold bind at 1. rewrite Hnew.
  set (s1 := {| env := env s; heap := h1; rand := rand s |}).
  destruct (list_index size.1 position_L.1) as [r'|] eqn:Hr';
    [|apply list_index_None in Hr'; lia].
  destruct (list_index size.2 position_L.2) as [c'|] eqn:Hc';
    [|apply list_index_None in Hc'; lia].
  apply list_index_lt in Hr' as Hrlt. apply list_index_lt in Hc' as Hclt.
  assert (Hwrap : setitem2_at plate position_L.1 position_L.2 "L" s1
                  = setitem2 plate r' c' "L" s1).
  { apply (setitem2_at_wrap plate _ _ r' c' size.2); [by rewrite Hlen| |done].
    intros l Hl. by eapply new_rows_length. }
  rewrite tabulate_replicate in Hread1.
  destruct (setitem2_spec plate size (λ _, EmptyString) r' c' "L" s1)
    as (h2 & Hset & Hread2 & Hframe2); [done..|].
  unfold bind at 1. rewrite Hwrap, Hset.
  set (s2 := {| env := env s1; heap := h2; rand := rand s1 |}).
  unfold bind at 1, shuffle. rewrite shuffle_from_run, positions_at_negative by done.
  set (ps := all_positions size).
  destruct (shuffle_run_perm randbelow randbelow_lt (length ps - 1) ps (rand s2))
    as (shuffled & Hsh & Hperm).
  { destruct ps; simpl; lia. }
  simpl in Hsh. simpl. rewrite Hsh.
  set (s3 := {| env := env s; heap := h2;
                rand := (shuffle_run randbelow (length ps - 1) ps (rand s)).1 |}).
  assert (Hobjs_nin : g_objects (env s) ∉ plate).
  { intros Hin. apply Hfresh in Hin. by rewrite Hobjs in Hin. }
  destruct (assign_spec (g_objects (env s)) plate size shuffled 0
              (upd (λ _, EmptyString) (r', c') "L") s3)
    as (h3 & Hasg & Hread3 & Hframe3); [done|done|done| |].
  { rewrite Forall_forall. intros p Hp. rewrite Hperm in Hp.
    by apply all_positions_spec in Hp. }
  unfold bind. rewrite Hasg. simpl.
  eexists plate, _, shuffled, r', c'. split; [done|]. split; [done|]. split; [done|].
  split; [done|]. simpl. rewrite Hread3. simpl. do 2 f_equal.
  unfold deref. rewrite Hframe2, Hframe1 by done. by rewrite Hobjs.
Qed.

End Bounded.
End AnyPosition.

(** X2. With a [position_L] that is no index pair of the plate, a negative
    index counting from the end (the row not in [-rows, rows) or the column
    not in [-cols, cols)), [generate_plate] raises [IndexError] at the
    assignment of ['L']: no number has been drawn from the generator, no
    module-level name is rebound and no list object that existed is
    changed. *)
Theorem generate_plate_pin_outside {rng : Type} (randbelow : nat → rng → nat * rng)
    (position_L : Z * Z) (s : state rng) :
  ¬ ((- Z.of_nat (g_plate_size (env s)).1 ≤ position_L.1 < Z.of_nat (g_plate_size (env s)).1)
     ∧ (- Z.of_nat (g_plate_size (env s)).2 ≤ position_L.2
        < Z.of_nat (g_plate_size (env s)).2))%Z →
  (generate_plate_at randbelow position_L s).2 = inl IndexError
  ∧ rand (generate_plate_at randbelow position_L s).1 = rand s
  ∧ env (generate_plate_at randbelow position_L s).1 = env s
  ∧ ∀ l, is_Some (heap s !! l) →
         heap (generate_plate_at randbelow position_L s).1 !! l = heap s !! l.
Proof.
  intros Hout.
  destruct (generate_plate_at_outside randbelow position_L s Hout) as (h' & Hrun & Hframe).
  rewrite Hrun. done.
Qed.

(** X2 on the plate of 4 rows of 6 cells with the logger at (2, -7). *)
Lemma generate_plate_pin_outside_witness :
  (generate_plate_at lcg_randbelow (2, -7)%Z (random_tray_configs.init 69%N)).2
  = inl IndexError
  ∧ rand (generate_plate_at lcg_randbelow (2, -7)%Z (random_tray_configs.init 69%N)).1
    = 69%N
  ∧ env (generate_plate_at lcg_randbelow (2, -7)%Z (random_tray_configs.init 69%N)).1
    = env (random_tray_configs.init 69%N)
  ∧ ∀ l, is_Some (heap (random_tray_configs.init 69%N) !! l) →
         heap (generate_plate_at lcg_randbelow (2, -7)%Z
                 (random_tray_configs.init 69%N)).1 !! l
         = heap (random_tray_configs.init 69%N) !! l.
Proof.
  refine (generate_plate_pin_outside lcg_randbelow (2, -7)%Z
            (random_tray_configs.init 69%N) _).
  simpl. lia.
Defined.

(** X16. A [position_L] with a negative index that is an index pair of the
    plate is accepted, and reserves no cell: ['L'] is written at the cell
    counted from the end, but [available_positions] leaves out no cell (no
    [(r, c)] of the ranges equals the tuple), so the labels of [objects] go
    to all [rows * cols] cells while they last and may overwrite the logger.
    The call returns a plate whose cells hold the first [rows * cols] labels
    and, if those are fewer, cells left with the empty string or ['L']. *)
Theorem generate_plate_negative_pin {rng : Type} (randbelow : nat → rng → nat * rng)
    (position_L : Z * Z) (s : state rng) (objs : list string) :
  (∀ n g, 0 < n → (randbelow n g).1 < n) →
  heap s !! g_objects (env s) = Some objs →
  (- Z.of_nat (g_plate_size (env s)).1 ≤ position_L.1 < Z.of_nat (g_plate_size (env s)).1)%Z →
  (- Z.of_nat (g_plate_size (env s)).2 ≤ position_L.2 < Z.of_nat (g_plate_size (env s)).2)%Z →
  (position_L.1 < 0 ∨ position_L.2 < 0)%Z →
  ∃ plate s' rest,
    generate_plate_at randbelow position_L s = (s', inr plate)
    ∧ mjoin (read_plate (heap s') plate)
      ≡ₚ take ((g_plate_size (env s)).1 * (g_plate_size (env s)).2) objs ++ rest
    ∧ length rest = (g_plate_size (env s)).1 * (g_plate_size (env s)).2 - length objs
    ∧ Forall (λ label, label = EmptyString ∨ label = "L") rest.
Proof.
  intros Hlt Hobjs Hr Hc Hneg.
  destruct (generate_plate_at_negative randbelow Hlt position_L s objs Hobjs Hr Hc Hneg)
    as (plate & s' & shuffled & r' & c' & Hrun & _ & _ & Hperm & Hread).
  assert (Hnd : NoDup shuffled) by (rewrite Hperm; apply all_positions_NoDup).
  assert (Hlen : length shuffled = (g_plate_size (env s)).1 * (g_plate_size (env s)).2).
  { by rewrite Hperm, all_positions_length. }
  exists plate, s', (upd (λ _, EmptyString) (r', c') "L" <$> drop (length objs) shuffled).
  split; [done|]. split; [|split].
  - rewrite Hread, join_tabulate, <- Hlen, <- assign_fn_fill by done.
    apply fmap_Permutation. by symmetry.
  - by rewrite length_fmap, length_drop, Hlen.
  - apply Forall_fmap, Forall_forall. intros p _. simpl. unfold upd.
    case_decide; auto.
Qed.

(** X16 on the plate of [random_tray_configs.py] with the logger at (-1, -1). *)
Lemma generate_plate_negative_pin_witness :
  ∃ plate s' rest,
    generate_plate_at lcg_randbelow (-1, -1)%Z (random_tray_configs.init 69%N)
    = (s', inr plate)
    ∧ mjoin (read_plate (heap s') plate) ≡ₚ take (4 * 6) random_tray_configs.objects ++ rest
    ∧ length rest = 4 * 6 - length random_tray_configs.objects
    ∧ Forall (λ label, label = EmptyString ∨ label = "L") rest.
Proof.
  refine (generate_plate_negative_pin lcg_randbelow (-1, -1)%Z
            (random_tray_configs.init 69%N) random_tray_configs.objects
            lcg_randbelow_lt _ _ _ _).
  - reflexivity.
  - simpl; lia.
  - simpl; lia.
  - simpl; lia.
Defined.

(** With the logger at (-1, -1) and the generator state 69 the plate of
    [random_tray_configs.py] comes out without its logger: the cell (3, 5)
    has been given a label. *)
Example negative_pin_loses_logger :
  ∃ plate s',
    generate_plate_at lcg_randbelow (-1, -1)%Z (random_tray_configs.init 69%N)
    = (s', inr plate)
    ∧ "L" ∉ mjoin (read_plate (heap s') plate).
Proof.
  eexists _, _. split; [vm_compute; reflexivity|].
  apply (bool_decide_unpack _). vm_compute. exact I.
Qed.

(** ** A batch of plates *)

Section ScriptFacts.
Context {rng : Type}.
Variable randbelow : nat → rng → nat * rng.
Hypothesis randbelow_lt : ∀ n g, 0 < n → (randbelow n g).1 < n.

Lemma filled_plate_heap (h h' : gmap loc (list string)) (size pos_L : nat * nat)
    (objs : list string) (plate : list loc) :
  (∀ l, l ∈ plate → h' !! l = h !! l) →
  filled_plate h size pos_L objs plate → filled_plate h' size pos_L objs plate.
Proof.
  intros Heq. unfold filled_plate.
  assert (read_plate h' plate = read_plate h plate) as ->; [|done].
  unfold read_plate. apply list_fmap_ext. intros i l Hl. unfold deref.
  rewrite Heq; [done|]. by eapply list_elem_of_lookup_2.
Qed.

Lemma generate_plate_filled (s : state rng) (objs : list string) :
  heap s !! g_objects (env s) = Some objs →
  (g_position_L (env s)).1 < (g_plate_size (env s)).1 →
  (g_position_L (env s)).2 < (g_plate_size (env s)).2 →
  ∃ plate s',
    generate_plate randbelow s = (s', inr plate)
    ∧ env s' = env s
    ∧ NoDup plate
    ∧ (∀ l, l ∈ plate → heap s !! l = None ∧ is_Some (heap s' !! l))
    ∧ (∀ l, l ∉ plate → heap s' !! l = heap s !! l)
    ∧ filled_plate (heap s') (g_plate_size (env s)) (g_position_L (env s)) objs plate.
Proof.
  intros Hobjs Hr Hc.
  destruct (generate_plate_spec randbelow randbelow_lt s objs Hobjs Hr Hc)
    as (plate & h' & shuffled & Hrun & _ & Hperm & Hlen & Hnd & Hfresh & Hframe & Hread).
  eexists plate, _. split; [exact Hrun|]. cbn [env heap].
  split; [done|]. split; [done|]. split; [|split; [done|]].
  - intros l Hl. split; [by apply Hfresh|].
    apply list_elem_of_lookup in Hl as [r Hl].
    assert (Hrow : read_plate h' plate !! r = Some (deref h' l)).
    { unfold read_plate. by rewrite list_lookup_fmap, Hl. }
    apply lookup_lt_Some in Hl as Hrlt. rewrite Hlen in Hrlt.
    rewrite Hread, tabulate_lookup in Hrow by done. injection Hrow as Hrow.
    unfold deref in Hrow. destruct (h' !! l); [done|].
    apply (f_equal length) in Hrow. rewrite length_fmap, length_seq in Hrow.
    simpl in Hrow. lia.
  - unfold filled_plate. rewrite Hread. split; [apply tabulate_length|].
    split; [apply tabulate_shape|]. split; [|by apply final_labels_others].
    apply tabulate_cell. split; [done|]. split; [done|].
    symmetry. by apply final_labels_pinned.
Qed.

Lemma generate_plates_spec (n : nat) (s : state rng) (objs : list string) :
  heap s !! g_objects (env s) = Some objs →
  (g_position_L (env s)).1 < (g_plate_size (env s)).1 →
  (g_position_L (env s)).2 < (g_plate_size (env s)).2 →
  ∃ plates s',
    generate_plates randbelow n s = (s', inr plates)
    ∧ env s' = env s
    ∧ length plates = n
    ∧ NoDup (mjoin plates)
    ∧ (∀ l, l ∈ mjoin plates → heap s !! l = None)
    ∧ (∀ l, l ∉ mjoin plates → heap s' !! l = heap s !! l)
    ∧ Forall (filled_plate (heap s') (g_plate_size (env s)) (g_position_L (env s)) objs)
             plates.
Proof.
  revert s. induction n as [|n IH]; intros s Hobjs Hr Hc.
  - exists [], s. split; [done|]. split; [done|]. split; [done|].
    split; [apply NoDup_nil_2|]. split; [by intros l Hl%elem_of_nil|]. done.
  - destruct (generate_plate_filled s objs Hobjs Hr Hc)
      as (plate & s1 & Hrun & Henv & Hnd & Hfresh & Hframe & Hfilled).
    assert (Hobjs1 : heap s1 !! g_objects (env s1) = Some objs).
    { rewrite Henv, Hframe; [done|]. intros Hin. apply Hfresh in Hin as [Hin _].
      by rewrite Hobjs in Hin. }
    destruct (IH s1 Hobjs1)
      as (plates & s2 & Hruns & Henv2 & Hlen & Hnd2 & Hfresh2 & Hframe2 & Hfilled2);
      [by rewrite Henv..|].
    rewrite Henv in Hfilled2.
    assert (Hdisj : ∀ l, l ∈ plate → l ∉ mjoin plates).
    { intros l Hl Hl2. apply Hfresh2 in Hl2. apply Hfresh in Hl as [_ [? Hsome]].
      congruence. }
    exists (plate :: plates), s2. cbn [generate_plates].
    unfold bind at 1. rewrite Hrun. unfold bind at 1. rewrite Hruns.
    split; [done|]. split; [congruence|]. split; [simpl; lia|].
    split; [|split; [|split]].
    + simpl. apply NoDup_app. done.
    + intros l. simpl. rewrite elem_of_app. intros [Hl|Hl]; [by apply Hfresh|].
      apply Hfresh2 in Hl as Hnone.
      destruct (decide (l ∈ plate)) as [Hin|Hnin]; [by apply Hfresh|].
      by rewrite <- Hframe.
    + intros l. simpl. rewrite elem_of_app. intros Hl.
      rewrite Hframe2, Hframe by tauto. done.
    + apply Forall_cons. split; [|done].
      eapply filled_plate_heap; [|exact Hfilled].
      intros l Hl. apply Hframe2. by apply Hdisj.
Qed.

End ScriptFacts.

(** X3. [[generate_plate() for _ in range(n)]] on a plate with the pinned
    position inside it returns [n] plates. No row object is shared, neither
    between two plates nor between two rows of a plate, and none is an object
    that existed before; the objects that existed are unchanged and no
    module-level name is rebound; every plate, read after the last call, is
    still filled as its own call left it. *)
Theorem generate_plates_fresh_rows {rng : Type} (randbelow : nat → rng → nat * rng)
    (n : nat) (s : state rng) (objs : list string) :
  (∀ n g, 0 < n → (randbelow n g).1 < n) →
  heap s !! g_objects (env s) = Some objs →
  (g_position_L (env s)).1 < (g_plate_size (env s)).1 →
  (g_position_L (env s)).2 < (g_plate_size (env s)).2 →
  ∃ plates s',
    generate_plates randbelow n s = (s', inr plates)
    ∧ env s' = env s
    ∧ length plates = n
    ∧ NoDup (mjoin plates)
    ∧ (∀ l, l ∈ mjoin plates → heap s !! l = None)
    ∧ (∀ l, is_Some (heap s !! l) → heap s' !! l = heap s !! l)
    ∧ Forall (filled_plate (heap s') (g_plate_size (env s)) (g_position_L (env s)) objs)
             plates.
Proof.
  intros Hlt Hobjs Hr Hc.
  destruct (generate_plates_spec randbelow Hlt n s objs Hobjs Hr Hc)
    as (plates & s' & Hrun & Henv & Hlen & Hnd & Hfresh & Hframe & Hfilled).
  exists plates, s'. repeat (split; [done|]). split; [|done].
  intros l [v Hl]. apply Hframe. intros Hin. apply Hfresh in Hin. congruence.
Qed.

(** X3 for three plates of [random-tray-configs.py]. *)
Lemma generate_plates_fresh_rows_witness :
  ∃ plates s',
    generate_plates lcg_randbelow 3 (random_tray_configs_dash.init 69%N) = (s', inr plates)
    ∧ env s' = env (random_tray_configs_dash.init 69%N)
    ∧ length plates = 3
    ∧ NoDup (mjoin plates)
    ∧ (∀ l, l ∈ mjoin plates → heap (random_tray_configs_dash.init 69%N) !! l = None)
    ∧ (∀ l, is_Some (heap (random_tray_configs_dash.init 69%N) !! l) →
            heap s' !! l = heap (random_tray_configs_dash.init 69%N) !! l)
    ∧ Forall (filled_plate (heap s') (4, 6) (2, 2) random_tray_configs_dash.objects) plates.
Proof.
  apply (generate_plates_fresh_rows lcg_randbelow 3 (random_tray_configs_dash.init 69%N)
           random_tray_configs_dash.objects).
  - exact lcg_randbelow_lt.
  - reflexivity.
  - simpl; lia.
  - simpl; lia.
Defined.

(** ** Display *)

Section DisplayFacts.
Variable symbol_map : gmap string string.

Lemma first_missing_app (a b : list string) :
  first_missing symbol_map (a ++ b)
  = match first_missing symbol_map a with
    | Some k => Some k
    | None => first_missing symbol_map b
    end.
Proof.
  induction a as [|c a IH]; [done|]. simpl. by destruct (symbol_map !! c).
Qed.

Lemma first_missing_prefix (pre : list string) (k : string) (post : list string) :
  Forall (λ c, is_Some (symbol_map !! c)) pre → symbol_map !! k = None →
  first_missing symbol_map (pre ++ k :: post) = Some k.
Proof.
  intros Hpre Hk. induction Hpre as [|c pre [v Hc] _ IH]; simpl.
  - by rewrite Hk.
  - by rewrite Hc.
Qed.

Lemma first_missing_None (labels : list string) :
  Forall (λ c, is_Some (symbol_map !! c)) labels →
  first_missing symbol_map labels = None.
Proof.
  induction 1 as [|c labels [v Hc] _ IH]; [done|]. simpl. by rewrite Hc.
Qed.

Lemma first_missing_only (labels : list string) (k : string) :
  k ∈ labels → symbol_map !! k = None →
  (∀ c, c ∈ labels → symbol_map !! c = None → c = k) →
  first_missing symbol_map labels = Some k.
Proof.
  intros Hin Hk Honly. induction labels as [|c labels IH]; [by apply elem_of_nil in Hin|].
  simpl. destruct (symbol_map !! c) as [v|] eqn:Hc.
  - apply IH.
    + apply elem_of_cons in Hin as [->|Hin]; [congruence|done].
    + intros c' Hc'. apply Honly. by right.
  - f_equal. apply Honly; [by left|done].
Qed.

Lemma render_row_missing (row : list string) (k : string) :
  first_missing symbol_map row = Some k →
  render_row symbol_map row = inl (KeyError k).
Proof.
  induction row as [|c row IH]; [done|]. simpl.
  destruct (symbol_map !! c); [|by intros [= ->]].
  intros Hk. by rewrite IH.
Qed.

Lemma render_row_present (row : list string) :
  first_missing symbol_map row = None →
  ∃ symbols, render_row symbol_map row = inr symbols
             ∧ Forall2 (λ label symbol, symbol_map !! label = Some symbol) row symbols.
Proof.
  induction row as [|c row IH]; [by exists []|]. simpl.
  destruct (symbol_map !! c) as [v|] eqn:Hc; [|done].
  intros (symbols & -> & Hall)%IH. exists (v :: symbols). split; [done|].
  by apply Forall2_cons.
Qed.

Lemma add_rows_missing (h : gmap loc (list string)) (plate : list loc) (t : table)
    (k : string) :
  first_missing symbol_map (mjoin (read_plate h plate)) = Some k →
  add_rows symbol_map h plate t = inl (KeyError k).
Proof.
  revert t. induction plate as [|row plate IH]; intros t; [done|].
  cbn [read_plate fmap list_fmap mjoin list_join add_rows]. rewrite first_missing_app.
  destruct (first_missing symbol_map (deref h row)) as [k'|] eqn:Hrow.
  - intros [= ->]. by rewrite (render_row_missing _ _ Hrow).
  - destruct (render_row_present _ Hrow) as (symbols & -> & _). apply IH.
Qed.

Lemma add_rows_present (h : gmap loc (list string)) (plate : list loc) (t : table) :
  first_missing symbol_map (mjoin (read_plate h plate)) = None →
  ∃ rows,
    add_rows symbol_map h plate t
    = inr {| added_columns := added_columns t; added_rows := added_rows t ++ rows |}
    ∧ Forall2 (Forall2 (λ label symbol, symbol_map !! label = Some symbol))
              (read_plate h plate) rows.
Proof.
  revert t. induction plate as [|row plate IH]; intros t.
  - exists []. simpl. rewrite app_nil_r. by destruct t.
  - cbn [read_plate fmap list_fmap mjoin list_join add_rows]. rewrite first_missing_app.
    destruct (first_missing symbol_map (deref h row)) as [k'|] eqn:Hrow; [done|].
    destruct (render_row_present _ Hrow) as (symbols & -> & Hsym).
    intros Hrest.
    destruct (IH {| added_columns := added_columns t;
                    added_rows := added_rows t ++ [symbols] |} Hrest)
      as (rows & -> & Hrows).
    exists (symbols :: rows). cbn [added_columns added_rows].
    rewrite <- app_assoc. split; [done|]. by apply Forall2_cons.
Qed.

End DisplayFacts.

Lemma cell_join (grid : list (list string)) (size p : nat * nat) (x : string) :
  Forall (λ row, length row = size.2) grid →
  cell grid p = Some x →
  mjoin grid !! (p.1 * size.2 + p.2) = Some x.
Proof.
  intros Hshape Hcell. unfold cell in Hcell.
  destruct (grid !! p.1) as [row|] eqn:Hrow; [|done]. simpl in Hcell.
  apply join_lookup_Some_same_length'; [done| |by exists row].
  rewrite Forall_forall in Hshape. rewrite <- (Hshape row).
  - by eapply lookup_lt_Some.
  - by eapply list_elem_of_lookup_2.
Qed.

Lemma filled_plate_labels (h : gmap loc (list string)) (size pos_L : nat * nat)
    (objs : list string) (plate : list loc) :
  filled_plate h size pos_L objs plate →
  mjoin (read_plate h plate)
  ≡ₚ "L" :: take (size.1 * size.2 - 1) objs
            ++ replicate (size.1 * size.2 - 1 - length objs) EmptyString.
Proof.
  intros (_ & Hshape & Hcell & Hoth). rewrite <- Hoth. unfold others.
  apply delete_Permutation. by apply cell_join.
Qed.

(** X4. [display_plate] looks the labels of a plate up in [symbol_map] row by
    row and cell by cell: at the first label that is not a key it raises
    [KeyError] of that label, and it has printed nothing then, neither the
    title nor a part of the table. *)
Theorem display_plate_key_error {rng : Type} (symbol_map : gmap string string)
    (s : state rng) (plate : list loc) (n : plate_number) (out : list printed)
    (before : list string) (label : string) (after : list string) :
  mjoin (read_plate (heap s) plate) = before ++ label :: after →
  Forall (λ c, is_Some (symbol_map !! c)) before →
  symbol_map !! label = None →
  display_plate symbol_map s plate n out = (out, inl (KeyError label)).
Proof.
  intros Hgrid Hbefore Hlabel. unfold display_plate.
  rewrite (add_rows_missing symbol_map (heap s) plate _ label); [done|].
  rewrite Hgrid. by apply first_missing_prefix.
Qed.

(** X4 on a plate of two rows of two cells, the label ["?"] in the second row. *)
Lemma display_plate_key_error_witness :
  display_plate random_tray_configs.symbol_map
    {| env := {| g_objects := 1%positive; g_plate_size := (2, 2); g_position_L := (0, 0) |};
       heap := {[ 2%positive := ["L"; "C"]; 3%positive := ["?"; "E"] ]};
       rand := 69%N |}
    [2%positive; 3%positive] (PlateInt 1) []
  = ([], inl (KeyError "?")).
Proof.
  apply (display_plate_key_error random_tray_configs.symbol_map _ _ _ _
           ["L"; "C"] "?" ["E"]).
  - reflexivity.
  - repeat constructor; by eexists.
  - reflexivity.
Defined.

Lemma display_plate_returns {rng : Type} (symbol_map : gmap string string)
    (s : state rng) (plate : list loc) (n : plate_number) (out : list printed) :
  Forall (λ c, is_Some (symbol_map !! c)) (mjoin (read_plate (heap s) plate)) →
  ∃ rows,
    display_plate symbol_map s plate n out
    = (out ++ [PrintTitle n;
               PrintTable {| added_columns := (g_plate_size (env s)).2;
                             added_rows := rows |}], inr tt)
    ∧ Forall2 (Forall2 (λ label symbol, symbol_map !! label = Some symbol))
              (read_plate (heap s) plate) rows.
Proof.
  intros Hkeys. unfold display_plate.
  destruct (add_rows_present symbol_map (heap s) plate
              {| added_columns := (g_plate_size (env s)).2; added_rows := [] |}
              (first_missing_None symbol_map _ Hkeys))
    as (rows & -> & Hrows).
  by exists rows.
Qed.

Lemma display_plate_raises {rng : Type} (symbol_map : gmap string string)
    (s : state rng) (plate : list loc) (n : plate_number) (out : list printed)
    (k : string) :
  first_missing symbol_map (mjoin (read_plate (heap s) plate)) = Some k →
  display_plate symbol_map s plate n out = (out, inl (KeyError k)).
Proof.
  intros Hk. unfold display_plate.
  by rewrite (add_rows_missing symbol_map (heap s) plate _ k).
Qed.

(** X5. When every label of the plate is a key of [symbol_map],
    [display_plate] raises nothing and prints, after what was printed before,
    the title and then one table: it has [plate_size[1]] columns and, for
    every row of the plate, in their order, a row of the symbols of its
    labels. *)
Theorem display_plate_prints {rng : Type} (symbol_map : gmap string string)
    (s : state rng) (plate : list loc) (n : plate_number) (out : list printed) :
  Forall (λ c, is_Some (symbol_map !! c)) (mjoin (read_plate (heap s) plate)) →
  ∃ rows,
    display_plate symbol_map s plate n out
    = (out ++ [PrintTitle n;
               PrintTable {| added_columns := (g_plate_size (env s)).2;
                             added_rows := rows |}], inr tt)
    ∧ Forall2 (Forall2 (λ label symbol, symbol_map !! label = Some symbol))
              (read_plate (heap s) plate) rows.
Proof. apply display_plate_returns. Qed.

(** X5 on a plate of two rows of two cells. *)
Lemma display_plate_prints_witness :
  ∃ rows,
    display_plate random_tray_configs.symbol_map
      {| env := {| g_objects := 1%positive; g_plate_size := (2, 2); g_position_L := (0, 0) |};
         heap := {[ 2%positive := ["L"; "C"]; 3%positive := ["P. abies"; "C"] ]};
         rand := 69%N |}
      [2%positive; 3%positive] (PlateStr "test plate") []
    = ([] ++ [PrintTitle (PlateStr "test plate");
              PrintTable {| added_columns := 2; added_rows := rows |}], inr tt)
    ∧ Forall2 (Forall2 (λ label symbol,
                          random_tray_configs.symbol_map !! label = Some symbol))
              (read_plate {[ 2%positive := ["L"; "C"]; 3%positive := ["P. abies"; "C"] ]}
                          [2%positive; 3%positive]) rows.
Proof.
  refine (display_plate_prints random_tray_configs.symbol_map
            {| env := {| g_objects := 1%positive; g_plate_size := (2, 2);
                         g_position_L := (0, 0) |};
               heap := {[ 2%positive := ["L"; "C"]; 3%positive := ["P. abies"; "C"] ]};
               rand := 69%N |}
            [2%positive; 3%positive] (PlateStr "test plate") [] _).
  repeat constructor; by eexists.
Defined.

(** ** The body of the scripts *)

(** The tables of a batch of plates: the [i]-th has the columns of the plate
    size and the symbols of the [i]-th plate. *)
Lemma display_plates_prints {rng : Type} (symbol_map : gmap string string)
    (s : state rng) (plates : list (list loc)) (i : nat) (out : list printed) :
  Forall (λ plate, Forall (λ c, is_Some (symbol_map !! c))
                          (mjoin (read_plate (heap s) plate))) plates →
  ∃ tables,
    display_plates symbol_map s plates i out
    = (out ++ mjoin (zip_with (λ j t, [PrintTitle (PlateInt j); PrintTable t])
                              (seq i (length plates)) tables), inr tt)
    ∧ Forall2 (λ plate t,
                 added_columns t = (g_plate_size (env s)).2
                 ∧ Forall2 (Forall2 (λ label symbol, symbol_map !! label = Some symbol))
                           (read_plate (heap s) plate) (added_rows t))
              plates tables.
Proof.
  intros Hkeys. revert i out.
  induction Hkeys as [|plate plates Hplate _ IH]; intros i out.
  - exists []. simpl. by rewrite app_nil_r.
  - destruct (display_plate_returns symbol_map s plate (PlateInt i) out Hplate)
      as (rows & Hd & Hrows).
    cbn [display_plates]. rewrite Hd.
    destruct (IH (S i) (out ++ [PrintTitle (PlateInt i);
                                PrintTable {| added_columns := (g_plate_size (env s)).2;
                                              added_rows := rows |}]))
      as (tables & -> & Htables).
    exists ({| added_columns := (g_plate_size (env s)).2; added_rows := rows |} :: tables).
    split; [|by apply Forall2_cons].
    cbn [length seq zip_with mjoin list_join]. by rewrite <- app_assoc.
Qed.

Section ScriptRuns.
Context {rng : Type}.
Variable randbelow : nat → rng → nat * rng.
Hypothesis randbelow_lt : ∀ n g, 0 < n → (randbelow n g).1 < n.
Variable symbol_map : gmap string string.

(** The labels of a filled plate are keys when ['L'] and the labels of
    [objects] are and [objects] has a label for every free cell. *)
Lemma filled_plate_keys (h : gmap loc (list string)) (size pos_L : nat * nat)
    (objs : list string) (plate : list loc) :
  (size.1 * size.2 - 1 ≤ length objs)%nat →
  is_Some (symbol_map !! "L") →
  Forall (λ c, is_Some (symbol_map !! c)) objs →
  filled_plate h size pos_L objs plate →
  Forall (λ c, is_Some (symbol_map !! c)) (mjoin (read_plate h plate)).
Proof.
  intros Hlen HL Hobjs Hfilled. rewrite (filled_plate_labels _ _ _ _ _ Hfilled).
  apply Forall_cons. split; [done|]. apply Forall_app. split.
  - by apply Forall_take.
  - replace (size.1 * size.2 - 1 - length objs) with 0 by lia. constructor.
Qed.

(** The first label of a filled plate that [symbol_map] has not, when there
    is only one such label. *)
Lemma filled_plate_first_missing (h : gmap loc (list string)) (size pos_L : nat * nat)
    (objs : list string) (plate : list loc) (k : string) :
  is_Some (symbol_map !! "L") →
  k ∈ take (size.1 * size.2 - 1) objs
      ++ replicate (size.1 * size.2 - 1 - length objs) EmptyString →
  symbol_map !! k = None →
  Forall (λ c, symbol_map !! c = None → c = k)
         (take (size.1 * size.2 - 1) objs
          ++ replicate (size.1 * size.2 - 1 - length objs) EmptyString) →
  filled_plate h size pos_L objs plate →
  first_missing symbol_map (mjoin (read_plate h plate)) = Some k.
Proof.
  intros [v HL] Hin Hk Honly Hfilled.
  pose proof (filled_plate_labels _ _ _ _ _ Hfilled) as Hperm.
  apply first_missing_only; [|done|].
  - rewrite Hperm. by right.
  - intros c Hc Hnone. rewrite Hperm in Hc.
    apply elem_of_cons in Hc as [->|Hc]; [congruence|].
    rewrite Forall_forall in Honly. by apply Honly.
Qed.

End ScriptRuns.

(** X6. The body of a script with [TEST] set: when the pinned position is a
    cell of the plate, [objects] has a label for every other cell, and ['L']
    and the labels of [objects] are keys of [symbol_map], the script raises
    nothing. It prints the title and one table, with [plate_size[1]] columns
    and the symbols of the generated plate row by row, and that plate is
    filled as [generate_plate] fills it. *)
Theorem main_test_prints_plate {rng : Type} (randbelow : nat → rng → nat * rng)
    (title : string) (num_plates : nat) (symbol_map : gmap string string)
    (s : state rng) (objs : list string) (out : list printed) :
  (∀ n g, 0 < n → (randbelow n g).1 < n) →
  heap s !! g_objects (env s) = Some objs →
  (g_position_L (env s)).1 < (g_plate_size (env s)).1 →
  (g_position_L (env s)).2 < (g_plate_size (env s)).2 →
  ((g_plate_size (env s)).1 * (g_plate_size (env s)).2 - 1 ≤ length objs)%nat →
  is_Some (symbol_map !! "L") →
  Forall (λ c, is_Some (symbol_map !! c)) objs →
  ∃ plate s' rows,
    generate_plate randbelow s = (s', inr plate)
    ∧ main randbelow true title num_plates symbol_map s out
      = (s', out ++ [PrintTitle (PlateStr title);
                     PrintTable {| added_columns := (g_plate_size (env s)).2;
                                   added_rows := rows |}], inr tt)
    ∧ Forall2 (Forall2 (λ label symbol, symbol_map !! label = Some symbol))
              (read_plate (heap s') plate) rows
    ∧ filled_plate (heap s') (g_plate_size (env s)) (g_position_L (env s)) objs plate.
Proof.
  intros Hlt Hobjs Hr Hc Hlen HL Hkeys.
  destruct (generate_plate_filled randbelow Hlt s objs Hobjs Hr Hc)
    as (plate & s' & Hrun & Henv & _ & _ & _ & Hfilled).
  destruct (display_plate_returns symbol_map s' plate (PlateStr title) out
              (filled_plate_keys symbol_map _ _ _ _ _ Hlen HL Hkeys Hfilled))
    as (rows & Hd & Hrows).
  exists plate, s', rows. split; [done|]. unfold main. rewrite Hrun, Hd, Henv. done.
Qed.

(** X6 for [random_tray_configs.py], where [TEST] is set. *)
Lemma main_test_prints_plate_witness :
  ∃ plate s' rows,
    generate_plate lcg_randbelow (random_tray_configs.init 69%N) = (s', inr plate)
    ∧ main lcg_randbelow true "test plate" random_tray_configs.num_plates
        random_tray_configs.symbol_map (random_tray_configs.init 69%N) []
      = (s', [] ++ [PrintTitle (PlateStr "test plate");
                    PrintTable {| added_columns := 6; added_rows := rows |}], inr tt)
    ∧ Forall2 (Forall2 (λ label symbol,
                          random_tray_configs.symbol_map !! label = Some symbol))
              (read_plate (heap s') plate) rows
    ∧ filled_plate (heap s') (4, 6) (2, 2) random_tray_configs.objects plate.
Proof.
  refine (main_test_prints_plate lcg_randbelow "test plate" random_tray_configs.num_plates
            random_tray_configs.symbol_map (random_tray_configs.init 69%N)
            random_tray_configs.objects [] lcg_randbelow_lt _ _ _ _ _ _).
  - reflexivity.
  - simpl; lia.
  - simpl; lia.
  - simpl; lia.
  - by eexists.
  - repeat constructor; by eexists.
Defined.

(** X7. The body of a script with [TEST] unset, under the conditions of X6:
    the script raises nothing. It generates [num_plates] plates and then
    prints, for each of them in the order of their generation, the title with
    its number, counted from 1, and its table. *)
Theorem main_batch_prints_plates {rng : Type} (randbelow : nat → rng → nat * rng)
    (title : string) (num_plates : nat) (symbol_map : gmap string string)
    (s : state rng) (objs : list string) (out : list printed) :
  (∀ n g, 0 < n → (randbelow n g).1 < n) →
  heap s !! g_objects (env s) = Some objs →
  (g_position_L (env s)).1 < (g_plate_size (env s)).1 →
  (g_position_L (env s)).2 < (g_plate_size (env s)).2 →
  ((g_plate_size (env s)).1 * (g_plate_size (env s)).2 - 1 ≤ length objs)%nat →
  is_Some (symbol_map !! "L") →
  Forall (λ c, is_Some (symbol_map !! c)) objs →
  ∃ plates s' tables,
    generate_plates randbelow num_plates s = (s', inr plates)
    ∧ length plates = num_plates
    ∧ main randbelow false title num_plates symbol_map s out
      = (s', out ++ mjoin (zip_with (λ i t, [PrintTitle (PlateInt i); PrintTable t])
                                    (seq 1 num_plates) tables), inr tt)
    ∧ Forall2 (λ plate t,
                 added_columns t = (g_plate_size (env s)).2
                 ∧ Forall2 (Forall2 (λ label symbol, symbol_map !! label = Some symbol))
                           (read_plate (heap s') plate) (added_rows t))
              plates tables.
Proof.
  intros Hlt Hobjs Hr Hc Hlen HL Hkeys.
  destruct (generate_plates_spec randbelow Hlt num_plates s objs Hobjs Hr Hc)
    as (plates & s' & Hrun & Henv & Hn & _ & _ & _ & Hfilled).
  destruct (display_plates_prints symbol_map s' plates 1 out) as (tables & Hd & Htables).
  { eapply Forall_impl; [exact Hfilled|]. intros plate.
    by apply filled_plate_keys. }
  exists plates, s', tables. split; [done|]. split; [done|].
  unfold main. rewrite Hrun, Hd, Hn. rewrite Henv in Htables. done.
Qed.

(** X7 for [random-tray-configs.py], where [TEST] is unset. *)
Lemma main_batch_prints_plates_witness :
  ∃ plates s' tables,
    generate_plates lcg_randbelow random_tray_configs_dash.num_plates
      (random_tray_configs_dash.init 69%N) = (s', inr plates)
    ∧ length plates = random_tray_configs_dash.num_plates
    ∧ main lcg_randbelow false "test" random_tray_configs_dash.num_plates
        random_tray_configs_dash.symbol_map (random_tray_configs_dash.init 69%N) []
      = (s', [] ++ mjoin (zip_with (λ i t, [PrintTitle (PlateInt i); PrintTable t])
                                   (seq 1 random_tray_configs_dash.num_plates) tables),
         inr tt)
    ∧ Forall2 (λ plate t,
                 added_columns t = 6
                 ∧ Forall2 (Forall2 (λ label symbol,
                                       random_tray_configs_dash.symbol_map !! label
                                       = Some symbol))
                           (read_plate (heap s') plate) (added_rows t))
              plates tables.
Proof.
  refine (main_batch_prints_plates lcg_randbelow "test" random_tray_configs_dash.num_plates
            random_tray_configs_dash.symbol_map (random_tray_configs_dash.init 69%N)
            random_tray_configs_dash.objects [] lcg_randbelow_lt _ _ _ _ _ _).
  - reflexivity.
  - simpl; lia.
  - simpl; lia.
  - simpl; lia.
  - by eexists.
  - repeat constructor; by eexists.
Defined.

(** X8. A label of [objects] that [symbol_map] has not stops the script: when
    [objects] has a label for every free cell, ['L'] is a key and, among the
    labels that reach the plate, [label] is the one that is not a key, the body
    with [TEST] set generates the plate, raises [KeyError] of [label] and
    prints nothing. *)
Theorem main_unknown_label {rng : Type} (randbelow : nat → rng → nat * rng)
    (title : string) (num_plates : nat) (symbol_map : gmap string string)
    (s : state rng) (objs : list string) (label : string) (out : list printed) :
  (∀ n g, 0 < n → (randbelow n g).1 < n) →
  heap s !! g_objects (env s) = Some objs →
  (g_position_L (env s)).1 < (g_plate_size (env s)).1 →
  (g_position_L (env s)).2 < (g_plate_size (env s)).2 →
  ((g_plate_size (env s)).1 * (g_plate_size (env s)).2 - 1 ≤ length objs)%nat →
  is_Some (symbol_map !! "L") →
  label ∈ take ((g_plate_size (env s)).1 * (g_plate_size (env s)).2 - 1) objs →
  symbol_map !! label = None →
  Forall (λ c, symbol_map !! c = None → c = label)
         (take ((g_plate_size (env s)).1 * (g_plate_size (env s)).2 - 1) objs) →
  ∃ plate s',
    generate_plate randbelow s = (s', inr plate)
    ∧ main randbelow true title num_plates symbol_map s out
      = (s', out, inl (KeyError label)).
Proof.
  intros Hlt Hobjs Hr Hc Hlen HL Hin Hlabel Honly.
  destruct (generate_plate_filled randbelow Hlt s objs Hobjs Hr Hc)
    as (plate & s' & Hrun & Henv & _ & _ & _ & Hfilled).
  exists plate, s'. split; [done|]. unfold main. rewrite Hrun.
  rewrite (display_plate_raises symbol_map s' plate _ out label); [done|].
  eapply filled_plate_first_missing; [done| |done| |exact Hfilled].
  - apply elem_of_app. by left.
  - replace ((g_plate_size (env s)).1 * (g_plate_size (env s)).2 - 1 - length objs)
      with 0 by lia.
    simpl. by rewrite app_nil_r.
Qed.

(** X8 for the plate of [random_tray_configs.py] shown with the [symbol_map]
    of [random-tray-configs.py], which has no key ['C']. *)
Lemma main_unknown_label_witness :
  ∃ plate s',
    generate_plate lcg_randbelow (random_tray_configs.init 69%N) = (s', inr plate)
    ∧ main lcg_randbelow true "test plate" random_tray_configs.num_plates
        random_tray_configs_dash.symbol_map (random_tray_configs.init 69%N) []
      = (s', [], inl (KeyError "C")).
Proof.
  refine (main_unknown_label lcg_randbelow "test plate" random_tray_configs.num_plates
            random_tray_configs_dash.symbol_map (random_tray_configs.init 69%N)
            random_tray_configs.objects "C" [] lcg_randbelow_lt _ _ _ _ _ _ _ _).
  - reflexivity.
  - simpl; lia.
  - simpl; lia.
  - simpl; lia.
  - by eexists.
  - apply (bool_decide_unpack _). vm_compute. exact I.
  - reflexivity.
  - apply (bool_decide_unpack _). vm_compute. exact I.
Defined.

(** X9. A list [objects] with fewer labels than the plate has free cells
    gives a plate that cannot be shown: when ['L'] and the labels of
    [objects] are keys of [symbol_map] and the empty string is not,
    [generate_plate] returns and [display_plate] of its plate raises
    [KeyError] of the empty string, the label of the cells left over, and
    prints nothing. *)
Theorem short_objects_plate_not_displayed {rng : Type} (randbelow : nat → rng → nat * rng)
    (symbol_map : gmap string string) (s : state rng) (objs : list string)
    (n : plate_number) (out : list printed) :
  (∀ n g, 0 < n → (randbelow n g).1 < n) →
  heap s !! g_objects (env s) = Some objs →
  (g_position_L (env s)).1 < (g_plate_size (env s)).1 →
  (g_position_L (env s)).2 < (g_plate_size (env s)).2 →
  length objs < (g_plate_size (env s)).1 * (g_plate_size (env s)).2 - 1 →
  is_Some (symbol_map !! "L") →
  Forall (λ c, is_Some (symbol_map !! c)) objs →
  symbol_map !! EmptyString = None →
  ∃ plate s',
    generate_plate randbelow s = (s', inr plate)
    ∧ display_plate symbol_map s' plate n out = (out, inl (KeyError EmptyString)).
Proof.
  intros Hlt Hobjs Hr Hc Hlen HL Hkeys Hempty.
  destruct (generate_plate_filled randbelow Hlt s objs Hobjs Hr Hc)
    as (plate & s' & Hrun & Henv & _ & _ & _ & Hfilled).
  exists plate, s'. split; [done|]. apply display_plate_raises.
  eapply filled_plate_first_missing; [done| |done| |exact Hfilled].
  - apply elem_of_app. right. apply elem_of_replicate. split; [done|lia].
  - apply Forall_app. split.
    + apply Forall_take. eapply Forall_impl; [exact Hkeys|].
      intros c [v Hv] Hnone. congruence.
    + apply Forall_replicate. done.
Qed.

(** X9 with 22 labels on the plate of 4 rows of 6 cells. *)
Lemma short_objects_plate_not_displayed_witness :
  ∃ plate s',
    generate_plate lcg_randbelow
      (script_state (drop 1 random_tray_configs.objects) (4, 6) (2, 2) 69%N) = (s', inr plate)
    ∧ display_plate random_tray_configs.symbol_map s' plate (PlateStr "test plate") []
      = ([], inl (KeyError EmptyString)).
Proof.
  refine (short_objects_plate_not_displayed lcg_randbelow random_tray_configs.symbol_map
            (script_state (drop 1 random_tray_configs.objects) (4, 6) (2, 2) 69%N)
            (drop 1 random_tray_configs.objects) (PlateStr "test plate") []
            lcg_randbelow_lt _ _ _ _ _ _ _).
  - reflexivity.
  - simpl; lia.
  - simpl; lia.
  - simpl; lia.
  - by eexists.
  - repeat constructor; by eexists.
  - reflexivity.
Defined.

(** X15. Where a label goes does not depend on what the label is: from the
    same generator state, on the same plate, two lists [objects] of which the
    second is the first relabelled (by a map that keeps ['L'] and the empty
    string) give the same grid up to that relabelling, and leave the
    generator in the same state. *)
Theorem generate_plate_relabel {rng : Type} (randbelow : nat → rng → nat * rng)
    (h : string → string) (s1 s2 : state rng) (objs : list string) :
  (∀ n g, 0 < n → (randbelow n g).1 < n) →
  env s1 = env s2 →
  rand s1 = rand s2 →
  heap s1 !! g_objects (env s1) = Some objs →
  heap s2 !! g_objects (env s2) = Some (h <$> objs) →
  (g_position_L (env s1)).1 < (g_plate_size (env s1)).1 →
  (g_position_L (env s1)).2 < (g_plate_size (env s1)).2 →
  h EmptyString = EmptyString →
  h "L" = "L" →
  ∃ plate1 s1' plate2 s2',
    generate_plate randbelow s1 = (s1', inr plate1)
    ∧ generate_plate randbelow s2 = (s2', inr plate2)
    ∧ (λ row : list string, h <$> row) <$> read_plate (heap s1') plate1
      = read_plate (heap s2') plate2
    ∧ rand s1' = rand s2'.
Proof.
  intros Hlt Henv Hrand Hobjs1 Hobjs2 Hr Hc He HL.
  destruct (generate_plate_spec randbelow Hlt s1 objs)
    as (p1 & h1 & sh1 & Hrun1 & Hsh1 & _ & _ & _ & _ & _ & Hread1); [done..|].
  destruct (generate_plate_spec randbelow Hlt s2 (h <$> objs))
    as (p2 & h2 & sh2 & Hrun2 & Hsh2 & _ & _ & _ & _ & _ & Hread2);
    [done|by rewrite <- Henv..|].
  rewrite <- Henv in Hrun2, Hsh2, Hread2. rewrite <- Hrand in Hrun2, Hsh2.
  rewrite Hsh1 in Hsh2. injection Hsh2 as <-.
  eexists p1, _, p2, _. split; [exact Hrun1|]. split; [exact Hrun2|].
  split; [|reflexivity]. cbn [heap]. rewrite Hread1, Hread2, tabulate_fmap.
  apply tabulate_ext. intros p. cbn [compose]. by rewrite final_labels_fmap.
Qed.

(** X15 on the plate of [random_tray_configs.py] and the relabelling of
    ['C'] to ['E'], which gives the labels of [random-tray-configs.py]. *)
Lemma generate_plate_relabel_witness :
  ∃ plate1 s1' plate2 s2',
    generate_plate lcg_randbelow (random_tray_configs.init 69%N) = (s1', inr plate1)
    ∧ generate_plate lcg_randbelow (random_tray_configs_dash.init 69%N) = (s2', inr plate2)
    ∧ (λ row : list string, (λ label, if decide (label = "C") then "E" else label) <$> row)
      <$> read_plate (heap s1') plate1
      = read_plate (heap s2') plate2
    ∧ rand s1' = rand s2'.
Proof.
  refine (generate_plate_relabel lcg_randbelow
            (λ label, if decide (label = "C") then "E" else label)
            (random_tray_configs.init 69%N) (random_tray_configs_dash.init 69%N)
            random_tray_configs.objects lcg_randbelow_lt _ _ _ _ _ _ _ _).
  - reflexivity.
  - reflexivity.
  - reflexivity.
  - reflexivity.
  - simpl; lia.
  - simpl; lia.
  - reflexivity.
  - reflexivity.
Defined.

(** ** Exact and monotone counts *)

Section ExactFacts.
Local Open Scope Z_scope.
Local Open Scope Q_scope.

Lemma rounds_to_zero : rounds_to 0 0.
Proof.
  apply (rounds_to_comp (inject_Z 0 * bpow (emin prec emax))
           0 (inject_Z 0 * bpow (emin prec emax)) 0); [ring|ring|].
  apply rounds_to_exact. unfold canon_float. split; [done|]. split; [done|by left].
Qed.

Lemma rounds_to_unique (x v v' : Q) : rounds_to x v → rounds_to x v' → v == v'.
Proof.
  intros H H'. apply Qle_antisym; eapply rounds_to_mono; try eassumption; apply Qle_refl.
Qed.

Lemma rounds_to_canon (x v : Q) (m e : Z) :
  rounds_to x v → canon_float m e → x == inject_Z m * bpow e → v == x.
Proof.
  intros Hv Hc Hx. apply (rounds_to_unique x); [done|].
  apply (rounds_to_comp (inject_Z m * bpow e) x (inject_Z m * bpow e) x);
    [by symmetry|by symmetry|]. by apply rounds_to_exact.
Qed.

(** A mantissa of at most [prec] digits at an exponent of the format is a
    number of the format. *)
Lemma dyadic_canon (m e : Z) :
  (0 <= m < 2 ^ prec)%Z → (emin prec emax <= e)%Z →
  ∃ m' e', canon_float m' e' ∧ inject_Z m' * bpow e' == inject_Z m * bpow e.
Proof.
  intros [Hm Hhi] He. destruct (Z_lt_le_dec 0 m) as [Hpos|Hzero].
  - destruct (Zdigits2_spec m Hpos) as [[Hdlo Hdhi] Hd].
    set (d := Zdigits2 m) in *.
    assert (Hdp : (d <= prec)%Z).
    { assert (2 ^ (d - 1) < 2 ^ prec)%Z by lia.
      apply Z.pow_lt_mono_r_iff in H; unfold prec in *; lia. }
    set (e' := Z.max (e + d - prec) (emin prec emax)).
    assert (Hk : (0 <= e - e' <= prec - d)%Z) by (unfold e'; lia).
    exists (m * 2 ^ (e - e'))%Z, e'. split.
    + unfold canon_float.
      assert (Hpk : (0 < 2 ^ (e - e'))%Z) by (apply Z.pow_pos_nonneg; lia).
      assert (Hle : (2 ^ (e - e') <= 2 ^ (prec - d))%Z) by (apply Z.pow_le_mono_r; lia).
      assert (Hp : (2 ^ prec = 2 ^ d * 2 ^ (prec - d))%Z).
      { rewrite <- Z.pow_add_r by lia. f_equal. lia. }
      assert (0 < 2 ^ d)%Z by (apply Z.pow_pos_nonneg; lia).
      split; [nia|]. split; [unfold e'; lia|].
      destruct (Z.eq_dec e' (emin prec emax)) as [|Hne]; [by left|right].
      assert (e - e' = prec - d)%Z as -> by (unfold e' in *; lia).
      assert (Hp' : (2 ^ (prec - 1) = 2 ^ (d - 1) * 2 ^ (prec - d))%Z).
      { rewrite <- Z.pow_add_r by lia. f_equal. lia. }
      assert (0 < 2 ^ (prec - d))%Z by (apply Z.pow_pos_nonneg; lia).
      nia.
    + rewrite inject_Z_mult, <- bpow_Z by lia. rewrite <- Qmult_assoc, <- bpow_add.
      by replace (e - e' + e')%Z with e by lia.
  - assert (m = 0%Z) as -> by lia. exists 0%Z, (emin prec emax).
    split; [|ring]. unfold canon_float. split; [done|]. split; [done|by left].
Qed.

Lemma round_result_pos_finite (f : spec_float) (v : Q) :
  round_result false f v → 0 < v → v < bpow emax →
  ∃ m e, f = S754_finite false m e ∧ inject_Z (Zpos m) * bpow e == v.
Proof.
  destruct f as [s|s| |s m e]; simpl; [| |done|].
  - intros [_ Hv]. lra.
  - intros [_ Hv]. lra.
  - intros (-> & Hv & _) _ _. exists m, e. split; [done|by symmetry].
Qed.

Lemma inject_Z_lt_emax (n : Z) : (n < 2 ^ prec)%Z → inject_Z n < bpow emax.
Proof.
  intros Hn. apply Qlt_le_trans with (bpow prec).
  - rewrite bpow_prec. by rewrite <- Zlt_Qlt.
  - apply bpow_le. unfold prec, emax. lia.
Qed.

(** [available_weight * 1000] is a rounding of the exact product. *)
Lemma py_mul_f1000_rounds (s3 : bool) (m3 : positive) (e3 : Z) :
  ∃ v, rounds_to (inject_Z (Zpos m3) * bpow e3 * 1000) v
       ∧ round_result (xorb s3 false) (py_mul (S754_finite s3 m3 e3) f1000) v.
Proof.
  unfold py_mul, f1000. cbn [SFmul].
  assert (Hx : inject_Z (Zpos (m3 * 8796093022208000)) * bpow (e3 + -43)
               == inject_Z (Zpos m3) * bpow e3 * 1000).
  { rewrite Pos2Z.inj_mul, inject_Z_mult, bpow_add.
    assert (H : inject_Z 8796093022208000 * bpow (-43) == 1000) by reflexivity.
    rewrite <- H. ring. }
  destruct (binary_round_aux_spec (xorb s3 false)
              (inject_Z (Zpos (m3 * 8796093022208000)) * bpow (e3 + -43))
              (Zpos (m3 * 8796093022208000)) (e3 + -43) loc_Exact)
    as (v & Hv & Hres); [done| | |].
  - simpl. rewrite <- Qmult_assoc, bpow_opp. ring.
  - right. replace (e3 + -43 + prec - 1)%Z with (prec - 1 + (e3 + -43))%Z by lia.
    rewrite bpow_add. apply scale_le. rewrite bpow_prec_pred, <- Zle_Qle.
    change (2 ^ (prec - 1))%Z with 4503599627370496%Z. lia.
  - exists v. split; [|done]. by apply (rounds_to_comp _ _ v v Hx).
Qed.

(** The product [available_weight * 1000] of an integer weight is exact
    below [2 ^ prec]. *)
Lemma product_exact (m3 : positive) (e3 AV : Z) :
  inject_Z (Zpos m3) * bpow e3 == inject_Z AV →
  (0 < AV)%Z → (1000 * AV < 2 ^ prec)%Z →
  ∃ ma ea, py_mul (S754_finite false m3 e3) f1000 = S754_finite false ma ea
           ∧ inject_Z (Zpos ma) * bpow ea == inject_Z (1000 * AV).
Proof.
  intros Hval Hpos Hlt.
  destruct (py_mul_f1000_rounds false m3 e3) as (v & Hv & Hres). cbn [xorb] in Hres.
  assert (Hx : inject_Z (Zpos m3) * bpow e3 * 1000 == inject_Z (1000 * AV)).
  { rewrite Hval, inject_Z_mult. change (inject_Z 1000) with 1000. ring. }
  destruct (int_representable (1000 * AV)) as (m & e & Hc & Hme); [lia|].
  assert (Hvx : v == inject_Z (1000 * AV)).
  { rewrite <- Hx. apply (rounds_to_canon _ _ m e Hv Hc). by rewrite Hx, Hme. }
  destruct (round_result_pos_finite _ _ Hres) as (ma & ea & -> & Hma).
  - rewrite Hvx. change 0 with (inject_Z 0). rewrite <- Zlt_Qlt. lia.
  - rewrite Hvx. by apply inject_Z_lt_emax.
  - exists ma, ea. split; [done|]. by rewrite Hma.
Qed.

(** The quotient of two integers that are floats, rounded and rounded down,
    is their integer quotient, as long as the two are small enough. *)
Lemma quotient_floor_exact (ma mw : positive) (ea ew A W : Z) :
  inject_Z (Zpos ma) * bpow ea == inject_Z A →
  inject_Z (Zpos mw) * bpow ew == inject_Z W →
  (0 < A)%Z → (0 < W)%Z → (A + W <= 2 ^ (prec - 1))%Z →
  ebind (py_div (S754_finite false ma ea) (S754_finite false mw ew)) py_floor
  = inr (A / W)%Z.
Proof.
  intros HA HW HApos HWpos Hsum. cbn [py_div ebind].
  destruct (SFdiv_finite_spec false false ma mw ea ew) as (v & Hv & Hres).
  cbn [xorb] in Hres.
  assert (HX : inject_Z (Zpos ma) * bpow ea / (inject_Z (Zpos mw) * bpow ew)
               == inject_Z A / inject_Z W) by (by rewrite HA, HW).
  apply (rounds_to_comp _ _ v v HX) in Hv; [|done].
  change (2 ^ (prec - 1))%Z with 4503599627370496%Z in Hsum.
  set (n := (A / W)%Z).
  assert (HWq : 0 < inject_Z W) by (change 0 with (inject_Z 0); by rewrite <- Zlt_Qlt).
  assert (Hn : (0 <= n)%Z) by (apply Z.div_pos; lia).
  assert (Hdiv : (W * n <= A < W * (n + 1))%Z).
  { pose proof (Z.mul_div_le A W HWpos). pose proof (Z.mul_succ_div_gt A W HWpos).
    unfold n. lia. }
  assert (HnA : (n <= A)%Z) by nia.
  (* below *)
  assert (Hlo : inject_Z n <= v).
  { apply (rounds_to_mono (inject_Z n) (inject_Z A / inject_Z W)).
    - apply representable_rounds_to, int_representable.
      change (2 ^ prec)%Z with 9007199254740992%Z. lia.
    - done.
    - apply Qle_shift_div_l; [done|]. rewrite <- inject_Z_mult, <- Zle_Qle. lia. }
  (* above: a float under [n + 1] that the quotient does not exceed *)
  set (j := Z.log2_up W).
  assert (Hj : (0 <= j)%Z) by apply Z.log2_up_nonneg.
  assert (HWj : (W <= 2 ^ j < 2 * W)%Z).
  { destruct (Z.eq_dec W 1%Z) as [->|Hne]; [by compute|].
    pose proof (Z.log2_up_spec W ltac:(lia)) as [H1 H2]. fold j in H1, H2.
    pose proof (Z.log2_up_pos W ltac:(lia)) as H3. fold j in H3.
    split; [done|]. replace j with (Z.succ (Z.pred j)) at 1 by lia.
    rewrite Z.pow_succ_r by lia. lia. }
  assert (Hmy : (0 <= (n + 1) * 2 ^ j - 1 < 2 ^ prec)%Z).
  { change (2 ^ prec)%Z with 9007199254740992%Z. nia. }
  assert (Hjemin : (emin prec emax <= - j)%Z).
  { rewrite emin_eq. assert (j <= 52)%Z; [|lia].
    apply Z.log2_up_le_pow2; [done|]. change (2 ^ 52)%Z with 4503599627370496%Z. lia. }
  destruct (dyadic_canon ((n + 1) * 2 ^ j - 1) (- j) Hmy Hjemin) as (m' & e' & Hc & Hy).
  assert (Hpj : 0 < bpow j) by apply bpow_pos.
  assert (Hyval : inject_Z ((n + 1) * 2 ^ j - 1) * bpow (- j)
                  == inject_Z (n + 1) - bpow (- j)).
  { replace ((n + 1) * 2 ^ j - 1)%Z with ((n + 1) * 2 ^ j + -1)%Z by lia.
    rewrite inject_Z_plus, inject_Z_mult, <- bpow_Z by done.
    change (inject_Z (-1)) with (-1 # 1). pose proof (bpow_opp j) as H.
    transitivity (inject_Z (n + 1) * (bpow j * bpow (- j)) - bpow (- j)); [ring|].
    rewrite H. ring. }
  assert (Hhi : v <= inject_Z (n + 1) - bpow (- j)).
  { rewrite <- Hyval, <- Hy.
    apply (rounds_to_mono (inject_Z A / inject_Z W) (inject_Z m' * bpow e'));
      [done|by apply rounds_to_exact|].
    rewrite Hy. apply Qle_shift_div_r; [done|].
    assert (HAj : inject_Z A == inject_Z (A * 2 ^ j) * bpow (- j)).
    { rewrite inject_Z_mult, <- bpow_Z by done. pose proof (bpow_opp j).
      rewrite <- Qmult_assoc, H. ring. }
    assert (HYj : inject_Z ((n + 1) * 2 ^ j - 1) * bpow (- j) * inject_Z W
                  == inject_Z (W * ((n + 1) * 2 ^ j - 1)) * bpow (- j)).
    { rewrite (inject_Z_mult W). ring. }
    rewrite HAj, HYj. apply scale_le. rewrite <- Zle_Qle.
    assert (H1 : (1 <= W * (n + 1) - A)%Z) by lia.
    assert (H2 : (2 ^ j * 1 <= 2 ^ j * (W * (n + 1) - A))%Z).
    { apply Z.mul_le_mono_nonneg_l; lia. }
    destruct HWj as [HWj _]. revert H2 HWj. generalize (2 ^ j)%Z. clear. intros P H2 HWj.
    lia. }
  assert (Hnj : 0 < bpow (- j)) by apply bpow_pos.
  assert (Hvmax : v < bpow emax).
  { apply Qlt_trans with (inject_Z (n + 1)); [lra|]. apply inject_Z_lt_emax.
    change (2 ^ prec)%Z with 9007199254740992%Z. lia. }
  destruct (round_result_finite _ _ Hres) as [Hfin Hval].
  assert (Hf : is_finite (SFdiv prec emax (S754_finite false ma ea)
                            (S754_finite false mw ew)) = true) by (by apply Hfin).
  specialize (Hval Hf). rewrite py_floor_finite by done. f_equal.
  rewrite (Qfloor_comp _ _ Hval).
  assert (n <= Qfloor v)%Z by (by apply Qfloor_inject_Z_le).
  assert (Qfloor v < n + 1)%Z; [|lia].
  rewrite Zlt_Qlt. apply Qle_lt_trans with v; [apply Qfloor_le|lra].
Qed.

(** The mean count of two counts whose sum is below [2 ^ prec] is the
    integer quotient of the sum by two. *)
Lemma mean_exact (s : Z) :
  (0 <= s < 2 ^ prec)%Z → ebind (py_truediv s 2) py_floor = inr (s / 2)%Z.
Proof.
  intros [Hs Hhi]. unfold py_truediv. destruct s as [|p|p]; [done| |lia].
  cbn [SFofZ].
  destruct (SFdiv_finite_spec false false p 2 0 0) as (v & Hv & Hres).
  cbn [xorb] in Hres.
  assert (HX : inject_Z (Zpos p) * bpow 0 / (inject_Z 2 * bpow 0)
               == inject_Z (Zpos p) * bpow (-1)).
  { change (bpow 0) with 1. change (bpow (-1)) with (1 # 2). field. }
  destruct (dyadic_canon (Zpos p) (-1)) as (m' & e' & Hc & Hy); [done|by rewrite emin_eq|].
  assert (Hvx : v == inject_Z (Zpos p) * bpow (-1)).
  { rewrite <- HX. apply (rounds_to_canon _ _ m' e' Hv Hc). by rewrite HX, Hy. }
  assert (Hp : 0 < inject_Z (Zpos p)) by (by change 0 with (inject_Z 0); rewrite <- Zlt_Qlt).
  change (bpow (-1)) with (1 # 2) in Hvx.
  destruct (round_result_finite _ _ Hres) as [Hfin Hval].
  assert (Hf : is_finite (SFdiv prec emax (S754_finite false p 0) (S754_finite false 2 0))
               = true).
  { apply Hfin. apply Qle_lt_trans with (inject_Z (Zpos p)); [lra|].
    by apply inject_Z_lt_emax. }
  specialize (Hval Hf).
  destruct (SFdiv prec emax (S754_finite false p 0) (S754_finite false 2 0))
    as [s'|s'| |s' m e] eqn:Hq; try done; cbn [ebind];
    rewrite py_floor_finite by done; f_equal;
    rewrite (Qfloor_comp _ _ Hval), (Qfloor_comp _ _ Hvx), Zdiv_Qdiv;
    apply Qfloor_comp; change (inject_Z 2) with 2; field.
Qed.

(** [float(z)] of a positive integer below [2 ^ prec] is the float of that
    value. *)
Lemma py_float_int (z : Z) :
  (0 < z < 2 ^ prec)%Z →
  ∃ m e, py_float (PyInt z) = inr (S754_finite false m e)
         ∧ inject_Z (Zpos m) * bpow e == inject_Z z.
Proof.
  intros [Hpos Hhi]. destruct z as [|p|p]; [lia| |lia].
  cbn [py_float binary_normalize]. unfold binary_round.
  destruct (Zdigits2_spec (Zpos p) Hpos) as [[Hdlo Hdhi] Hd].
  change (Zdigits2 (Zpos p)) with (Zpos (digits2_pos p)) in *.
  set (d := Zpos (digits2_pos p)) in *.
  assert (Hdp : (d <= prec)%Z).
  { assert (2 ^ (d - 1) < 2 ^ prec)%Z by lia.
    apply Z.pow_lt_mono_r_iff in H; unfold prec in *; lia. }
  rewrite fexp_eq. replace (Z.max (d + 0 - 53) (-1074)) with (d - 53)%Z by (unfold prec in *; lia).
  assert (Hal : ∃ mz, shl_align p 0 (d - 53) = (mz, (d - 53)%Z)
                      ∧ Zpos mz = (Zpos p * 2 ^ (53 - d))%Z).
  { unfold shl_align. destruct (d - 53 - 0)%Z as [|q|q] eqn:Hq.
    - exists p. replace (d - 53)%Z with 0%Z by lia. split; [done|].
      replace (53 - d)%Z with 0%Z by lia. lia.
    - unfold prec in *. lia.
    - exists (Pos.iter xO p q). split; [done|].
      pose proof (shift_pos_correct q p) as Hsh. unfold shift_pos in Hsh.
      rewrite Hsh. change (Z.pow_pos 2 q) with (2 ^ Zpos q)%Z.
      replace (53 - d)%Z with (Zpos q) by lia. lia. }
  destruct Hal as (mz & -> & Hmz).
  destruct (binary_round_aux_spec false (inject_Z (Zpos p)) (Zpos mz) (d - 53) loc_Exact)
    as (v & Hv & Hres); [done| | |].
  - cbn [loc_inv]. rewrite Hmz, inject_Z_mult, <- bpow_Z by (unfold prec in *; lia).
    by replace (- (d - 53))%Z with (53 - d)%Z by lia.
  - right. replace (d - 53 + prec - 1)%Z with (d - 1)%Z by (unfold prec; lia).
    rewrite bpow_Z by lia. by rewrite <- Zle_Qle.
  - destruct (int_representable (Zpos p)) as (m & e & Hc & Hme); [lia|].
    assert (Hvx : v == inject_Z (Zpos p)).
    { apply (rounds_to_canon _ _ m e Hv Hc). by rewrite Hme. }
    destruct (round_result_pos_finite _ _ Hres) as (m0 & e0 & -> & Hm0).
    + rewrite Hvx. by change 0 with (inject_Z 0); rewrite <- Zlt_Qlt.
    + rewrite Hvx. by apply inject_Z_lt_emax.
    + exists m0, e0. split; [done|]. by rewrite Hm0.
Qed.

End ExactFacts.

Section MonotoneFacts.
Local Open Scope Z_scope.
Local Open Scope Q_scope.

(** The product [available_weight * 1000] of a weight that is not negative,
    when it is finite. *)
Lemma py_mul_nonneg (av : spec_float) :
  nonneg_finite av = true → is_finite (py_mul av f1000) = true →
  nonneg_finite (py_mul av f1000) = true
  ∧ ∃ v, rounds_to (SF2Q av * 1000) v ∧ SF2Q (py_mul av f1000) == v.
Proof.
  destruct av as [s|s| |[] m e]; try done; intros _ Hfin.
  - split; [done|]. exists 0. split; [|done].
    apply (rounds_to_comp 0 _ 0 0); [cbn; ring|done|apply rounds_to_zero].
  - destruct (py_mul_f1000_rounds false m e) as (v & Hv & Hres). cbn [xorb] in Hres.
    destruct (round_result_finite _ _ Hres) as [_ Hval]. split.
    + destruct (py_mul (S754_finite false m e) f1000) as [s'|s'| |s' m' e']; try done.
      cbn in Hres. by destruct Hres as [-> _].
    + exists v. split; [done|by apply Hval].
Qed.

(** The quotient of a float that is not negative by a positive one, when it
    is finite. *)
Lemma SFdiv_nonneg (a : spec_float) (mw : positive) (ew : Z) :
  nonneg_finite a = true →
  is_finite (SFdiv prec emax a (S754_finite false mw ew)) = true →
  ∃ v, rounds_to (SF2Q a / SF2Q (S754_finite false mw ew)) v
       ∧ SF2Q (SFdiv prec emax a (S754_finite false mw ew)) == v.
Proof.
  destruct a as [s|s| |[] m e]; try done; intros _ Hfin.
  - exists 0. split; [|done].
    apply (rounds_to_comp 0 _ 0 0); [|done|apply rounds_to_zero].
    cbn [SF2Q]. unfold Qdiv. ring.
  - destruct (SFdiv_finite_spec false false m mw e ew) as (v & Hv & Hres).
    cbn [xorb] in Hres. destruct (round_result_finite _ _ Hres) as [_ Hval].
    exists v. split; [done|by apply Hval].
Qed.

(** A count that is computed is the floor of a finite quotient of a finite
    product. *)
Lemma count_for_inv (av : spec_float) (s : bool) (m : positive) (e n : Z) :
  count_for av (S754_finite s m e) = inr n →
  is_finite (py_mul av f1000) = true
  ∧ is_finite (SFdiv prec emax (py_mul av f1000) (S754_finite s m e)) = true
  ∧ n = Qfloor (SF2Q (SFdiv prec emax (py_mul av f1000) (S754_finite s m e))).
Proof.
  unfold count_for. cbn [py_div ebind]. intros Hn.
  assert (Hq : is_finite (SFdiv prec emax (py_mul av f1000) (S754_finite s m e)) = true).
  { by destruct (SFdiv prec emax (py_mul av f1000) (S754_finite s m e)). }
  split; [|split; [done|]].
  - by destruct (py_mul av f1000).
  - rewrite py_floor_finite in Hn by done. by injection Hn.
Qed.

Lemma count_for_mono (av av' : spec_float) (mw : positive) (ew n n' : Z) :
  nonneg_finite av = true → nonneg_finite av' = true →
  SF2Q av <= SF2Q av' →
  count_for av (S754_finite false mw ew) = inr n →
  count_for av' (S754_finite false mw ew) = inr n' →
  (0 <= n <= n')%Z.
Proof.
  intros Hav Hav' Hle (Ha & Hq & ->)%count_for_inv (Ha' & Hq' & ->)%count_for_inv.
  destruct (py_mul_nonneg av Hav Ha) as (Hna & va & Hva & Hvala).
  destruct (py_mul_nonneg av' Hav' Ha') as (Hna' & va' & Hva' & Hvala').
  destruct (SFdiv_nonneg _ mw ew Hna Hq) as (v & Hv & Hval).
  destruct (SFdiv_nonneg _ mw ew Hna' Hq') as (v' & Hv' & Hval').
  assert (Hprod : va <= va').
  { eapply rounds_to_mono; [exact Hva|exact Hva'|]. lra. }
  assert (HW : 0 < SF2Q (S754_finite false mw ew)).
  { cbn. pose proof (bpow_pos ew).
    assert (0 < inject_Z (Zpos mw)) by (by change 0 with (inject_Z 0); rewrite <- Zlt_Qlt).
    nra. }
  assert (Hquot : v <= v').
  { eapply rounds_to_mono; [exact Hv|exact Hv'|].
    rewrite Hvala, Hvala'. unfold Qdiv. apply Qmult_le_compat_r; [done|].
    apply Qlt_le_weak, Qinv_lt_0_compat, HW. }
  split.
  - apply (Qfloor_inject_Z_le 0). rewrite Hval. by eapply rounds_to_nonneg.
  - apply Qfloor_resp_le. by rewrite Hval, Hval'.
Qed.

Lemma mean_mono (s s' k k' : Z) :
  (0 <= s <= s')%Z →
  ebind (py_truediv s 2) py_floor = inr k →
  ebind (py_truediv s' 2) py_floor = inr k' →
  (k <= k')%Z.
Proof.
  intros Hs Hk Hk'.
  assert (Hgen : ∀ t k, (0 <= t)%Z → ebind (py_truediv t 2) py_floor = inr k →
                 ∃ v, rounds_to (inject_Z t / 2) v ∧ k = Qfloor v).
  { intros t k0 Ht Hk0. unfold py_truediv in Hk0.
    assert (Hnn : nonneg_finite (SFofZ t) = true) by (by destruct t).
    assert (Hf : is_finite (SFdiv prec emax (SFofZ t) (SFofZ 2)) = true
                 ∧ k0 = Qfloor (SF2Q (SFdiv prec emax (SFofZ t) (SFofZ 2)))).
    { destruct (SFdiv prec emax (SFofZ t) (SFofZ 2)) as [?|?| |? m e] eqn:Hq;
        try done; cbn [ebind] in Hk0; (split; [done|]);
        rewrite py_floor_finite in Hk0 by done; by injection Hk0. }
    destruct Hf as [Hf ->].
    destruct (SFdiv_nonneg (SFofZ t) 2 0 Hnn Hf) as (v & Hv & Hval).
    exists v. split; [|by apply Qfloor_comp].
    eapply rounds_to_comp; [|reflexivity|exact Hv].
    destruct t as [|p|p]; [| |lia]; cbn [SFofZ SF2Q cond_Zopp];
      change (bpow 0) with 1; change (inject_Z 2) with 2; change (inject_Z 0) with 0; field. }
  destruct (Hgen s k) as (v & Hv & ->); [lia|done|].
  destruct (Hgen s' k') as (v' & Hv' & ->); [lia|done|].
  apply Qfloor_resp_le. eapply rounds_to_mono; [exact Hv|exact Hv'|].
  assert (inject_Z s <= inject_Z s') by (rewrite <- Zle_Qle; lia).
  unfold Qdiv. apply Qmult_le_compat_r; [done|]. by compute.
Qed.

(** A product of [2 ^ emax] or more is infinite. *)
Lemma py_mul_overflow (s3 : bool) (m3 : positive) (e3 : Z) :
  bpow emax <= inject_Z (Zpos m3) * bpow e3 * 1000 →
  py_mul (S754_finite s3 m3 e3) f1000 = S754_infinity s3.
Proof.
  intros Hbig. destruct (py_mul_f1000_rounds s3 m3 e3) as (v & Hv & Hres).
  assert (Hc : canon_float (2 ^ (prec - 1)) (emax - (prec - 1))).
  { unfold canon_float. rewrite emin_eq. unfold prec, emax.
    split; [done|]. split; [done|by right]. }
  assert (Hval : inject_Z (2 ^ (prec - 1)) * bpow (emax - (prec - 1)) == bpow emax).
  { rewrite <- bpow_prec_pred, <- bpow_add. by replace (prec - 1 + (emax - (prec - 1)))%Z with emax by lia. }
  assert (Hle : bpow emax <= v).
  { rewrite <- Hval. eapply rounds_to_mono; [by apply rounds_to_exact|exact Hv|].
    by rewrite Hval. }
  destruct (round_result_is_finite _ _ _ Hres) as [Hfin _].
  destruct (py_mul (S754_finite s3 m3 e3) f1000) as [s'|s'| |s' m' e']; cbn in Hres.
  - specialize (Hfin eq_refl). lra.
  - destruct Hres as [-> _]. by destruct s3.
  - done.
  - specialize (Hfin eq_refl). lra.
Qed.

End MonotoneFacts.

(** X10. For a row of integers, the two TKG positive, the available weight
    not negative, and [1000 * available + TKG] at most [2 ^ 52] for both TKG,
    the floats lose nothing: the counts are the integer quotients
    [1000 * available // max TKG] and [1000 * available // min TKG], and the
    mean count is their sum [// 2]. *)
Theorem seed_counts_exact_on_integers (tree : string) (min_tkg max_tkg available : Z) :
  (0 < min_tkg)%Z → (0 < max_tkg)%Z → (0 <= available)%Z →
  (1000 * available + min_tkg <= 2 ^ 52)%Z →
  (1000 * available + max_tkg <= 2 ^ 52)%Z →
  seed_counts {| item0 := tree; item1 := PyInt min_tkg; item2 := PyInt max_tkg;
                 item3 := PyInt available |}
  = inr {| tree_name := tree;
           min_seed_count := (1000 * available / max_tkg)%Z;
           max_seed_count := (1000 * available / min_tkg)%Z;
           mean_seed_count := ((1000 * available / max_tkg
                                + 1000 * available / min_tkg) / 2)%Z |}.
Proof.
  intros Hmin Hmax Hav Hs1 Hs2.
  change (2 ^ 52)%Z with 4503599627370496%Z in *.
  destruct (py_float_int min_tkg) as (m1 & e1 & Hc1 & Hv1).
  { change (2 ^ prec)%Z with 9007199254740992%Z. lia. }
  destruct (py_float_int max_tkg) as (m2 & e2 & Hc2 & Hv2).
  { change (2 ^ prec)%Z with 9007199254740992%Z. lia. }
  unfold seed_counts. cbn [item0 item1 item2 item3]. rewrite Hc1, Hc2. cbn [ebind].
  assert (Hmean : ebind (py_truediv (1000 * available / max_tkg
                                     + 1000 * available / min_tkg) 2) py_floor
                  = inr ((1000 * available / max_tkg + 1000 * available / min_tkg) / 2)%Z).
  { apply mean_exact. change (2 ^ prec)%Z with 9007199254740992%Z.
    assert (0 <= 1000 * available / max_tkg <= 1000 * available)%Z.
    { split; [apply Z.div_pos; lia|]. apply Z.div_le_upper_bound; nia. }
    assert (0 <= 1000 * available / min_tkg <= 1000 * available)%Z.
    { split; [apply Z.div_pos; lia|]. apply Z.div_le_upper_bound; nia. }
    lia. }
  destruct (Z_lt_le_dec 0 available) as [Hpos|Hzero].
  - destruct (py_float_int available) as (m3 & e3 & Hc3 & Hv3).
    { change (2 ^ prec)%Z with 9007199254740992%Z. lia. }
    rewrite Hc3. cbn [ebind].
    destruct (product_exact m3 e3 available Hv3 Hpos) as (ma & ea & -> & Hva).
    { change (2 ^ prec)%Z with 9007199254740992%Z. lia. }
    rewrite (quotient_floor_exact ma m1 ea e1 (1000 * available) min_tkg)
      by (try done; try lia).
    cbn [ebind].
    rewrite (quotient_floor_exact ma m2 ea e2 (1000 * available) max_tkg)
      by (try done; try lia).
    cbn [ebind]. rewrite Hmean. done.
  - assert (available = 0%Z) as -> by lia.
    revert Hmean. rewrite !Z.mul_0_r, !Z.div_0_l by lia. intros Hmean.
    cbn -[py_truediv]. by rewrite Hmean.
Qed.

(** X10 on the row of Pinus cembra, [["Pinus cembra", 150, 300, 2000]]. *)
Lemma seed_counts_exact_on_integers_witness :
  seed_counts {| item0 := "Pinus cembra"; item1 := PyInt 150; item2 := PyInt 300;
                 item3 := PyInt 2000 |}
  = inr {| tree_name := "Pinus cembra";
           min_seed_count := (1000 * 2000 / 300)%Z;
           max_seed_count := (1000 * 2000 / 150)%Z;
           mean_seed_count := ((1000 * 2000 / 300 + 1000 * 2000 / 150) / 2)%Z |}.
Proof.
  apply (seed_counts_exact_on_integers "Pinus cembra" 150 300 2000); lia.
Defined.

(** X11. More available weight never gives a smaller count: of two rows with
    the same positive TKG and available weights that are not negative, the
    one with the larger available weight has, when both rows have their
    counts, a minimum, a maximum and a mean count at least as large. *)
Theorem seed_counts_monotone_in_available_weight (it it' : item) (av av' : spec_float)
    (m1 m2 : positive) (e1 e2 : Z) (r r' : report) :
  py_float (item1 it) = inr (S754_finite false m1 e1) →
  py_float (item1 it') = inr (S754_finite false m1 e1) →
  py_float (item2 it) = inr (S754_finite false m2 e2) →
  py_float (item2 it') = inr (S754_finite false m2 e2) →
  py_float (item3 it) = inr av →
  py_float (item3 it') = inr av' →
  nonneg_finite av = true → nonneg_finite av' = true →
  (SF2Q av <= SF2Q av')%Q →
  seed_counts it = inr r →
  seed_counts it' = inr r' →
  (min_seed_count r <= min_seed_count r')%Z
  ∧ (max_seed_count r <= max_seed_count r')%Z
  ∧ (mean_seed_count r <= mean_seed_count r')%Z.
Proof.
  intros Hc1 Hc1' Hc2 Hc2' Hc3 Hc3' Hav Hav' Hle.
  unfold seed_counts. rewrite Hc1, Hc1', Hc2, Hc2', Hc3, Hc3'. cbn [ebind].
  change (ebind (py_div (py_mul av f1000) (S754_finite false m1 e1)) py_floor)
    with (count_for av (S754_finite false m1 e1)).
  change (ebind (py_div (py_mul av f1000) (S754_finite false m2 e2)) py_floor)
    with (count_for av (S754_finite false m2 e2)).
  change (ebind (py_div (py_mul av' f1000) (S754_finite false m1 e1)) py_floor)
    with (count_for av' (S754_finite false m1 e1)).
  change (ebind (py_div (py_mul av' f1000) (S754_finite false m2 e2)) py_floor)
    with (count_for av' (S754_finite false m2 e2)).
  destruct (count_for av (S754_finite false m1 e1)) as [?|M] eqn:HM; [done|].
  destruct (count_for av (S754_finite false m2 e2)) as [?|m] eqn:Hm; [done|].
  destruct (count_for av' (S754_finite false m1 e1)) as [?|M'] eqn:HM'; [done|].
  destruct (count_for av' (S754_finite false m2 e2)) as [?|m'] eqn:Hm'; [done|].
  cbn [ebind].
  destruct (ebind (py_truediv (m + M) 2) py_floor) as [?|k] eqn:Hk; [done|].
  destruct (ebind (py_truediv (m' + M') 2) py_floor) as [?|k'] eqn:Hk'; [done|].
  cbn [ebind]. intros [= <-] [= <-]. cbn.
  pose proof (count_for_mono av av' m1 e1 M M' Hav Hav' Hle HM HM') as HMM.
  pose proof (count_for_mono av av' m2 e2 m m' Hav Hav' Hle Hm Hm') as Hmm.
  split; [lia|]. split; [lia|].
  apply (mean_mono (m + M) (m' + M')); [lia|done..].
Qed.

(** X11 on the row of Sorbus aucuparia with 200 g and with 250 g. *)
Lemma seed_counts_monotone_in_available_weight_witness :
  seed_counts {| item0 := "Sorbus aucuparia"; item1 := PyFloat f3_5; item2 := PyInt 5;
                 item3 := PyInt 200 |}
  = inr {| tree_name := "Sorbus aucuparia"; min_seed_count := 40000;
           max_seed_count := 57142; mean_seed_count := 48571 |}
  ∧ seed_counts {| item0 := "Sorbus aucuparia"; item1 := PyFloat f3_5; item2 := PyInt 5;
                   item3 := PyInt 250 |}
    = inr {| tree_name := "Sorbus aucuparia"; min_seed_count := 50000;
             max_seed_count := 71428; mean_seed_count := 60714 |}
  ∧ (40000 <= 50000)%Z ∧ (57142 <= 71428)%Z ∧ (48571 <= 60714)%Z.
Proof.
  split; [vm_compute; reflexivity|]. split; [vm_compute; reflexivity|].
  refine (seed_counts_monotone_in_available_weight
            {| item0 := "Sorbus aucuparia"; item1 := PyFloat f3_5; item2 := PyInt 5;
               item3 := PyInt 200 |}
            {| item0 := "Sorbus aucuparia"; item1 := PyFloat f3_5; item2 := PyInt 5;
               item3 := PyInt 250 |}
            (S754_finite false 7036874417766400 (-45))
            (S754_finite false 8796093022208000 (-45))
            7881299347898368 5629499534213120 (-51) (-50)
            {| tree_name := "Sorbus aucuparia"; min_seed_count := 40000;
               max_seed_count := 57142; mean_seed_count := 48571 |}
            {| tree_name := "Sorbus aucuparia"; min_seed_count := 50000;
               max_seed_count := 71428; mean_seed_count := 60714 |}
            _ _ _ _ _ _ _ _ _ _ _);
    vm_compute; try reflexivity; discriminate.
Defined.

(** X12. An available weight that is not a finite float stops the row at the
    first [math.floor]: when the two TKG convert and the minimal TKG is a
    finite float other than zero, a NaN raises [ValueError] and an infinity
    of either sign raises [OverflowError]. *)
Theorem seed_counts_nonfinite_available_weight (it : item) (s1 : bool) (m1 : positive)
    (e1 : Z) (max_weight av : spec_float) :
  py_float (item1 it) = inr (S754_finite s1 m1 e1) →
  py_float (item2 it) = inr max_weight →
  py_float (item3 it) = inr av →
  is_finite av = false →
  seed_counts it
  = inl (match av with S754_nan => ValueError | _ => OverflowError end).
Proof.
  intros Hc1 Hc2 Hc3 Hav. unfold seed_counts. rewrite Hc1, Hc2, Hc3.
  by destruct av.
Qed.

(** X12 on a row whose available weight is a NaN. *)
Lemma seed_counts_nonfinite_available_weight_witness :
  seed_counts {| item0 := "Picea abies"; item1 := PyInt 4; item2 := PyInt 8;
                 item3 := PyFloat S754_nan |}
  = inl ValueError.
Proof.
  refine (seed_counts_nonfinite_available_weight
            {| item0 := "Picea abies"; item1 := PyInt 4; item2 := PyInt 8;
               item3 := PyFloat S754_nan |}
            false 4503599627370496 (-50) (S754_finite false 4503599627370496 (-49))
            S754_nan _ _ _ _);
    vm_compute; reflexivity.
Defined.

(** X13. An available weight whose thousandfold is [2 ^ 1024] or more in
    size cannot be counted: when the two TKG convert and the minimal TKG is a
    finite float other than zero, the product with 1000 is an infinity and
    the row raises [OverflowError]. *)
Theorem seed_counts_overflow (it : item) (s1 s3 : bool) (m1 m3 : positive) (e1 e3 : Z)
    (max_weight : spec_float) :
  py_float (item1 it) = inr (S754_finite s1 m1 e1) →
  py_float (item2 it) = inr max_weight →
  py_float (item3 it) = inr (S754_finite s3 m3 e3) →
  (bpow emax <= inject_Z (Zpos m3) * bpow e3 * 1000)%Q →
  seed_counts it = inl OverflowError.
Proof.
  intros Hc1 Hc2 Hc3 Hbig. unfold seed_counts. rewrite Hc1, Hc2, Hc3. cbn [ebind].
  by rewrite (py_mul_overflow s3 m3 e3 Hbig).
Qed.

(** X13 on the available weight [2 ^ 1023] g. *)
Lemma seed_counts_overflow_witness :
  seed_counts {| item0 := "Picea abies"; item1 := PyInt 4; item2 := PyInt 8;
                 item3 := PyFloat (S754_finite false 4503599627370496 971) |}
  = inl OverflowError.
Proof.
  refine (seed_counts_overflow
            {| item0 := "Picea abies"; item1 := PyInt 4; item2 := PyInt 8;
               item3 := PyFloat (S754_finite false 4503599627370496 971) |}
            false false 4503599627370496 4503599627370496 (-50) 971
            (S754_finite false 4503599627370496 (-49)) _ _ _ _);
    vm_compute; try reflexivity; discriminate.
Defined.

(** X14. [quantify_seeds] on a table in two parts is [quantify_seeds] on the
    first part and then, when that has raised nothing, on the second part,
    which goes on writing where the first part stopped; an exception of the
    first part is the exception of the whole, and the second part is not
    looked at. *)
Theorem quantify_seeds_app (first second : list item) (out : list report) :
  quantify_seeds (first ++ second) out
  = match quantify_seeds first out with
    | (out', inr _) => quantify_seeds second out'
    | (out', inl e) => (out', inl e)
    end.
Proof.
  revert out. induction first as [|it rest IH]; intros out; [done|].
  cbn [app quantify_seeds]. unfold bind, lift, print.
  destruct (seed_counts it) as [e|r]; [done|]. apply IH.
Qed.
